(** * Record batch encoding, partitioners and direct-consumer assignment

    A shallow embedding of three pieces of the Kafka client:
    - [recordBatch.appendTo] (the produce-request batch encoder),
    - the partitioners of [pkg/kgo/partitioner.go],
    - [directConsumer.findNewAssignments] of [consume_direct.go].

    Go integers are modelled as [Z] with the wrap-around of their width
    written out, byte slices as lists of [Z] in [0, 256), Go maps as
    [gmap], and the unspecified iteration order of [range] over a map as an
    explicit order that every call receives. *)

From Stdlib Require Import ZArith Lia.
From stdpp Require Import base option list gmap fin_maps strings.

Local Open Scope Z_scope.

(* ===================================================================== *)
(** * Part I: definitions                                                  *)
(* ===================================================================== *)

(** ** Fixed-width integers *)

(** Wrap to an unsigned / signed two's complement integer of [w] bits. *)
Definition wrapU (w : Z) (x : Z) : Z := x mod 2 ^ w.
Definition wrapS (w : Z) (x : Z) : Z := (x + 2 ^ (w - 1)) mod 2 ^ w - 2 ^ (w - 1).

Definition int8 (x : Z) : Z := wrapS 8 x.
Definition int16 (x : Z) : Z := wrapS 16 x.
Definition int32 (x : Z) : Z := wrapS 32 x.
Definition int64 (x : Z) : Z := wrapS 64 x.
Definition uint32 (x : Z) : Z := wrapU 32 x.

Definition MaxInt32 : Z := 2 ^ 31 - 1.
Definition MaxInt64 : Z := 2 ^ 63 - 1.

(** ** kbin: the append-primitive library *)

Module kbin.

(** Modelled from the spec: the fixed-width append primitives of package
    kbin, whose source is not part of the encoder's file. "All integers
    big-endian": the [k] low-order bytes of [v], most significant first. *)
Fixpoint beBytes (k : nat) (v : Z) : list Z :=
  match k with
  | O => []
  | S k' => Z.land (Z.shiftr v (8 * Z.of_nat k')) 255 :: beBytes k' v
  end.

Definition AppendInt8 (dst : list Z) (i : Z) : list Z := dst ++ beBytes 1 i.
Definition AppendInt16 (dst : list Z) (i : Z) : list Z := dst ++ beBytes 2 i.
Definition AppendInt32 (dst : list Z) (i : Z) : list Z := dst ++ beBytes 4 i.
Definition AppendInt64 (dst : list Z) (i : Z) : list Z := dst ++ beBytes 8 i.
Definition AppendArrayLen (dst : list Z) (l : Z) : list Z := AppendInt32 dst (int32 l).

(** [append(dst[:at], bs...)] evaluated for its effect on the backing array
    that [dst] shares: the bytes land at positions [at ..] and only the
    positions below [len(dst)] are visible through [dst]. The encoder only
    patches fields that it wrote before, so the bytes always land below
    [len(dst)], within the capacity of the slice. *)
Definition appendInPlace (dst : list Z) (at_ : nat) (bs : list Z) : list Z :=
  take (length dst) (take at_ dst ++ bs ++ drop (at_ + length bs) dst).

Definition PatchInt16 (dst : list Z) (at_ : nat) (i : Z) : list Z :=
  appendInPlace dst at_ (beBytes 2 i).
Definition PatchInt32 (dst : list Z) (at_ : nat) (i : Z) : list Z :=
  appendInPlace dst at_ (beBytes 4 i).

(** The variable-length primitives (varint, length-prefixed bytes and
    strings) are taken as they come: what they write is a function of the
    value alone and is appended to the buffer. *)
Record VarEncoding := {
  varint : Z -> list Z;
  varintBytes : option (list Z) -> list Z;
  varintString : string -> list Z
}.

Definition AppendVarint (ve : VarEncoding) (dst : list Z) (i : Z) : list Z :=
  dst ++ varint ve i.
Definition AppendVarintBytes (ve : VarEncoding) (dst : list Z) (b : option (list Z)) : list Z :=
  dst ++ varintBytes ve b.
Definition AppendVarintString (ve : VarEncoding) (dst : list Z) (s : string) : list Z :=
  dst ++ varintString ve s.

(** Big-endian readers, used to state what a field of the output holds. *)
Definition beValue (bs : list Z) : Z := foldl (fun acc b => acc * 256 + b) 0 bs.
Definition ReadUint32 (buf : list Z) (at_ : nat) : Z := beValue (take 4 (drop at_ buf)).
Definition ReadInt32 (buf : list Z) (at_ : nat) : Z := int32 (ReadUint32 buf at_).
Definition ReadInt16 (buf : list Z) (at_ : nat) : Z := int16 (beValue (take 2 (drop at_ buf))).

End kbin.

(** ** hash/crc32 with the Castagnoli polynomial *)

Module crc32.

(** The reflected Castagnoli polynomial, [crc32.Castagnoli]. *)
Definition Castagnoli : Z := 0x82F63B78.

Definition stepBit (poly crc : Z) : Z :=
  if Z.testbit crc 0 then Z.lxor (Z.shiftr crc 1) poly else Z.shiftr crc 1.

Definition stepByte (poly crc b : Z) : Z :=
  Nat.iter 8 (stepBit poly) (Z.lxor crc (Z.land b 255)).

(** [crc32.Checksum(data, crc32.MakeTable(poly))], a [uint32]. *)
Definition Checksum (data : list Z) (poly : Z) : Z :=
  uint32 (Z.lxor (foldl (stepByte poly) 0xFFFFFFFF data) 0xFFFFFFFF).

End crc32.

Definition crc32c : Z := crc32.Castagnoli.

(** ** The record batch encoder *)

(** The declarations of the record types are outside the files at hand;
    the fields are those that [appendTo] reads. *)
Record RecordHeader := {
  hdrKey : string;
  hdrValue : option (list Z)
}.

(** A user record; [None] is a nil byte slice. *)
Record Record_ := {
  Key : option (list Z);
  Value : option (list Z);
  Headers : list RecordHeader
}.

Record numberedRecord := {
  lengthField : Z;
  timestampDelta : Z;
  offsetDelta : Z
}.

Record promisedNumberedRecord := {
  pnr_n : numberedRecord;
  pnr_r : Record_
}.

Record recordBatch := {
  firstTimestamp : Z;
  records : list promisedNumberedRecord;
  wireLength : Z;
  attrs : Z
}.

(** A compressor: [compress] returns [None] for a nil slice (an error). *)
Record compressor := {
  compress : list Z -> option (list Z);
  cattrs : Z
}.

(** [promisedNumberedRecord.appendTo] *)
Definition pnr_appendTo (ve : kbin.VarEncoding) (dst : list Z)
    (pnr : promisedNumberedRecord) : list Z :=
  let dst := kbin.AppendVarint ve dst (lengthField (pnr_n pnr)) in
  let dst := kbin.AppendInt8 dst 0 in
  let dst := kbin.AppendVarint ve dst (timestampDelta (pnr_n pnr)) in
  let dst := kbin.AppendVarint ve dst (offsetDelta (pnr_n pnr)) in
  let dst := kbin.AppendVarintBytes ve dst (Key (pnr_r pnr)) in
  let dst := kbin.AppendVarintBytes ve dst (Value (pnr_r pnr)) in
  let dst := kbin.AppendVarint ve dst (int32 (Z.of_nat (length (Headers (pnr_r pnr))))) in
  foldl (fun dst h =>
           let dst := kbin.AppendVarintString ve dst (hdrKey h) in
           kbin.AppendVarintBytes ve dst (hdrValue h))
        dst (Headers (pnr_r pnr)).

(** [copy(dst[at:], src)]: copies as many bytes as fit. *)
Definition copyAt (dst : list Z) (at_ : nat) (src : list Z) : list Z :=
  kbin.appendInPlace dst at_ (take (length dst - at_) src).

(** The compression step of [appendTo] (the [if compressor != nil] block);
    it returns the buffer with the three header fields patched. *)
Definition compressRegion (nullableBytesLen batchLen attrs : Z)
    (nullableBytesLenAt batchLenAt attrsAt recordsAt : nat)
    (dst : list Z) (c : compressor) : list Z :=
  let toCompress := drop recordsAt dst in
  match compress c toCompress with
  | Some compressed =>
      if (length compressed <? length toCompress)%nat then
        let dst := copyAt dst recordsAt compressed in
        let dst := take (recordsAt + length compressed) dst in
        let savings := int32 (Z.of_nat (length toCompress) - Z.of_nat (length compressed)) in
        let nullableBytesLen := int32 (nullableBytesLen - savings) in
        let batchLen := int32 (batchLen - savings) in
        let attrs := Z.lor attrs (int16 (cattrs c)) in
        let dst := kbin.PatchInt32 dst nullableBytesLenAt nullableBytesLen in
        let dst := kbin.PatchInt32 dst batchLenAt batchLen in
        kbin.PatchInt16 dst attrsAt attrs
      else dst
  | None => dst
  end.

(** [recordBatch.appendTo]; [None] is the index-out-of-range panic on an
    empty batch. *)
Definition appendTo (ve : kbin.VarEncoding) (dst : list Z) (r : recordBatch)
    (compressor : option compressor) : option (list Z) :=
  let nullableBytesLen := int32 (wireLength r - 4) in
  let nullableBytesLenAt := length dst in
  let dst := kbin.AppendInt32 dst nullableBytesLen in
  let dst := kbin.AppendInt64 dst 0 in
  let batchLen := int32 (nullableBytesLen - 8 - 4) in
  let batchLenAt := length dst in
  let dst := kbin.AppendInt32 dst batchLen in
  let dst := kbin.AppendInt32 dst (-1) in
  let dst := kbin.AppendInt8 dst 2 in
  let crcStart := length dst in
  let dst := kbin.AppendInt32 dst 0 in
  let attrsAt := length dst in
  let attrs := attrs r in
  let dst := kbin.AppendInt16 dst attrs in
  let dst := kbin.AppendInt32 dst (int32 (Z.of_nat (length (records r)) - 1)) in
  let dst := kbin.AppendInt64 dst (firstTimestamp r) in
  match last (records r) with
  | None => None
  | Some lastRecord =>
      let dst := kbin.AppendInt64 dst
                   (int64 (firstTimestamp r + timestampDelta (pnr_n lastRecord))) in
      let dst := kbin.AppendInt64 dst (-1) in
      let dst := kbin.AppendInt16 dst (-1) in
      let dst := kbin.AppendInt32 dst (-1) in
      let dst := kbin.AppendArrayLen dst (Z.of_nat (length (records r))) in
      let recordsAt := length dst in
      let dst := foldl (pnr_appendTo ve) dst (records r) in
      let dst :=
        match compressor with
        | Some c => compressRegion nullableBytesLen batchLen attrs
                      nullableBytesLenAt batchLenAt attrsAt recordsAt dst c
        | None => dst
        end in
      Some (kbin.PatchInt32 dst crcStart
              (int32 (crc32.Checksum (drop (crcStart + 4) dst) crc32c)))
  end.

(** The bytes of the record list alone, and what a sealed batch is: at
    least one record, and a precomputed wire length that is the length of
    the uncompressed entry (65 bytes of fixed fields, then the records). *)
Definition recordsBytes (ve : kbin.VarEncoding) (r : recordBatch) : list Z :=
  foldl (pnr_appendTo ve) [] (records r).

Definition sealed (ve : kbin.VarEncoding) (r : recordBatch) : Prop :=
  records r <> [] /\
  wireLength r = 65 + Z.of_nat (length (recordsBytes ve r)) /\
  wireLength r <= MaxInt32.

(** Example data for the encoder. *)
Definition exampleEncoding : kbin.VarEncoding :=
  {| kbin.varint := fun i => [Z.land i 127];
     kbin.varintBytes := fun b =>
       match b with
       | None => [1]
       | Some bs => Z.of_nat (length bs) * 2 :: bs
       end;
     kbin.varintString := fun s => [Z.of_nat (String.length s) * 2] |}.

Definition exampleRecord (v : list Z) (delta : Z) : promisedNumberedRecord :=
  {| pnr_n := {| lengthField := 6 + Z.of_nat (length v);
                 timestampDelta := delta; offsetDelta := delta |};
     pnr_r := {| Key := None; Value := Some v; Headers := [] |} |}.

Definition exampleBatch : recordBatch :=
  {| firstTimestamp := 1000;
     records := [exampleRecord [7; 7; 7; 7; 7; 7] 0; exampleRecord [7; 7; 7; 7] 1];
     wireLength := 65 + 24;
     attrs := 0 |}.

(** A stand-in codec whose output is a quarter the size of its input. *)
Definition exampleShrinker : compressor :=
  {| compress := fun bs => Some (take (length bs / 4) bs); cattrs := 1 |}.

(** A codec that fails, and one whose output is larger than its input. *)
Definition exampleFailing : compressor :=
  {| compress := fun _ => None; cattrs := 2 |}.
Definition exampleGrowing : compressor :=
  {| compress := fun bs => Some (0 :: bs); cattrs := 3 |}.

(** *** The wire layout, field by field

    The layout that the contract of the encoder describes, written as one
    concatenation; [appendTo] is shown below to produce exactly this. *)

(** The fields that follow the checksum. *)
Definition batchTail (r : recordBatch) (attrs maxTimestamp : Z) (payload : list Z) : list Z :=
  kbin.beBytes 2 attrs ++
  kbin.beBytes 4 (int32 (Z.of_nat (length (records r)) - 1)) ++
  kbin.beBytes 8 (firstTimestamp r) ++
  kbin.beBytes 8 maxTimestamp ++
  kbin.beBytes 8 (-1) ++ kbin.beBytes 2 (-1) ++ kbin.beBytes 4 (-1) ++
  kbin.beBytes 4 (int32 (Z.of_nat (length (records r)))) ++
  payload.

(** The whole entry: the caller's buffer, the fields up to the checksum,
    the checksum of the tail, the tail. *)
Definition batchLayout (dst : list Z) (outerLen batchLen : Z) (tail : list Z) : list Z :=
  dst ++ kbin.beBytes 4 outerLen ++ kbin.beBytes 8 0 ++ kbin.beBytes 4 batchLen ++
  kbin.beBytes 4 (-1) ++ kbin.beBytes 1 2 ++
  kbin.beBytes 4 (int32 (crc32.Checksum tail crc32c)) ++ tail.

(** The compressed record region, when compression is kept: a compressor
    is given, it returns a non-nil slice, and that slice is strictly
    shorter than the record region. *)
Definition keptCompression (ve : kbin.VarEncoding) (r : recordBatch)
    (c : option compressor) : option (compressor * list Z) :=
  match c with
  | Some c' =>
      match compress c' (recordsBytes ve r) with
      | Some z =>
          if (length z <? length (recordsBytes ve r))%nat then Some (c', z) else None
      | None => None
      end
  | None => None
  end.

Definition encodedBatch (ve : kbin.VarEncoding) (dst : list Z) (r : recordBatch)
    (c : option compressor) (lastRecord : promisedNumberedRecord) : list Z :=
  let maxTimestamp := int64 (firstTimestamp r + timestampDelta (pnr_n lastRecord)) in
  let outerLen := int32 (wireLength r - 4) in
  let batchLen := int32 (outerLen - 8 - 4) in
  match keptCompression ve r c with
  | None =>
      batchLayout dst outerLen batchLen
        (batchTail r (attrs r) maxTimestamp (recordsBytes ve r))
  | Some (c', z) =>
      let savings :=
        int32 (Z.of_nat (length (recordsBytes ve r)) - Z.of_nat (length z)) in
      batchLayout dst (int32 (outerLen - savings)) (int32 (batchLen - savings))
        (batchTail r (Z.lor (attrs r) (int16 (cattrs c'))) maxTimestamp z)
  end.

(** ** Partitioners *)

(** Go's [int] is 32 or 64 bits wide, depending on the platform. *)
Definition int (intSize : Z) (x : Z) : Z := wrapS intSize x.

(** [lpInput]: [mapping] holds, for each partition, the value that the
    atomic load of its [records.buffered] counter returns. *)
Record lpInput := {
  lp_on : Z;
  lp_mapping : list Z
}.

(** [lpInput.next]; [None] is the index-out-of-range panic. *)
Definition lpInput_next (i : lpInput) : option (Z * Z * lpInput) :=
  let on := lp_on i in
  if on <? 0 then None
  else
    match lp_mapping i !! Z.to_nat on with
    | Some buffered => Some (on, buffered, {| lp_on := on + 1; lp_mapping := lp_mapping i |})
    | None => None
    end.

Record leastBackupTopicPartitioner := {
  onPart : Z
}.

Definition newLeastBackupTopicPartitioner : leastBackupTopicPartitioner :=
  {| onPart := -1 |}.

Definition OnNewBatch (p : leastBackupTopicPartitioner) : leastBackupTopicPartitioner :=
  {| onPart := -1 |}.

(** The loop [for ; n > 0; n--] of [PartitionByBackup], over a callback
    that threads its own state [S]. *)
Fixpoint scanBackups {S : Type} (backupFn : S -> option (Z * Z * S))
    (n : nat) (leastBackup onPart : Z) (s : S) : option (Z * S) :=
  match n with
  | O => Some (onPart, s)
  | Datatypes.S n' =>
      match backupFn s with
      | None => None
      | Some (pick, backup, s') =>
          if backup <? leastBackup
          then scanBackups backupFn n' backup pick s'
          else scanBackups backupFn n' leastBackup onPart s'
      end
  end.

(** [leastBackupTopicPartitioner.PartitionByBackup]: the chosen index, the
    partitioner afterwards and the callback's state afterwards. *)
Definition PartitionByBackup {S : Type} (backupFn : S -> option (Z * Z * S))
    (p : leastBackupTopicPartitioner) (n : Z) (s : S)
    : option (Z * leastBackupTopicPartitioner * S) :=
  if (onPart p =? -1) || (onPart p >=? n) then
    match scanBackups backupFn (Z.to_nat n) MaxInt64 (onPart p) s with
    | Some (onPart', s') => Some (onPart', {| onPart := onPart' |}, s')
    | None => None
    end
  else Some (onPart p, p, s).

(** What "the first minimum in scan order" means for the counts
    [mapping]: index [i] holds a least count and every earlier count is
    strictly larger. *)
Definition firstMinimum (mapping : list Z) (i : Z) : Prop :=
  exists m, 0 <= i /\ mapping !! Z.to_nat i = Some m /\
    (forall j b, mapping !! j = Some b -> m <= b) /\
    (forall j b, (j < Z.to_nat i)%nat -> mapping !! j = Some b -> m < b).

(** [KafkaHasher] and [SaramaHasher]; [hashFn] returns a [uint32], [None]
    is the division-by-zero panic of [% n]. *)
Definition KafkaHasher (intSize : Z) (hashFn : list Z -> Z) (key : list Z) (n : Z)
    : option Z :=
  if n =? 0 then None
  else Some (Z.rem (int intSize (Z.land (uint32 (hashFn key)) 0x7fffffff)) n).

Definition SaramaHasher (intSize : Z) (hashFn : list Z -> Z) (key : list Z) (n : Z)
    : option Z :=
  if n =? 0 then None
  else
    let p := Z.rem (int intSize (uint32 (hashFn key))) n in
    Some (if p <? 0 then int intSize (- p) else p).

(** [murmur2], on [uint32] values. *)
Definition murmur2_m : Z := 0x5bd1e995.
Definition murmur2_seed : Z := 0x9747b28c.

Fixpoint murmur2_body (b : list Z) (h : Z) : Z * list Z :=
  match b with
  | b0 :: b1 :: b2 :: b3 :: rest =>
      let k := uint32 (Z.shiftl b3 24 + Z.shiftl b2 16 + Z.shiftl b1 8 + b0) in
      let k := uint32 (k * murmur2_m) in
      let k := Z.lxor k (Z.shiftr k 24) in
      let k := uint32 (k * murmur2_m) in
      let h := uint32 (h * murmur2_m) in
      let h := Z.lxor h k in
      murmur2_body rest h
  | _ => (h, b)
  end.

Definition murmur2_tail (b : list Z) (h : Z) : Z :=
  match b with
  | [b0; b1; b2] =>
      let h := Z.lxor h (uint32 (Z.shiftl b2 16)) in
      let h := Z.lxor h (uint32 (Z.shiftl b1 8)) in
      let h := Z.lxor h b0 in
      uint32 (h * murmur2_m)
  | [b0; b1] =>
      let h := Z.lxor h (uint32 (Z.shiftl b1 8)) in
      let h := Z.lxor h b0 in
      uint32 (h * murmur2_m)
  | [b0] =>
      let h := Z.lxor h b0 in
      uint32 (h * murmur2_m)
  | _ => h
  end.

Definition murmur2 (b : list Z) : Z :=
  let h := Z.lxor murmur2_seed (uint32 (Z.of_nat (length b))) in
  let '(h, b) := murmur2_body b h in
  let h := murmur2_tail b h in
  let h := Z.lxor h (Z.shiftr h 13) in
  let h := uint32 (h * murmur2_m) in
  Z.lxor h (Z.shiftr h 15).

Definition bytesOf (s : string) : list Z :=
  (fun a => Z.of_nat (Ascii.nat_of_ascii a)) <$> String.list_ascii_of_string s.

Definition exampleCounts : list Z := [5; 2; 2; 9].

(** ** Direct consuming: the assignment engine *)

(** Go leaves the iteration order of [range] over a map unspecified. Every
    call of the engine receives the orders its loops will see:
    [rangeMap] for the loops whose bodies act on one key each,
    [rangePatterns topic] for the loop that tries the regular expressions
    against [topic] and stops at the first match. *)
Record RangeOrder := {
  rangeMap : forall {K : Type} `{Countable K} {V : Type}, gmap K V -> list (K * V);
  rangeMap_perm : forall (K : Type) `{Countable K} (V : Type) (m : gmap K V),
    rangeMap m ≡ₚ map_to_list m;
  rangePatterns : forall {V : Type}, string -> gmap string V -> list (string * V);
  rangePatterns_perm : forall (V : Type) (topic : string) (m : gmap string V),
    rangePatterns topic m ≡ₚ map_to_list m
}.

(** [Offset] is a parameter: its declaration is outside the files at hand
    and the engine only stores and returns offsets. The field [using] is
    [using_] here, [using] being a keyword. *)
Record directConsumer (Offset : Type) := mkDirectConsumer {
  topics : gmap string Offset;
  partitions : gmap string (gmap Z Offset);
  regexTopics : bool;
  reTopics : gmap string Offset;
  reIgnore : gmap string ();
  using_ : gmap string (gmap Z ())
}.
Arguments mkDirectConsumer {Offset}.
Arguments topics {Offset}.
Arguments partitions {Offset}.
Arguments regexTopics {Offset}.
Arguments reTopics {Offset}.
Arguments reIgnore {Offset}.
Arguments using_ {Offset}.

Inductive ConsumeOpt (Offset : Type) :=
| ConsumeTopics (offset : Offset) (topics : list string)
| ConsumePartitions (partitions : gmap string (gmap Z Offset))
| ConsumeTopicsRegex.
Arguments ConsumeTopics {Offset}.
Arguments ConsumePartitions {Offset}.
Arguments ConsumeTopicsRegex {Offset}.

Section engine.
Context {Offset : Type}.

Definition set_topics (v : gmap string Offset) (d : directConsumer Offset) :=
  mkDirectConsumer v (partitions d) (regexTopics d) (reTopics d) (reIgnore d) (using_ d).
Definition set_partitions (v : gmap string (gmap Z Offset)) (d : directConsumer Offset) :=
  mkDirectConsumer (topics d) v (regexTopics d) (reTopics d) (reIgnore d) (using_ d).
Definition set_regexTopics (v : bool) (d : directConsumer Offset) :=
  mkDirectConsumer (topics d) (partitions d) v (reTopics d) (reIgnore d) (using_ d).
Definition set_reTopics (v : gmap string Offset) (d : directConsumer Offset) :=
  mkDirectConsumer (topics d) (partitions d) (regexTopics d) v (reIgnore d) (using_ d).
Definition set_reIgnore (v : gmap string ()) (d : directConsumer Offset) :=
  mkDirectConsumer (topics d) (partitions d) (regexTopics d) (reTopics d) v (using_ d).
Definition set_using (v : gmap string (gmap Z ())) (d : directConsumer Offset) :=
  mkDirectConsumer (topics d) (partitions d) (regexTopics d) (reTopics d) (reIgnore d) v.

(** [opt.apply(d)] for the three options. *)
Definition ConsumeOpt_apply (opt : ConsumeOpt Offset) (cfg : directConsumer Offset)
    : directConsumer Offset :=
  match opt with
  | ConsumeTopics offset topics =>
      set_topics (foldl (fun m topic => <[topic := offset]> m) ∅ topics) cfg
  | ConsumePartitions partitions => set_partitions partitions cfg
  | ConsumeTopicsRegex => set_regexTopics true cfg
  end.

(** The [directConsumer] that [AssignPartitions] builds and installs;
    [None] when nothing is to be consumed (the consumer type is left
    unset). The client bookkeeping around it is not modelled. *)
Definition AssignPartitions (opts : list (ConsumeOpt Offset))
    : option (directConsumer Offset) :=
  let d := foldl (fun d opt => ConsumeOpt_apply opt d)
                 (mkDirectConsumer ∅ ∅ false ∅ ∅ ∅) opts in
  if (size (topics d) =? 0)%nat && (size (partitions d) =? 0)%nat then None
  else Some d.

(** [regexp.MatchString(pattern, s)], its error dropped as the caller does. *)
Variable MatchString : string -> string -> bool.
Variable ro : RangeOrder.

(** The loop over [d.topics] in regex mode: the offset of the first
    pattern that matches, and the (pattern, topic) tests that were run. *)
Fixpoint matchPatterns (pats : list (string * Offset)) (topic : string)
    : option Offset * list (string * string) :=
  match pats with
  | [] => (None, [])
  | (reTopic, offset) :: pats' =>
      if MatchString reTopic topic then (Some offset, [(reTopic, topic)])
      else
        let '(use, tested) := matchPatterns pats' topic in
        (use, (reTopic, topic) :: tested)
  end.

(** Lines 116-141: is the topic wanted, and at which offset. *)
Definition wantTopic (d : directConsumer Offset) (topic : string)
    : option Offset * directConsumer Offset * list (string * string) :=
  if regexTopics d then
    match reTopics d !! topic with
    | Some offset => (Some offset, d, [])
    | None =>
        match reIgnore d !! topic with
        | Some _ => (None, d, [])
        | None =>
            match matchPatterns (rangePatterns ro topic (topics d)) topic with
            | (Some offset, tested) =>
                (Some offset, set_reTopics (<[topic := offset]> (reTopics d)) d, tested)
            | (None, tested) =>
                (None, set_reIgnore (<[topic := ()]> (reIgnore d)) d, tested)
            end
        end
    end
  else (topics d !! topic, d, []).

(** Lines 145-152. *)
Definition stagePartitions (topicPartitions : list Z) (useOffset : Offset)
    : gmap Z Offset :=
  foldl (fun toUseTopic partition => <[partition := useOffset]> toUseTopic)
        ∅ topicPartitions.

(** Lines 156-163. *)
Definition overlayPins (topic : string) (pins : list (Z * Offset))
    (toUse : gmap string (gmap Z Offset)) : gmap string (gmap Z Offset) :=
  foldl (fun toUse '(partition, offset) =>
           let toUseTopic := default ∅ (toUse !! topic) in
           <[topic := <[partition := offset]> toUseTopic]> toUse)
        toUse pins.

(** One iteration of the loop over the topology (lines 110-164). *)
Definition stageTopic
    (st : directConsumer Offset * gmap string (gmap Z Offset) * list (string * string))
    (entry : string * list Z)
    : directConsumer Offset * gmap string (gmap Z Offset) * list (string * string) :=
  let '(d, toUse, trace) := st in
  let '(topic, topicPartitions) := entry in
  let '(use, d, tested) := wantTopic d topic in
  let toUse :=
    match use with
    | Some useOffset => <[topic := stagePartitions topicPartitions useOffset]> toUse
    | None => toUse
    end in
  let toUse :=
    overlayPins topic (rangeMap ro (default ∅ (partitions d !! topic))) toUse in
  (d, toUse, trace ++ tested).

(** One iteration of the loop over [d.using] (lines 167-179). *)
Definition subtractTopic (toUse : gmap string (gmap Z Offset))
    (entry : string * gmap Z ()) : gmap string (gmap Z Offset) :=
  let '(topic, partitions) := entry in
  match toUse !! topic with
  | None => toUse
  | Some toUseTopic =>
      if (size partitions =? size toUseTopic)%nat then delete topic toUse
      else
        <[topic := foldl (fun toUseTopic '(partition, _) => delete partition toUseTopic)
                         toUseTopic (rangeMap ro partitions)]> toUse
  end.

(** One iteration of the loop over [toUse] (lines 187-196). *)
Definition mergeTopic (using_ : gmap string (gmap Z ()))
    (entry : string * gmap Z Offset) : gmap string (gmap Z ()) :=
  let '(topic, partitions) := entry in
  let topicUsing := default ∅ (using_ !! topic) in
  <[topic := foldl (fun topicUsing '(partition, _) => <[partition := ()]> topicUsing)
                   topicUsing (rangeMap ro partitions)]> using_.

(** [directConsumer.findNewAssignments]: the returned delta ([None] is the
    nil map), the consumer afterwards, and the regex tests that were run. *)
Definition findNewAssignments (d : directConsumer Offset) (topics : gmap string (list Z))
    : option (gmap string (gmap Z Offset)) * directConsumer Offset *
      list (string * string) :=
  let '(d, toUse, trace) := foldl stageTopic (d, ∅, []) (rangeMap ro topics) in
  let toUse := foldl subtractTopic toUse (rangeMap ro (using_ d)) in
  if (size toUse =? 0)%nat then (None, d, trace)
  else
    (Some toUse, set_using (foldl mergeTopic (using_ d) (rangeMap ro toUse)) d, trace).

End engine.

(** Two iteration orders: the one [map_to_list] gives, and its reverse. *)
Definition canonicalOrder : RangeOrder :=
  {| rangeMap := fun K _ _ V m => map_to_list m;
     rangeMap_perm := fun K _ _ V m => Permutation_refl (map_to_list m);
     rangePatterns := fun V _ m => map_to_list m;
     rangePatterns_perm := fun V _ m => Permutation_refl (map_to_list m) |}.

Definition reverseOrder : RangeOrder :=
  {| rangeMap := fun K _ _ V m => reverse (map_to_list m);
     rangeMap_perm := fun K _ _ V m => reverse_Permutation (map_to_list m);
     rangePatterns := fun V _ m => reverse (map_to_list m);
     rangePatterns_perm := fun V _ m => reverse_Permutation (map_to_list m) |}.

(** A stand-in for [regexp.MatchString] on patterns without
    metacharacters: such a pattern matches wherever it occurs. *)
Definition literalMatch (pattern s : string) : bool :=
  match String.index 0 pattern s with Some _ => true | None => false end.


(** ** The loops seen from one topic

    Each iteration of the loops of [findNewAssignments] reads and writes
    the entries of one topic only; these definitions say what an iteration
    does to the entries of its topic. *)

(** The tests that were run on [topic]. *)
Definition testsOf (topic : string) (trace : list (string * string))
    : list (string * string) :=
  filter (fun x => x.2 = topic) trace.

Section per_topic.
Context {Offset : Type}.
Variable MatchString : string -> string -> bool.
Variable ro : RangeOrder.

(** [wantTopic] on the cache entries of the topic: the lookup result, the
    two cache entries afterwards and the tests run. *)
Definition wantAt (tp : gmap string Offset) (rx : bool)
    (rt : option Offset) (ri : option ()) (topic : string)
    : option Offset * option Offset * option () * list (string * string) :=
  if rx then
    match rt with
    | Some offset => (Some offset, rt, ri, [])
    | None =>
        match ri with
        | Some _ => (None, rt, ri, [])
        | None =>
            match matchPatterns MatchString (rangePatterns ro topic tp) topic with
            | (Some offset, tested) => (Some offset, Some offset, None, tested)
            | (None, tested) => (None, None, Some (), tested)
            end
        end
    end
  else (tp !! topic, rt, ri, []).

(** [overlayPins] on the staged entry of the topic. *)
Definition overlayAt (pins : list (Z * Offset)) (tu : option (gmap Z Offset))
    : option (gmap Z Offset) :=
  foldl (fun tu '(partition, offset) => Some (<[partition := offset]> (default ∅ tu)))
        tu pins.

(** What the staging loop can see of its state from [topic]. *)
Definition projAt (topic : string)
    (st : directConsumer Offset * gmap string (gmap Z Offset) * list (string * string)) :=
  let '(d, toUse, trace) := st in
  (topics d, partitions d, regexTopics d, using_ d,
   reTopics d !! topic, reIgnore d !! topic, toUse !! topic, testsOf topic trace).

Definition stageAt (topic : string) (topicPartitions : list Z)
    (v : gmap string Offset * gmap string (gmap Z Offset) * bool * gmap string (gmap Z ()) *
         option Offset * option () * option (gmap Z Offset) * list (string * string)) :=
  let '(tp, ps, rx, us, rt, ri, tu, tr) := v in
  let '(use, rt', ri', tested) := wantAt tp rx rt ri topic in
  let tu :=
    match use with
    | Some useOffset => Some (stagePartitions topicPartitions useOffset)
    | None => tu
    end in
  let tu := overlayAt (rangeMap ro (default ∅ (ps !! topic))) tu in
  (tp, ps, rx, us, rt', ri', tu, tr ++ tested).

(** The offset at which the topic/regex lookup wants [topic], if it does. *)
Definition wanted (d : directConsumer Offset) (topic : string) : option Offset :=
  (wantTopic MatchString ro d topic).1.1.

End per_topic.

(** ** Statements about the engine *)

Section engine_statements.
Context {Offset : Type}.

(** The state after the first loop of [findNewAssignments]. *)
Definition staged (MatchString : string -> string -> bool) (ro : RangeOrder)
    (d : directConsumer Offset) (topo : gmap string (list Z)) :=
  foldl (stageTopic MatchString ro) (d, ∅, []) (rangeMap ro topo).

(** (topic, partition) is in the Using Set / is offered by a delta. *)
Definition inUsing (us : gmap string (gmap Z ())) (topic : string) (partition : Z) : Prop :=
  exists s, us !! topic = Some s /\ is_Some (s !! partition).

Definition inDelta (delta : option (gmap string (gmap Z Offset)))
    (topic : string) (partition : Z) : Prop :=
  exists m tm, delta = Some m /\ m !! topic = Some tm /\ is_Some (tm !! partition).

(** The using map only gains: every topic stays, with at least the
    partitions it had. *)
Definition usingGrows (us us' : gmap string (gmap Z ())) : Prop :=
  forall topic s, us !! topic = Some s -> exists s', us' !! topic = Some s' /\ s ⊆ s'.

(** A sequence of reconciliations, each with its own iteration orders and
    its own topology. *)
Definition reconcileAll (MatchString : string -> string -> bool)
    (d : directConsumer Offset) (calls : list (RangeOrder * gmap string (list Z)))
    : directConsumer Offset :=
  foldl (fun d call => (findNewAssignments MatchString call.1 d call.2).1.2) d calls.

(** The consumers that can arise: one freshly built by [AssignPartitions]
    (empty caches, nothing in use), then any number of reconciliations. *)
Inductive reachable (MatchString : string -> string -> bool)
    : directConsumer Offset -> Prop :=
| reachable_fresh tp ps rx :
    reachable MatchString (mkDirectConsumer tp ps rx ∅ ∅ ∅)
| reachable_call ro d topo :
    reachable MatchString d ->
    reachable MatchString (findNewAssignments MatchString ro d topo).1.2.

(** [tested] is what testing [topic] against [pats] in that order, up to
    and including the first match, runs, and [use] is the first match's
    offset. *)
Definition testedInOrder (MatchString : string -> string -> bool)
    (pats : list (string * Offset)) (topic : string)
    (tested : list (string * string)) (use : option Offset) : Prop :=
  (exists i reTopic offset,
     pats !! i = Some (reTopic, offset) /\ MatchString reTopic topic = true /\
     (forall j reTopic' offset', (j < i)%nat -> pats !! j = Some (reTopic', offset') ->
        MatchString reTopic' topic = false) /\
     tested = (fun x => (x.1, topic)) <$> take (S i) pats /\
     use = Some offset) \/
  ((forall j reTopic' offset', pats !! j = Some (reTopic', offset') ->
      MatchString reTopic' topic = false) /\
   tested = (fun x => (x.1, topic)) <$> pats /\
   use = None).

(** Every pin of a topic that has an entry in the using map is in use. *)
Definition pinsInUse (d : directConsumer Offset) : Prop :=
  forall topic s pins, using_ d !! topic = Some s -> partitions d !! topic = Some pins ->
    forall p, is_Some (pins !! p) -> is_Some (s !! p).

(** The two orders try the patterns in the same order (this matters in
    regex mode only). *)
Definition samePatternOrder (ro ro' : RangeOrder) (d : directConsumer Offset) : Prop :=
  regexTopics d = true ->
  forall topic, rangePatterns ro topic (topics d) = rangePatterns ro' topic (topics d).

(** The topic has an entry in one of the two memo caches. *)
Definition memoized (d : directConsumer Offset) (topic : string) : Prop :=
  is_Some (reTopics d !! topic) \/ is_Some (reIgnore d !! topic).

End engine_statements.

(** ** Example consumers and topologies *)

(** Offsets are plain numbers in the examples. *)
Definition earliest : Z := -2.
Definition latest : Z := -1.

(** No pattern ever matches. *)
Definition matchNothing (pattern s : string) : bool := false.

(** [AssignPartitions(ConsumeTopics(earliest, "T"))]. *)
Definition consumerT : directConsumer Z :=
  mkDirectConsumer {[ "T" := earliest ]} ∅ false ∅ ∅ ∅.

(** [AssignPartitions(ConsumeTopics(earliest, "T"),
    ConsumePartitions({"T": {1: latest}}))]. *)
Definition consumerPinned : directConsumer Z :=
  mkDirectConsumer {[ "T" := earliest ]} {[ "T" := {[ 1 := latest ]} ]} false ∅ ∅ ∅.

(** [AssignPartitions(ConsumeTopics(earliest, "a", "b"), ConsumeTopicsRegex())]. *)
Definition consumerRegex : directConsumer Z :=
  mkDirectConsumer {[ "a" := earliest; "b" := earliest ]} ∅ true ∅ ∅ ∅.

Definition topologyT (topicPartitions : list Z) : gmap string (list Z) :=
  {[ "T" := topicPartitions ]}.

Definition topologyAB : gmap string (list Z) := {[ "ab" := [0; 1] ]}.

(** [consumerT] after a reconciliation that saw partition 0 of "T", and
    then after one that saw partitions 1 and 2 instead. *)
Definition consumerT_seen0 : directConsumer Z :=
  (findNewAssignments matchNothing canonicalOrder consumerT (topologyT [0])).1.2.

Definition consumerT_seen12 : directConsumer Z :=
  (findNewAssignments matchNothing canonicalOrder consumerT_seen0 (topologyT [1; 2])).1.2.

(** ** The encoder's output, field by field *)

(** A signed big-endian field of [k] bytes at position [at_]. *)
Definition readSigned (k : nat) (buf : list Z) (at_ : nat) : Z :=
  wrapS (8 * Z.of_nat k) (kbin.beValue (take k (drop at_ buf))).

(** The record region of an entry that starts at the end of [dst]. *)
Definition recordRegion (dst out : list Z) : list Z := drop (length dst + 65) out.

(** What [promisedNumberedRecord.appendTo] writes for one header and for
    one record. *)
Definition headerLayout (ve : kbin.VarEncoding) (h : RecordHeader) : list Z :=
  kbin.varintString ve (hdrKey h) ++ kbin.varintBytes ve (hdrValue h).

Definition recordLayout (ve : kbin.VarEncoding) (pnr : promisedNumberedRecord) : list Z :=
  kbin.varint ve (lengthField (pnr_n pnr)) ++ [0] ++
  kbin.varint ve (timestampDelta (pnr_n pnr)) ++
  kbin.varint ve (offsetDelta (pnr_n pnr)) ++
  kbin.varintBytes ve (Key (pnr_r pnr)) ++
  kbin.varintBytes ve (Value (pnr_r pnr)) ++
  kbin.varint ve (int32 (Z.of_nat (length (Headers (pnr_r pnr))))) ++
  mjoin (headerLayout ve <$> Headers (pnr_r pnr)).

(** ** The buffered produce request *)

(** What the request encoder takes from outside the files at hand: the
    bytes that [kbin.AppendNullableString] appends for nil and those that
    [kbin.AppendString] appends for a string (both append to the slice
    they are given), and the choice of the compressor from the codec
    preferences and the version. *)
Record ProduceDeps (Codec : Type) := {
  nullableStringNil : list Z;
  stringBytes : string -> list Z;
  loadProduceCompressor : list Codec -> Z -> option compressor
}.
Arguments nullableStringNil {Codec}.
Arguments stringBytes {Codec}.
Arguments loadProduceCompressor {Codec}.

Record messageBufferedProduceRequest (Codec : Type) := {
  version : Z;
  acks : Z;
  timeout : Z;
  data : gmap string (gmap Z recordBatch);
  compression : list Codec
}.
Arguments version {Codec}.
Arguments acks {Codec}.
Arguments timeout {Codec}.
Arguments data {Codec}.
Arguments compression {Codec}.

(** The concatenation of the entries [f] gives for the elements of a list;
    [None] once [f] gives none. *)
Fixpoint joinEntries {A : Type} (f : A -> option (list Z)) (l : list A) : option (list Z) :=
  match l with
  | [] => Some []
  | x :: l' =>
      match f x, joinEntries f l' with
      | Some y, Some k => Some (y ++ k)
      | _, _ => None
      end
  end.

Section produce_request.
Context {Codec : Type}.
Variable deps : ProduceDeps Codec.
Variable ve : kbin.VarEncoding.
Variable ro : RangeOrder.

(** The loop over the partitions of one topic; [None] once a batch has
    made [appendTo] panic. *)
Definition appendPartitions (compressor : option compressor) (dst : list Z)
    (partitions : list (Z * recordBatch)) : option (list Z) :=
  foldl (fun acc '(partition, batch) =>
           match acc with
           | Some dst => appendTo ve (kbin.AppendInt32 dst partition) batch compressor
           | None => None
           end)
        (Some dst) partitions.

(** The loop over the topics. *)
Definition appendTopics (compressor : option compressor) (dst : list Z)
    (topics : list (string * gmap Z recordBatch)) : option (list Z) :=
  foldl (fun acc '(topic, partitions) =>
           match acc with
           | Some dst =>
               let dst := dst ++ stringBytes deps topic in
               let dst := kbin.AppendArrayLen dst (Z.of_nat (size partitions)) in
               appendPartitions compressor dst (rangeMap ro partitions)
           | None => None
           end)
        (Some dst) topics.

(** [messageBufferedProduceRequest.AppendTo] *)
Definition AppendTo (m : messageBufferedProduceRequest Codec) (dst : list Z)
    : option (list Z) :=
  let dst := if 3 <=? version m then dst ++ nullableStringNil deps else dst in
  let compressor := loadProduceCompressor deps (compression m) (version m) in
  let dst := kbin.AppendInt16 dst (acks m) in
  let dst := kbin.AppendInt32 dst (timeout m) in
  let dst := kbin.AppendArrayLen dst (Z.of_nat (size (data m))) in
  appendTopics compressor dst (rangeMap ro (data m)).

(** What one partition and one topic add to the request. *)
Definition partitionEntry (compressor : option compressor) (x : Z * recordBatch)
    : option (list Z) :=
  (fun e => kbin.beBytes 4 x.1 ++ e) <$> appendTo ve [] x.2 compressor.

Definition topicEntry (compressor : option compressor)
    (x : string * gmap Z recordBatch) : option (list Z) :=
  (fun e => stringBytes deps x.1 ++
            kbin.beBytes 4 (int32 (Z.of_nat (size x.2))) ++ e)
    <$> joinEntries (partitionEntry compressor) (rangeMap ro x.2).

(** The bytes before the topics. *)
Definition requestHeader (m : messageBufferedProduceRequest Codec) : list Z :=
  (if 3 <=? version m then nullableStringNil deps else []) ++
  kbin.beBytes 2 (acks m) ++ kbin.beBytes 4 (timeout m) ++
  kbin.beBytes 4 (int32 (Z.of_nat (size (data m)))).

(** The request holds a batch without records. *)
Definition hasEmptyBatch (m : messageBufferedProduceRequest Codec) : Prop :=
  exists topic partitions partition batch,
    data m !! topic = Some partitions /\ partitions !! partition = Some batch /\
    records batch = [].

End produce_request.

Definition exampleDeps : ProduceDeps unit :=
  {| nullableStringNil := [255; 255];
     stringBytes := fun s => kbin.beBytes 2 (Z.of_nat (String.length s)) ++ bytesOf s;
     loadProduceCompressor := fun _ _ => None |}.

Definition exampleRequest : messageBufferedProduceRequest unit :=
  {| version := 7; acks := -1; timeout := 1000;
     data := {[ "t"%string := {[ 0 := exampleBatch ]} ]};
     compression := [] |}.

(** ** The sticky partitioners *)

(** [math/rand]'s generator is a state [R] with its [Intn]; [None] is the
    panic of [Intn] on an argument that is not positive. *)
Module sticky.
Section sticky.
Context {R : Type}.
Variable Intn : R -> Z -> option (Z * R).
Variable intSize : Z.

Record stickyTopicPartitioner := {
  lastPart : Z;
  onPart : Z;
  rng : R
}.

(** [newStickyTopicPartitioner], from the generator that the clock seeds. *)
Definition newStickyTopicPartitioner (seeded : R) : stickyTopicPartitioner :=
  {| lastPart := -1; onPart := -1; rng := seeded |}.

Definition OnNewBatch (p : stickyTopicPartitioner) : stickyTopicPartitioner :=
  {| lastPart := onPart p; onPart := -1; rng := rng p |}.

Definition RequiresConsistency (r : Record_) : bool := false.

(** [stickyTopicPartitioner.Partition]; [None] is a panic, of [Intn] or of
    [% n]. *)
Definition Partition (p : stickyTopicPartitioner) (n : Z)
    : option (Z * stickyTopicPartitioner) :=
  if (onPart p =? -1) || (onPart p >=? n) then
    match Intn (rng p) n with
    | None => None
    | Some (v, rng') =>
        if v =? lastPart p then
          if n =? 0 then None
          else
            let v' := Z.rem (int intSize (v + 1)) n in
            Some (v', {| lastPart := lastPart p; onPart := v'; rng := rng' |})
        else Some (v, {| lastPart := lastPart p; onPart := v; rng := rng' |})
    end
  else Some (onPart p, p).
End sticky.
Arguments stickyTopicPartitioner : clear implicits.
End sticky.

Module stickyKey.
Section stickyKey.
Context {R : Type}.
Variable Intn : R -> Z -> option (Z * R).
Variable intSize : Z.

(** A [PartitionerHasher]. *)
Definition PartitionerHasher : Type := list Z -> Z -> option Z.

Record keyPartitioner := {
  kp_hasher : PartitionerHasher
}.

(** [StickyKeyPartitioner]: without a hasher of the caller's it is Kafka's
    over [murmur2]. *)
Definition StickyKeyPartitioner (overrideHasher : option PartitionerHasher)
    : keyPartitioner :=
  match overrideHasher with
  | None => {| kp_hasher := KafkaHasher intSize murmur2 |}
  | Some h => {| kp_hasher := h |}
  end.

Record stickyKeyTopicPartitioner := {
  hasher : PartitionerHasher;
  embedded : sticky.stickyTopicPartitioner R
}.

Definition ForTopic (k : keyPartitioner) (seeded : R) : stickyKeyTopicPartitioner :=
  {| hasher := kp_hasher k; embedded := sticky.newStickyTopicPartitioner seeded |}.

(** The promoted [OnNewBatch] of the embedded sticky partitioner. *)
Definition OnNewBatch (p : stickyKeyTopicPartitioner) : stickyKeyTopicPartitioner :=
  {| hasher := hasher p; embedded := sticky.OnNewBatch (embedded p) |}.

Definition RequiresConsistency (r : Record_) : bool :=
  match Key r with Some _ => true | None => false end.

Definition Partition (p : stickyKeyTopicPartitioner) (r : Record_) (n : Z)
    : option (Z * stickyKeyTopicPartitioner) :=
  match Key r with
  | Some key => (fun i => (i, p)) <$> hasher p key n
  | None =>
      (fun '(i, s) => (i, {| hasher := hasher p; embedded := s |}))
        <$> sticky.Partition Intn intSize (embedded p) n
  end.
End stickyKey.
Arguments stickyKeyTopicPartitioner : clear implicits.
End stickyKey.

(** A stand-in generator: a counter, reduced into the range asked for. *)
Definition exampleIntn (r : Z) (n : Z) : option (Z * Z) :=
  if n <=? 0 then None else Some (r mod n, r + 1).

(** ** What a reconciliation offers *)

(** The offset that [delta] offers for a partition, if any. *)
Definition deltaAt {Offset : Type} (delta : option (gmap string (gmap Z Offset)))
    (topic : string) (partition : Z) : option Offset :=
  match delta with
  | Some m => match m !! topic with Some tm => tm !! partition | None => None end
  | None => None
  end.

Definition stagedOffset {Offset : Type} (pins : gmap Z Offset) (parts : list Z)
    (use : option Offset) (partition : Z) : option Offset :=
  match pins !! partition with
  | Some offset => Some offset
  | None => if decide (partition ∈ parts) then use else None
  end.

Section memo_statements.
Context {Offset : Type}.
Variable MatchString : string -> string -> bool.

(** The memo caches hold only what the patterns say. *)
Definition memoSound (d : directConsumer Offset) : Prop :=
  forall T,
    (forall o, reTopics d !! T = Some o ->
       exists pat, topics d !! pat = Some o /\ MatchString pat T = true) /\
    (is_Some (reIgnore d !! T) ->
       forall pat o, topics d !! pat = Some o -> MatchString pat T = false) /\
    ~ (is_Some (reTopics d !! T) /\ is_Some (reIgnore d !! T)).
End memo_statements.

(** ** Client configuration *)

Module config.

(** The bytes [':'] and ['.']. *)
Section bytes.
Import Stdlib.Strings.Ascii.
Definition colonByte : Ascii.ascii := ":"%char.
Definition dotByte : Ascii.ascii := "."%char.
End bytes.

(** Go strings are byte strings; a slice expression out of range panics
    ([None]). *)
Fixpoint IndexByte (s : string) (c : Ascii.ascii) : Z :=
  match s with
  | EmptyString => -1
  | String a s' =>
      if Ascii.eqb a c then 0
      else let i := IndexByte s' c in if i <? 0 then -1 else i + 1
  end.

Definition len (s : string) : Z := Z.of_nat (String.length s).

Definition sliceTo (s : string) (hi : Z) : option string :=
  if (0 <=? hi) && (hi <=? len s) then Some (String.substring 0 (Z.to_nat hi) s) else None.

Definition sliceFrom (s : string) (lo : Z) : option string :=
  if (0 <=? lo) && (lo <=? len s)
  then Some (String.substring (Z.to_nat lo) (String.length s - Z.to_nat lo) s)
  else None.

(** [strings.Split] on a one-byte separator. *)
Fixpoint Split (s : string) (sep : Ascii.ascii) : list string :=
  match s with
  | EmptyString => [EmptyString]
  | String a s' =>
      if Ascii.eqb a sep then EmptyString :: Split s' sep
      else
        match Split s' sep with
        | label :: labels => String a label :: labels
        | [] => [String a EmptyString]
        end
  end.

(** What a validation reports; the messages of the source carry the same
    numbers. *)
Inductive validateErr (CodecErr : Type) :=
  | codecInvalid (e : CodecErr)
  | batchBytesBelowMin (got min : Z)
  | writeBytesBelowMin (got min : Z)
  | writeBytesBelowBatchBytes (write batch : Z)
  | writeBytesAboveMax (got max : Z).
Arguments codecInvalid {CodecErr}.
Arguments batchBytesBelowMin {CodecErr}.
Arguments writeBytesBelowMin {CodecErr}.
Arguments writeBytesBelowBatchBytes {CodecErr}.
Arguments writeBytesAboveMax {CodecErr}.

Inductive newClientErr (CodecErr : Type) :=
  | invalidCfg (e : validateErr CodecErr)
  | unableToParse (seedBroker : string)
  | neitherIPNorDomain (addr : string).
Arguments invalidCfg {CodecErr}.
Arguments unableToParse {CodecErr}.
Arguments neitherIPNorDomain {CodecErr}.

(** A return value, an error, or a panic. *)
Inductive outcome (E A : Type) :=
  | returned (a : A)
  | failed (e : E)
  | panicked.
Arguments returned {E A}.
Arguments failed {E A}.
Arguments panicked {E A}.

Record RequiredAcks := { val : Z }.
Definition RequireNoAck : RequiredAcks := {| val := 0 |}.
Definition RequireLeaderAck : RequiredAcks := {| val := 1 |}.
Definition RequireAllISRAcks : RequiredAcks := {| val := -1 |}.

Record clientCfg (Dial Tls : Type) := {
  id : option string;
  dialFn : Dial;
  tlsCfg : option Tls
}.
Arguments id {Dial Tls}.
Arguments dialFn {Dial Tls}.
Arguments tlsCfg {Dial Tls}.

Record producerCfg (Codec Part : Type) := {
  pc_acks : RequiredAcks;
  pc_compression : list Codec;
  allowAutoTopicCreation : bool;
  maxRecordBatchBytes : Z;
  maxBrokerWriteBytes : Z;
  maxBrokerBufdRecs : Z;
  brokerBufBytes : Z;
  brokerBufDur : Z;
  partitioner : Part
}.
Arguments pc_acks {Codec Part}.
Arguments pc_compression {Codec Part}.
Arguments allowAutoTopicCreation {Codec Part}.
Arguments maxRecordBatchBytes {Codec Part}.
Arguments maxBrokerWriteBytes {Codec Part}.
Arguments maxBrokerBufdRecs {Codec Part}.
Arguments brokerBufBytes {Codec Part}.
Arguments brokerBufDur {Codec Part}.
Arguments partitioner {Codec Part}.

Record cfg (Codec Part Dial Tls : Type) := {
  client : clientCfg Dial Tls;
  producer : producerCfg Codec Part
}.
Arguments client {Codec Part Dial Tls}.
Arguments producer {Codec Part Dial Tls}.

(** An option is a function on one of the two halves; any other dynamic
    type makes [NewClient] panic. *)
Inductive Opt (Codec Part Dial Tls : Type) :=
  | OptClient (fn : clientCfg Dial Tls -> clientCfg Dial Tls)
  | OptProducer (fn : producerCfg Codec Part -> producerCfg Codec Part)
  | OptOther.
Arguments OptClient {Codec Part Dial Tls}.
Arguments OptProducer {Codec Part Dial Tls}.
Arguments OptOther {Codec Part Dial Tls}.

(** What [NewClient] takes from outside the file: the codec validation,
    the defaults defined elsewhere, and the library functions on
    strings. *)
Record ClientDeps (Codec CodecErr Part Dial : Type) := {
  codec_validate : Codec -> option CodecErr;
  NoCompression : Codec;
  RandomPartitioner : Part;
  stddial : Dial;
  ParseIP : string -> bool;
  domainRe_MatchString : string -> bool;
  ToLower : string -> string;
  Atoi : string -> option Z;
  Itoa : Z -> string;
  JoinHostPort : string -> string -> string
}.
Arguments codec_validate {Codec CodecErr Part Dial}.
Arguments NoCompression {Codec CodecErr Part Dial}.
Arguments RandomPartitioner {Codec CodecErr Part Dial}.
Arguments stddial {Codec CodecErr Part Dial}.
Arguments ParseIP {Codec CodecErr Part Dial}.
Arguments domainRe_MatchString {Codec CodecErr Part Dial}.
Arguments ToLower {Codec CodecErr Part Dial}.
Arguments Atoi {Codec CodecErr Part Dial}.
Arguments Itoa {Codec CodecErr Part Dial}.
Arguments JoinHostPort {Codec CodecErr Part Dial}.

Section config.
Context {Codec CodecErr Part Dial Tls : Type}.
Variable deps : ClientDeps Codec CodecErr Part Dial.

(** The options of the file. *)
Definition WithClientID (id : option string) : Opt Codec Part Dial Tls :=
  OptClient (fun cfg => {| id := id; dialFn := dialFn cfg; tlsCfg := tlsCfg cfg |}).
Definition WithDialFn (fn : Dial) : Opt Codec Part Dial Tls :=
  OptClient (fun cfg => {| id := id cfg; dialFn := fn; tlsCfg := tlsCfg cfg |}).
Definition WithTLSCfg (tlsCfg : option Tls) : Opt Codec Part Dial Tls :=
  OptClient (fun cfg => {| id := id cfg; dialFn := dialFn cfg; tlsCfg := tlsCfg |}).

Definition WithRequiredAcks (acks : RequiredAcks) : Opt Codec Part Dial Tls :=
  OptProducer (fun cfg =>
    {| pc_acks := acks; pc_compression := pc_compression cfg;
       allowAutoTopicCreation := allowAutoTopicCreation cfg;
       maxRecordBatchBytes := maxRecordBatchBytes cfg;
       maxBrokerWriteBytes := maxBrokerWriteBytes cfg;
       maxBrokerBufdRecs := maxBrokerBufdRecs cfg;
       brokerBufBytes := brokerBufBytes cfg; brokerBufDur := brokerBufDur cfg;
       partitioner := partitioner cfg |}).
Definition WithAllowAutoTopicCreation : Opt Codec Part Dial Tls :=
  OptProducer (fun cfg =>
    {| pc_acks := pc_acks cfg; pc_compression := pc_compression cfg;
       allowAutoTopicCreation := true;
       maxRecordBatchBytes := maxRecordBatchBytes cfg;
       maxBrokerWriteBytes := maxBrokerWriteBytes cfg;
       maxBrokerBufdRecs := maxBrokerBufdRecs cfg;
       brokerBufBytes := brokerBufBytes cfg; brokerBufDur := brokerBufDur cfg;
       partitioner := partitioner cfg |}).
Definition WithCompressionPreference (preference : list Codec) : Opt Codec Part Dial Tls :=
  OptProducer (fun cfg =>
    {| pc_acks := pc_acks cfg; pc_compression := preference;
       allowAutoTopicCreation := allowAutoTopicCreation cfg;
       maxRecordBatchBytes := maxRecordBatchBytes cfg;
       maxBrokerWriteBytes := maxBrokerWriteBytes cfg;
       maxBrokerBufdRecs := maxBrokerBufdRecs cfg;
       brokerBufBytes := brokerBufBytes cfg; brokerBufDur := brokerBufDur cfg;
       partitioner := partitioner cfg |}).
Definition WithMaxRecordBatchBytes (v : Z) : Opt Codec Part Dial Tls :=
  OptProducer (fun cfg =>
    {| pc_acks := pc_acks cfg; pc_compression := pc_compression cfg;
       allowAutoTopicCreation := allowAutoTopicCreation cfg;
       maxRecordBatchBytes := v;
       maxBrokerWriteBytes := maxBrokerWriteBytes cfg;
       maxBrokerBufdRecs := maxBrokerBufdRecs cfg;
       brokerBufBytes := brokerBufBytes cfg; brokerBufDur := brokerBufDur cfg;
       partitioner := partitioner cfg |}).
Definition WithBrokerMaxWriteBytes (v : Z) : Opt Codec Part Dial Tls :=
  OptProducer (fun cfg =>
    {| pc_acks := pc_acks cfg; pc_compression := pc_compression cfg;
       allowAutoTopicCreation := allowAutoTopicCreation cfg;
       maxRecordBatchBytes := maxRecordBatchBytes cfg;
       maxBrokerWriteBytes := v;
       maxBrokerBufdRecs := maxBrokerBufdRecs cfg;
       brokerBufBytes := brokerBufBytes cfg; brokerBufDur := brokerBufDur cfg;
       partitioner := partitioner cfg |}).
Definition WithBrokerBufferBytes (v : Z) : Opt Codec Part Dial Tls :=
  OptProducer (fun cfg =>
    {| pc_acks := pc_acks cfg; pc_compression := pc_compression cfg;
       allowAutoTopicCreation := allowAutoTopicCreation cfg;
       maxRecordBatchBytes := maxRecordBatchBytes cfg;
       maxBrokerWriteBytes := maxBrokerWriteBytes cfg;
       maxBrokerBufdRecs := maxBrokerBufdRecs cfg;
       brokerBufBytes := v; brokerBufDur := brokerBufDur cfg;
       partitioner := partitioner cfg |}).
Definition WithBrokerMaxBufferDuration (d : Z) : Opt Codec Part Dial Tls :=
  OptProducer (fun cfg =>
    {| pc_acks := pc_acks cfg; pc_compression := pc_compression cfg;
       allowAutoTopicCreation := allowAutoTopicCreation cfg;
       maxRecordBatchBytes := maxRecordBatchBytes cfg;
       maxBrokerWriteBytes := maxBrokerWriteBytes cfg;
       maxBrokerBufdRecs := maxBrokerBufdRecs cfg;
       brokerBufBytes := brokerBufBytes cfg; brokerBufDur := d;
       partitioner := partitioner cfg |}).
Definition WithPartitioner (partitioner : Part) : Opt Codec Part Dial Tls :=
  OptProducer (fun cfg =>
    {| pc_acks := pc_acks cfg; pc_compression := pc_compression cfg;
       allowAutoTopicCreation := allowAutoTopicCreation cfg;
       maxRecordBatchBytes := maxRecordBatchBytes cfg;
       maxBrokerWriteBytes := maxBrokerWriteBytes cfg;
       maxBrokerBufdRecs := maxBrokerBufdRecs cfg;
       brokerBufBytes := brokerBufBytes cfg; brokerBufDur := brokerBufDur cfg;
       partitioner := partitioner |}).

(** [clientCfg.validate] *)
Definition clientCfg_validate (cfg : clientCfg Dial Tls) : option (validateErr CodecErr) :=
  None.

(** The loop of [producerCfg.validate] over the codecs. *)
Fixpoint validateCodecs (codecs : list Codec) : option CodecErr :=
  match codecs with
  | [] => None
  | codec :: rest =>
      match codec_validate deps codec with
      | Some err => Some err
      | None => validateCodecs rest
      end
  end.

(** [producerCfg.validate]; [None] is the nil error. *)
Definition producerCfg_validate (cfg : producerCfg Codec Part)
    : option (validateErr CodecErr) :=
  match validateCodecs (pc_compression cfg) with
  | Some err => Some (codecInvalid err)
  | None =>
      if maxRecordBatchBytes cfg <? Z.shiftl 1 10 then
        Some (batchBytesBelowMin (maxRecordBatchBytes cfg) (Z.shiftl 1 10))
      else if maxBrokerWriteBytes cfg <? Z.shiftl 1 10 then
        Some (writeBytesBelowMin (maxBrokerWriteBytes cfg) (Z.shiftl 1 10))
      else if maxBrokerWriteBytes cfg <? maxRecordBatchBytes cfg then
        Some (writeBytesBelowBatchBytes (maxBrokerWriteBytes cfg) (maxRecordBatchBytes cfg))
      else if maxBrokerWriteBytes cfg >? Z.shiftl 1 30 then
        Some (writeBytesAboveMax (maxBrokerWriteBytes cfg) (Z.shiftl 1 30))
      else None
  end.

(** [cfg.validate] *)
Definition validate (c : cfg Codec Part Dial Tls) : option (validateErr CodecErr) :=
  match clientCfg_validate (client c) with
  | Some err => Some err
  | None => producerCfg_validate (producer c)
  end.

(** The configuration [NewClient] starts from. *)
Definition defaultCfg : cfg Codec Part Dial Tls :=
  {| client := {| id := Some "kgo"%string; dialFn := stddial deps; tlsCfg := None |};
     producer :=
       {| pc_acks := RequireLeaderAck;
          pc_compression := [NoCompression deps];
          allowAutoTopicCreation := false;
          maxRecordBatchBytes := 1000000;
          maxBrokerWriteBytes := Z.shiftl 100 20;
          maxBrokerBufdRecs := MaxInt32;
          brokerBufBytes := Z.shiftl 1 30;
          brokerBufDur := 250 * 1000000;
          partitioner := RandomPartitioner deps |} |}.

(** The loop over the options; [None] is the panic on an option of
    another type. *)
Fixpoint applyOpts (c : cfg Codec Part Dial Tls) (opts : list (Opt Codec Part Dial Tls))
    : option (cfg Codec Part Dial Tls) :=
  match opts with
  | [] => Some c
  | OptClient fn :: rest =>
      applyOpts {| client := fn (client c); producer := producer c |} rest
  | OptProducer fn :: rest =>
      applyOpts {| client := client c; producer := fn (producer c) |} rest
  | OptOther :: rest => None
  end.

Definition isAddr (addr : string) : bool := ParseIP deps addr.

Definition isDomain (domain : string) : bool :=
  if (len domain <? 3) || (len domain >? 255) then false
  else if existsb (fun label => len label >? 63) (Split domain dotByte) then false
  else domainRe_MatchString deps (ToLower deps domain).

(** One turn of the loop over the seed brokers: the address added to
    [seedAddrs], the error returned, or a panic. *)
Definition seedAddr (seedBroker : string) : outcome (newClientErr CodecErr) string :=
  let addr := seedBroker in
  let port := 9092 in
  let colon := IndexByte addr colonByte in
  let parsed : outcome (newClientErr CodecErr) (string * Z) :=
    if colon >? 0 then
      match sliceTo addr colon with
      | None => panicked
      | Some addr =>
          match sliceFrom addr (colon + 1) with
          | None => panicked
          | Some digits =>
              match Atoi deps digits with
              | None => failed (unableToParse seedBroker)
              | Some port => returned (addr, port)
              end
          end
      end
    else returned (addr, port) in
  match parsed with
  | returned (addr, port) =>
      if negb (isAddr addr) && negb (isDomain addr) then failed (neitherIPNorDomain addr)
      else returned (JoinHostPort deps addr (Itoa deps port))
  | failed e => failed e
  | panicked => panicked
  end.

Fixpoint seedAddrs (seedBrokers : list string)
    : outcome (newClientErr CodecErr) (list string) :=
  match seedBrokers with
  | [] => returned []
  | seedBroker :: rest =>
      match seedAddr seedBroker with
      | returned a =>
          match seedAddrs rest with
          | returned l => returned (a :: l)
          | failed e => failed e
          | panicked => panicked
          end
      | failed e => failed e
      | panicked => panicked
      end
  end.

(** [NewClient], up to the configuration and the seed addresses the client
    is built from. *)
Definition NewClient (seedBrokers : list string) (opts : list (Opt Codec Part Dial Tls))
    : outcome (newClientErr CodecErr) (cfg Codec Part Dial Tls * list string) :=
  match applyOpts defaultCfg opts with
  | None => panicked
  | Some c =>
      match validate c with
      | Some err => failed (invalidCfg err)
      | None =>
          match seedAddrs seedBrokers with
          | returned addrs => returned (c, addrs)
          | failed e => failed e
          | panicked => panicked
          end
      end
  end.
End config.
End config.

(** Stand-ins for what lies outside the file. *)
Definition exampleClientDeps : config.ClientDeps unit unit unit unit :=
  {| config.codec_validate := fun _ => None;
     config.NoCompression := tt;
     config.RandomPartitioner := tt;
     config.stddial := tt;
     config.ParseIP := fun s => String.eqb s "127.0.0.1";
     config.domainRe_MatchString := fun s => String.eqb s "kafka.example.com";
     config.ToLower := fun s => s;
     config.Atoi := fun s => if String.eqb s "9093" then Some 9093 else None;
     config.Itoa := fun p => if p =? 9092 then "9092"%string else "9093"%string;
     config.JoinHostPort := fun h p => (h +:+ ":" +:+ p)%string |}.

(* ===================================================================== *)
(** * Part II: lemmas and theorems                                         *)
(* ===================================================================== *)

(** ** Fixed-width integers and the big-endian primitives *)

Example crc32c_check_value :
  crc32.Checksum [49; 50; 51; 52; 53; 54; 55; 56; 57] crc32c = 0xE3069283.
Proof. vm_compute. reflexivity. Qed.

Lemma wrapS_id w x : 0 < w -> - 2 ^ (w - 1) <= x < 2 ^ (w - 1) -> wrapS w x = x.
Proof.
  intros Hw Hx. unfold wrapS.
  assert (2 ^ w = 2 * 2 ^ (w - 1)) as ->.
  { rewrite <- Z.pow_succ_r by lia. f_equal. lia. }
  rewrite Z.mod_small; lia.
Qed.

Lemma wrapS_range w x : 0 < w -> - 2 ^ (w - 1) <= wrapS w x < 2 ^ (w - 1).
Proof.
  intros Hw. unfold wrapS.
  assert (2 ^ w = 2 * 2 ^ (w - 1)) as E.
  { rewrite <- Z.pow_succ_r by lia. f_equal. lia. }
  assert (0 < 2 ^ (w - 1)) by (apply Z.pow_pos_nonneg; lia).
  pose proof (Z.mod_pos_bound (x + 2 ^ (w - 1)) (2 ^ w)). lia.
Qed.

Lemma wrapS_mod w x : 0 < w -> wrapS w x mod 2 ^ w = x mod 2 ^ w.
Proof.
  intros Hw. unfold wrapS.
  assert (2 ^ w = 2 * 2 ^ (w - 1)) as E.
  { rewrite <- Z.pow_succ_r by lia. f_equal. lia. }
  assert (0 < 2 ^ (w - 1)) by (apply Z.pow_pos_nonneg; lia).
  rewrite Zminus_mod_idemp_l.
  replace (x + 2 ^ (w - 1) - 2 ^ (w - 1)) with x by lia. reflexivity.
Qed.

Lemma length_beBytes k v : length (kbin.beBytes k v) = k.
Proof. induction k; simpl; auto. Qed.

Lemma byte_land x : Z.land x 255 = x mod 256.
Proof. change 255 with (Z.ones 8). rewrite Z.land_ones by lia. reflexivity. Qed.

Lemma beValue_beBytes4 v : kbin.beValue (kbin.beBytes 4 v) = v mod 2 ^ 32.
Proof.
  unfold kbin.beValue. cbn [kbin.beBytes foldl].
  rewrite !byte_land, !Z.shiftr_div_pow2 by lia.
  change (8 * Z.of_nat 3) with 24. change (8 * Z.of_nat 2) with 16.
  change (8 * Z.of_nat 1) with 8. change (8 * Z.of_nat 0) with 0.
  change (2 ^ 32) with 4294967296. change (2 ^ 24) with 16777216.
  change (2 ^ 16) with 65536. change (2 ^ 8) with 256. change (2 ^ 0) with 1.
  Z.div_mod_to_equations. lia.
Qed.

Lemma beValue_beBytes2 v : kbin.beValue (kbin.beBytes 2 v) = v mod 2 ^ 16.
Proof.
  unfold kbin.beValue. cbn [kbin.beBytes foldl].
  rewrite !byte_land, !Z.shiftr_div_pow2 by lia.
  change (8 * Z.of_nat 1) with 8. change (8 * Z.of_nat 0) with 0.
  change (2 ^ 16) with 65536. change (2 ^ 8) with 256. change (2 ^ 0) with 1.
  Z.div_mod_to_equations. lia.
Qed.

(** ** The record batch encoder *)

Lemma appendInPlace_mid pre old post bs :
  length old = length bs ->
  kbin.appendInPlace (pre ++ old ++ post) (length pre) bs = pre ++ bs ++ post.
Proof.
  intros Hlen. unfold kbin.appendInPlace.
  rewrite take_app_length.
  rewrite <- Hlen, <- length_app, app_assoc, drop_app_length.
  apply take_ge. rewrite !length_app. lia.
Qed.

Lemma foldl_headers_app ve dst b hs :
  foldl (fun dst h =>
           let dst := kbin.AppendVarintString ve dst (hdrKey h) in
           kbin.AppendVarintBytes ve dst (hdrValue h)) (dst ++ b) hs =
  dst ++ foldl (fun dst h =>
           let dst := kbin.AppendVarintString ve dst (hdrKey h) in
           kbin.AppendVarintBytes ve dst (hdrValue h)) b hs.
Proof.
  revert b. induction hs as [|h hs IH]; intros b; simpl; [reflexivity|].
  unfold kbin.AppendVarintString, kbin.AppendVarintBytes.
  rewrite <- !app_assoc. rewrite IH. reflexivity.
Qed.

Lemma pnr_appendTo_app ve dst pnr :
  pnr_appendTo ve dst pnr = dst ++ pnr_appendTo ve [] pnr.
Proof.
  unfold pnr_appendTo. cbv zeta.
  rewrite <- foldl_headers_app. f_equal.
  unfold kbin.AppendVarint, kbin.AppendVarintBytes, kbin.AppendInt8.
  rewrite !app_nil_l, <- !app_assoc. reflexivity.
Qed.

Lemma foldl_pnr_appendTo ve dst rs :
  foldl (pnr_appendTo ve) dst rs = dst ++ foldl (pnr_appendTo ve) [] rs.
Proof.
  revert dst. induction rs as [|x rs IH] using rev_ind; intros dst.
  - simpl. rewrite app_nil_r. reflexivity.
  - rewrite !foldl_snoc. rewrite pnr_appendTo_app, IH.
    rewrite (pnr_appendTo_app _ (foldl _ _ _)). rewrite app_assoc. reflexivity.
Qed.

Lemma copyAt_truncate pre body z :
  (length z <= length body)%nat ->
  take (length pre + length z) (copyAt (pre ++ body) (length pre) z) = pre ++ z.
Proof.
  intros Hle. unfold copyAt.
  rewrite length_app.
  replace (length pre + length body - length pre)%nat with (length body) by lia.
  rewrite (take_ge z) by lia.
  rewrite <- (take_drop (length z) body) at 1.
  rewrite appendInPlace_mid by (rewrite length_take; lia).
  rewrite app_assoc, <- length_app, take_app_length. reflexivity.
Qed.

Lemma appendInPlace_at buf n pre old post bs :
  buf = pre ++ old ++ post -> n = length pre -> length old = length bs ->
  kbin.appendInPlace buf n bs = pre ++ bs ++ post.
Proof. intros -> -> Hlen. by apply appendInPlace_mid. Qed.

Lemma drop_at {A} (buf pre post : list A) n :
  buf = pre ++ post -> n = length pre -> drop n buf = post.
Proof. intros -> ->. apply drop_app_length. Qed.

Lemma take_at {A} (buf pre post : list A) n :
  buf = pre ++ post -> n = length pre -> take n buf = pre.
Proof. intros -> ->. apply take_app_length. Qed.

Ltac list_len := rewrite ?length_app, ?length_beBytes; simpl; lia.
Ltac reassoc := rewrite <- ?app_assoc; reflexivity.

Lemma compressRegion_shape L B A dst f1 mid1 f2 mid2 f3 mid3 body c :
  length f1 = 4%nat -> length f2 = 4%nat -> length f3 = 2%nat ->
  compressRegion L B A (length dst) (length (dst ++ f1 ++ mid1))
    (length (dst ++ f1 ++ mid1 ++ f2 ++ mid2))
    (length (dst ++ f1 ++ mid1 ++ f2 ++ mid2 ++ f3 ++ mid3))
    (dst ++ f1 ++ mid1 ++ f2 ++ mid2 ++ f3 ++ mid3 ++ body) c =
  match compress c body with
  | Some z =>
      if (length z <? length body)%nat then
        let savings := int32 (Z.of_nat (length body) - Z.of_nat (length z)) in
        dst ++ kbin.beBytes 4 (int32 (L - savings)) ++ mid1 ++
        kbin.beBytes 4 (int32 (B - savings)) ++ mid2 ++
        kbin.beBytes 2 (Z.lor A (int16 (cattrs c))) ++ mid3 ++ z
      else dst ++ f1 ++ mid1 ++ f2 ++ mid2 ++ f3 ++ mid3 ++ body
  | None => dst ++ f1 ++ mid1 ++ f2 ++ mid2 ++ f3 ++ mid3 ++ body
  end.
Proof.
  intros H1 H2 H3. unfold compressRegion.
  rewrite (drop_at _ (dst ++ f1 ++ mid1 ++ f2 ++ mid2 ++ f3 ++ mid3) body)
    by (reflexivity || reassoc).
  destruct (compress c body) as [z|]; [|reflexivity].
  destruct (length z <? length body)%nat eqn:Hlt; [|reflexivity].
  apply Nat.ltb_lt in Hlt. cbv zeta.
  replace (dst ++ f1 ++ mid1 ++ f2 ++ mid2 ++ f3 ++ mid3 ++ body)
    with ((dst ++ f1 ++ mid1 ++ f2 ++ mid2 ++ f3 ++ mid3) ++ body) by reassoc.
  rewrite copyAt_truncate by lia.
  unfold kbin.PatchInt32, kbin.PatchInt16.
  set (L' := int32 (L - _)). set (B' := int32 (B - _)).
  rewrite (appendInPlace_at _ (length dst) dst f1 (mid1 ++ f2 ++ mid2 ++ f3 ++ mid3 ++ z));
    [|reassoc|reflexivity|by rewrite length_beBytes].
  rewrite (appendInPlace_at _ (length (dst ++ f1 ++ mid1))
             (dst ++ kbin.beBytes 4 L' ++ mid1) f2 (mid2 ++ f3 ++ mid3 ++ z));
    [|reassoc|list_len|by rewrite length_beBytes].
  rewrite (appendInPlace_at _ (length (dst ++ f1 ++ mid1 ++ f2 ++ mid2))
             (dst ++ kbin.beBytes 4 L' ++ mid1 ++ kbin.beBytes 4 B' ++ mid2)
             f3 (mid3 ++ z));
    [|reassoc|list_len|by rewrite length_beBytes].
  reassoc.
Qed.

Lemma patch_checksum dst a b c d e tail n :
  n = length (dst ++ a ++ b ++ c ++ d ++ e) ->
  kbin.PatchInt32 (dst ++ a ++ b ++ c ++ d ++ e ++ kbin.beBytes 4 0 ++ tail) n
    (int32 (crc32.Checksum
              (drop (n + 4) (dst ++ a ++ b ++ c ++ d ++ e ++ kbin.beBytes 4 0 ++ tail))
              crc32c)) =
  dst ++ a ++ b ++ c ++ d ++ e ++
  kbin.beBytes 4 (int32 (crc32.Checksum tail crc32c)) ++ tail.
Proof.
  intros Hn.
  rewrite (drop_at _ ((dst ++ a ++ b ++ c ++ d ++ e) ++ kbin.beBytes 4 0) tail);
    [|reassoc|rewrite Hn; list_len].
  unfold kbin.PatchInt32.
  rewrite (appendInPlace_at _ n (dst ++ a ++ b ++ c ++ d ++ e) (kbin.beBytes 4 0) tail);
    [reassoc|reassoc|exact Hn|by rewrite !length_beBytes].
Qed.

Lemma appendTo_encodedBatch ve dst r c lastRecord :
  last (records r) = Some lastRecord ->
  appendTo ve dst r c = Some (encodedBatch ve dst r c lastRecord).
Proof.
  intros Hlast. unfold appendTo. rewrite Hlast. cbv zeta. f_equal.
  unfold kbin.AppendArrayLen, kbin.AppendInt8, kbin.AppendInt16,
    kbin.AppendInt32, kbin.AppendInt64.
  rewrite foldl_pnr_appendTo. fold (recordsBytes ve r).
  rewrite <- !app_assoc.
  set (L := int32 (wireLength r - 4)).
  set (B := int32 (L - 8 - 4)).
  unfold encodedBatch, keptCompression, batchLayout, batchTail. fold L B.
  destruct c as [c0|].
  - pose proof (compressRegion_shape L B (attrs r) dst (kbin.beBytes 4 L)
      (kbin.beBytes 8 0) (kbin.beBytes 4 B)
      (kbin.beBytes 4 (-1) ++ kbin.beBytes 1 2 ++ kbin.beBytes 4 0)
      (kbin.beBytes 2 (attrs r))
      (kbin.beBytes 4 (int32 (Z.of_nat (length (records r)) - 1)) ++
       kbin.beBytes 8 (firstTimestamp r) ++
       kbin.beBytes 8 (int64 (firstTimestamp r + timestampDelta (pnr_n lastRecord))) ++
       kbin.beBytes 8 (-1) ++ kbin.beBytes 2 (-1) ++ kbin.beBytes 4 (-1) ++
       kbin.beBytes 4 (int32 (Z.of_nat (length (records r)))))
      (recordsBytes ve r) c0 eq_refl eq_refl eq_refl) as Hc.
    rewrite <- !app_assoc in Hc. rewrite Hc. clear Hc.
    destruct (compress c0 (recordsBytes ve r)) as [z|].
    + destruct (length z <? length (recordsBytes ve r))%nat.
      * cbv zeta. rewrite <- ?app_assoc. rewrite patch_checksum by list_len. reassoc.
      * rewrite patch_checksum by list_len. reassoc.
    + rewrite patch_checksum by list_len. reassoc.
  - rewrite patch_checksum by list_len. reassoc.
Qed.

Lemma int32_id x : - 2 ^ 31 <= x < 2 ^ 31 -> int32 x = x.
Proof. intros H. apply wrapS_id; [lia | exact H]. Qed.

Lemma wrapS_wrapU w x : 0 < w -> wrapS w (x mod 2 ^ w) = wrapS w x.
Proof.
  intros Hw. unfold wrapS.
  assert (0 < 2 ^ w) by (apply Z.pow_pos_nonneg; lia).
  f_equal. rewrite Zplus_mod_idemp_l. reflexivity.
Qed.

Lemma ReadUint32_at out pre v post n :
  out = pre ++ kbin.beBytes 4 v ++ post -> n = length pre ->
  kbin.ReadUint32 out n = v mod 2 ^ 32.
Proof.
  intros -> ->. unfold kbin.ReadUint32.
  rewrite drop_app_length.
  rewrite (take_app_length' (kbin.beBytes 4 v)) by (symmetry; apply length_beBytes).
  apply beValue_beBytes4.
Qed.

Lemma ReadInt32_at out pre v post n :
  out = pre ++ kbin.beBytes 4 v ++ post -> n = length pre ->
  kbin.ReadInt32 out n = int32 v.
Proof.
  intros Hout Hn. unfold kbin.ReadInt32.
  rewrite (ReadUint32_at _ _ _ _ _ Hout Hn). apply wrapS_wrapU. lia.
Qed.

Lemma ReadInt16_at out pre v post n :
  out = pre ++ kbin.beBytes 2 v ++ post -> n = length pre ->
  kbin.ReadInt16 out n = int16 v.
Proof.
  intros -> ->. unfold kbin.ReadInt16.
  rewrite drop_app_length.
  rewrite (take_app_length' (kbin.beBytes 2 v)) by (symmetry; apply length_beBytes).
  rewrite beValue_beBytes2. apply wrapS_wrapU. lia.
Qed.

Lemma Checksum_range data poly : 0 <= crc32.Checksum data poly < 2 ^ 32.
Proof. unfold crc32.Checksum, uint32, wrapU. apply Z.mod_pos_bound. lia. Qed.

Lemma last_nonempty {A} (l : list A) : l <> [] -> exists x, last l = Some x.
Proof.
  intros Hl. destruct (last l) as [x|] eqn:E; [eauto|].
  apply last_None in E. contradiction.
Qed.

Lemma length_pnr_appendTo ve pnr : (1 <= length (pnr_appendTo ve [] pnr))%nat.
Proof.
  unfold pnr_appendTo. cbv zeta.
  unfold kbin.AppendVarint, kbin.AppendVarintBytes, kbin.AppendInt8.
  match goal with |- context [foldl ?f ?a ?hs] =>
    replace a with (a ++ []) by apply app_nil_r;
    change (foldl f (a ++ []) hs) with
      (foldl (fun dst h =>
           let dst := kbin.AppendVarintString ve dst (hdrKey h) in
           kbin.AppendVarintBytes ve dst (hdrValue h)) (a ++ []) hs) end.
  rewrite foldl_headers_app. rewrite !length_app, length_beBytes. lia.
Qed.

Lemma length_recordsBytes ve r : (length (records r) <= length (recordsBytes ve r))%nat.
Proof.
  unfold recordsBytes.
  induction (records r) as [|x rs IH] using rev_ind; [simpl; lia|].
  rewrite foldl_snoc, pnr_appendTo_app, !length_app. simpl.
  pose proof (length_pnr_appendTo ve x). lia.
Qed.

Lemma batchLayout_checksum dst L B tail :
  kbin.ReadUint32 (batchLayout dst L B tail) (length dst + 21) =
  crc32.Checksum (drop (length dst + 25) (batchLayout dst L B tail)) crc32c.
Proof.
  unfold batchLayout.
  rewrite (drop_at _ (dst ++ kbin.beBytes 4 L ++ kbin.beBytes 8 0 ++ kbin.beBytes 4 B ++
                      kbin.beBytes 4 (-1) ++ kbin.beBytes 1 2 ++
                      kbin.beBytes 4 (int32 (crc32.Checksum tail crc32c))) tail);
    [|reassoc|list_len].
  rewrite (ReadUint32_at _ (dst ++ kbin.beBytes 4 L ++ kbin.beBytes 8 0 ++ kbin.beBytes 4 B ++
                      kbin.beBytes 4 (-1) ++ kbin.beBytes 1 2)
             (int32 (crc32.Checksum tail crc32c)) tail);
    [|reassoc|list_len].
  unfold int32. rewrite wrapS_mod by lia. apply Z.mod_small, Checksum_range.
Qed.

Lemma batchLayout_outerLen dst L B tail :
  kbin.ReadInt32 (batchLayout dst L B tail) (length dst) = int32 L.
Proof. apply (ReadInt32_at _ dst L _ _ eq_refl eq_refl). Qed.

Lemma batchLayout_batchLen dst L B tail :
  kbin.ReadInt32 (batchLayout dst L B tail) (length dst + 12) = int32 B.
Proof.
  unfold batchLayout.
  rewrite (ReadInt32_at _ (dst ++ kbin.beBytes 4 L ++ kbin.beBytes 8 0) B
             (kbin.beBytes 4 (-1) ++ kbin.beBytes 1 2 ++
              kbin.beBytes 4 (int32 (crc32.Checksum tail crc32c)) ++ tail));
    [reflexivity|reassoc|list_len].
Qed.

Lemma batchLayout_attrs dst L B r A maxTs payload :
  kbin.ReadInt16 (batchLayout dst L B (batchTail r A maxTs payload)) (length dst + 25) =
  int16 A.
Proof.
  unfold batchLayout, batchTail.
  set (tail := kbin.beBytes 2 A ++ _).
  rewrite (ReadInt16_at _ (dst ++ kbin.beBytes 4 L ++ kbin.beBytes 8 0 ++ kbin.beBytes 4 B ++
                      kbin.beBytes 4 (-1) ++ kbin.beBytes 1 2 ++
                      kbin.beBytes 4 (int32 (crc32.Checksum tail crc32c))) A
             (kbin.beBytes 4 (int32 (Z.of_nat (length (records r)) - 1)) ++
              kbin.beBytes 8 (firstTimestamp r) ++ kbin.beBytes 8 maxTs ++
              kbin.beBytes 8 (-1) ++ kbin.beBytes 2 (-1) ++ kbin.beBytes 4 (-1) ++
              kbin.beBytes 4 (int32 (Z.of_nat (length (records r)))) ++ payload));
    [reflexivity|subst tail; reassoc|list_len].
Qed.

Lemma batchLayout_lastOffsetDelta dst L B r A maxTs payload :
  kbin.ReadInt32 (batchLayout dst L B (batchTail r A maxTs payload)) (length dst + 27) =
  int32 (Z.of_nat (length (records r)) - 1).
Proof.
  unfold batchLayout, batchTail.
  set (tail := kbin.beBytes 2 A ++ _).
  rewrite (ReadInt32_at _ (dst ++ kbin.beBytes 4 L ++ kbin.beBytes 8 0 ++ kbin.beBytes 4 B ++
                      kbin.beBytes 4 (-1) ++ kbin.beBytes 1 2 ++
                      kbin.beBytes 4 (int32 (crc32.Checksum tail crc32c)) ++
                      kbin.beBytes 2 A)
             (int32 (Z.of_nat (length (records r)) - 1))
             (kbin.beBytes 8 (firstTimestamp r) ++ kbin.beBytes 8 maxTs ++
              kbin.beBytes 8 (-1) ++ kbin.beBytes 2 (-1) ++ kbin.beBytes 4 (-1) ++
              kbin.beBytes 4 (int32 (Z.of_nat (length (records r)))) ++ payload));
    [|subst tail; reassoc|list_len].
  unfold int32. rewrite <- (wrapS_wrapU 32 (wrapS 32 _)), wrapS_mod, wrapS_wrapU by lia.
  reflexivity.
Qed.

Lemma batchLayout_recordCount dst L B r A maxTs payload :
  kbin.ReadInt32 (batchLayout dst L B (batchTail r A maxTs payload)) (length dst + 61) =
  int32 (Z.of_nat (length (records r))).
Proof.
  unfold batchLayout, batchTail.
  set (tail := kbin.beBytes 2 A ++ _).
  rewrite (ReadInt32_at _ (dst ++ kbin.beBytes 4 L ++ kbin.beBytes 8 0 ++ kbin.beBytes 4 B ++
                      kbin.beBytes 4 (-1) ++ kbin.beBytes 1 2 ++
                      kbin.beBytes 4 (int32 (crc32.Checksum tail crc32c)) ++
                      kbin.beBytes 2 A ++
                      kbin.beBytes 4 (int32 (Z.of_nat (length (records r)) - 1)) ++
                      kbin.beBytes 8 (firstTimestamp r) ++ kbin.beBytes 8 maxTs ++
                      kbin.beBytes 8 (-1) ++ kbin.beBytes 2 (-1) ++ kbin.beBytes 4 (-1))
             (int32 (Z.of_nat (length (records r)))) payload);
    [|subst tail; reassoc|list_len].
  unfold int32. rewrite <- (wrapS_wrapU 32 (wrapS 32 _)), wrapS_mod, wrapS_wrapU by lia.
  reflexivity.
Qed.

Lemma length_batchLayout dst L B r A maxTs payload :
  length (batchLayout dst L B (batchTail r A maxTs payload)) =
  (length dst + 65 + length payload)%nat.
Proof. unfold batchLayout, batchTail. list_len. Qed.

(** Claim C1 (checksum round trip). For every non-empty record batch, every
    caller buffer and every compressor (none, one whose output is kept, one
    whose output is dropped), [appendTo] returns the caller's bytes followed
    by an entry that holds all its 65 bytes of fixed fields, the checksum
    field among them, 21 bytes into the entry; and in what it returns the
    four bytes of the checksum field, read as a big-endian [uint32], are the
    CRC-32C (Castagnoli) checksum of all the bytes from right after that
    field to the end of the entry, of which there are at least 40. *)
Theorem appendTo_checksum_roundtrip ve dst r c :
  records r <> [] ->
  exists out,
    appendTo ve dst r c = Some out /\
    take (length dst) out = dst /\
    (length dst + 65 <= length out)%nat /\
    (40 <= length (drop (length dst + 25) out))%nat /\
    kbin.ReadUint32 out (length dst + 21) =
      crc32.Checksum (drop (length dst + 25) out) crc32c.
Proof.
  intros Hne. destruct (last_nonempty _ Hne) as [lastRecord Hlast].
  eexists. split; [apply appendTo_encodedBatch; exact Hlast|].
  unfold encodedBatch. cbv zeta.
  destruct (keptCompression ve r c) as [[c' z]|];
    (split; [apply (take_app_length dst)|]);
    (split; [rewrite length_batchLayout; lia|]);
    (split; [rewrite length_drop, length_batchLayout; lia|]);
    apply batchLayout_checksum.
Qed.

Lemma appendTo_checksum_roundtrip_witness :
  records exampleBatch <> [] /\
  exists out,
    appendTo exampleEncoding [] exampleBatch (Some exampleShrinker) = Some out /\
    take 0 out = [] /\
    (0 + 65 <= length out)%nat /\
    (40 <= length (drop 25 out))%nat /\
    kbin.ReadUint32 out 21 = crc32.Checksum (drop 25 out) crc32c.
Proof.
  split; [discriminate|].
  apply (appendTo_checksum_roundtrip exampleEncoding [] exampleBatch
           (Some exampleShrinker)).
  discriminate.
Defined.

Example appendTo_example_compressed :
  length <$> appendTo exampleEncoding [] exampleBatch (Some exampleShrinker) = Some 71%nat /\
  length <$> appendTo exampleEncoding [] exampleBatch None = Some 89%nat /\
  appendTo exampleEncoding [] exampleBatch (Some exampleGrowing) =
    appendTo exampleEncoding [] exampleBatch None.
Proof. vm_compute. repeat split; reflexivity. Qed.

Lemma int32_int32 x : int32 (int32 x) = int32 x.
Proof. apply int32_id. apply (wrapS_range 32 x). lia. Qed.

(** Claim C2 (length and count fields). For every sealed batch of N >= 1
    records and every compressor, in the bytes [appendTo] returns: the outer
    (nullable-bytes) length field is the batch-length field plus 12, the
    record-count field is N, the last-offset-delta field is N - 1. This
    holds for the compressed and the uncompressed outcome alike: the outer
    length is, in both, the number of bytes that follow it, so both length
    fields drop by the same savings. *)
Theorem appendTo_length_fields ve dst r c :
  sealed ve r ->
  exists out,
    appendTo ve dst r c = Some out /\
    kbin.ReadInt32 out (length dst) = kbin.ReadInt32 out (length dst + 12) + 12 /\
    kbin.ReadInt32 out (length dst + 61) = Z.of_nat (length (records r)) /\
    kbin.ReadInt32 out (length dst + 27) = Z.of_nat (length (records r)) - 1 /\
    kbin.ReadInt32 out (length dst) = Z.of_nat (length out) - Z.of_nat (length dst) - 4.
Proof.
  intros (Hne & Hwire & Hmax). unfold MaxInt32 in Hmax.
  destruct (last_nonempty _ Hne) as [lastRecord Hlast].
  pose proof (length_recordsBytes ve r) as Hrecs.
  eexists. split; [apply appendTo_encodedBatch; exact Hlast|].
  unfold encodedBatch. cbv zeta.
  rewrite (int32_id (wireLength r - 4)) by lia.
  rewrite (int32_id (wireLength r - 4 - 8 - 4)) by lia.
  destruct (keptCompression ve r c) as [[c' z]|] eqn:Hkept.
  - assert (length z < length (recordsBytes ve r))%nat as Hlt.
    { unfold keptCompression in Hkept. destruct c as [c0|]; [|discriminate].
      destruct (compress c0 (recordsBytes ve r)) as [z0|]; [|discriminate].
      destruct (length z0 <? length (recordsBytes ve r))%nat eqn:E; [|discriminate].
      apply Nat.ltb_lt in E. congruence. }
    rewrite batchLayout_outerLen, batchLayout_batchLen, batchLayout_recordCount,
      batchLayout_lastOffsetDelta, length_batchLayout.
    rewrite (int32_id (_ - Z.of_nat (length z))) by lia.
    rewrite !int32_int32. rewrite !int32_id by lia. lia.
  - rewrite batchLayout_outerLen, batchLayout_batchLen, batchLayout_recordCount,
      batchLayout_lastOffsetDelta, length_batchLayout.
    rewrite !int32_id by lia. lia.
Qed.

Lemma appendTo_length_fields_witness :
  sealed exampleEncoding exampleBatch /\
  exists out,
    appendTo exampleEncoding [0; 0; 0; 1] exampleBatch (Some exampleShrinker) = Some out /\
    kbin.ReadInt32 out 4 = kbin.ReadInt32 out 16 + 12 /\
    kbin.ReadInt32 out 65 = 2 /\
    kbin.ReadInt32 out 31 = 1 /\
    kbin.ReadInt32 out 4 = Z.of_nat (length out) - 4 - 4.
Proof.
  assert (sealed exampleEncoding exampleBatch) as Hs.
  { split; [discriminate|]. split; [reflexivity|]. vm_compute. discriminate. }
  split; [exact Hs|].
  exact (appendTo_length_fields exampleEncoding [0; 0; 0; 1] exampleBatch
           (Some exampleShrinker) Hs).
Defined.

(** Claim C3 (compression falls back, never grows). For every non-empty
    batch and every compressor, [appendTo] returns with and without the
    compressor, and the output with the compressor is never longer than the
    output without. If the compressor returns nil, or something not
    strictly smaller than the record region, the output is byte for byte
    the uncompressed encoding, whose attributes word is the batch's own:
    no bit of the codec is set in it unless the batch had it set. *)
Theorem appendTo_compression_fallback ve dst r c :
  records r <> [] ->
  exists plain out,
    appendTo ve dst r None = Some plain /\
    appendTo ve dst r (Some c) = Some out /\
    (length out <= length plain)%nat /\
    ((forall z, compress c (recordsBytes ve r) = Some z ->
        (length (recordsBytes ve r) <= length z)%nat) ->
     out = plain /\
     kbin.ReadInt16 out (length dst + 25) = int16 (attrs r) /\
     (Z.land (int16 (attrs r)) (int16 (cattrs c)) = 0 ->
      Z.land (kbin.ReadInt16 out (length dst + 25)) (int16 (cattrs c)) = 0)).
Proof.
  intros Hne. destruct (last_nonempty _ Hne) as [lastRecord Hlast].
  do 2 eexists. split; [apply appendTo_encodedBatch; exact Hlast|].
  split; [apply appendTo_encodedBatch; exact Hlast|].
  unfold encodedBatch, keptCompression. cbv zeta.
  destruct (compress c (recordsBytes ve r)) as [z|].
  - destruct (length z <? length (recordsBytes ve r))%nat eqn:E.
    + apply Nat.ltb_lt in E. split.
      * rewrite !length_batchLayout. lia.
      * intros Hfall. specialize (Hfall z eq_refl). lia.
    + split; [reflexivity|]. intros _. rewrite batchLayout_attrs. auto.
  - split; [reflexivity|]. intros _. rewrite batchLayout_attrs. auto.
Qed.

Lemma appendTo_compression_fallback_witness :
  records exampleBatch <> [] /\
  exists plain out,
    appendTo exampleEncoding [] exampleBatch None = Some plain /\
    appendTo exampleEncoding [] exampleBatch (Some exampleFailing) = Some out /\
    (length out <= length plain)%nat /\
    ((forall z, compress exampleFailing (recordsBytes exampleEncoding exampleBatch) = Some z ->
        (length (recordsBytes exampleEncoding exampleBatch) <= length z)%nat) ->
     out = plain /\
     kbin.ReadInt16 out 25 = int16 (attrs exampleBatch) /\
     (Z.land (int16 (attrs exampleBatch)) (int16 (cattrs exampleFailing)) = 0 ->
      Z.land (kbin.ReadInt16 out 25) (int16 (cattrs exampleFailing)) = 0)).
Proof.
  split; [discriminate|].
  apply (appendTo_compression_fallback exampleEncoding [] exampleBatch exampleFailing).
  discriminate.
Defined.

(** ** Partitioners *)

Example murmur2_21 : int32 (murmur2 (bytesOf "21")) = -973932308.
Proof. vm_compute. reflexivity. Qed.
Example murmur2_foobar : int32 (murmur2 (bytesOf "foobar")) = -790332482.
Proof. vm_compute. reflexivity. Qed.
Example murmur2_abc : int32 (murmur2 (bytesOf "abc")) = 479470107.
Proof. vm_compute. reflexivity. Qed.
Example murmur2_long : int32 (murmur2 (bytesOf "a-little-bit-long-string")) = -985981536.
Proof. vm_compute. reflexivity. Qed.

Lemma lpInput_next_at mapping (o : nat) b :
  mapping !! o = Some b ->
  lpInput_next {| lp_on := Z.of_nat o; lp_mapping := mapping |} =
  Some (Z.of_nat o, b, {| lp_on := Z.of_nat (S o); lp_mapping := mapping |}).
Proof.
  intros Hb. unfold lpInput_next. cbn [lp_on lp_mapping].
  destruct (Z.ltb_spec (Z.of_nat o) 0) as [?|_]; [lia|].
  rewrite Nat2Z.id, Hb. do 3 f_equal. lia.
Qed.

Lemma scanBackups_lpInput mapping k : forall (o : nat) least cur,
  (o + k <= length mapping)%nat ->
  exists r,
    scanBackups lpInput_next k least cur {| lp_on := Z.of_nat o; lp_mapping := mapping |} =
      Some (r, {| lp_on := Z.of_nat (o + k); lp_mapping := mapping |}) /\
    ((r = cur /\
      forall j b, (o <= j < o + k)%nat -> mapping !! j = Some b -> least <= b) \/
     (exists (i : nat) m,
        r = Z.of_nat i /\ (o <= i < o + k)%nat /\ mapping !! i = Some m /\ m < least /\
        (forall j b, (o <= j < o + k)%nat -> mapping !! j = Some b -> m <= b) /\
        (forall j b, (o <= j < i)%nat -> mapping !! j = Some b -> m < b))).
Proof.
  induction k as [|k IH]; intros o least cur Hlen.
  - exists cur. cbn [scanBackups]. rewrite Nat.add_0_r. split; [reflexivity|].
    left. split; [reflexivity|]. intros j b Hj. lia.
  - destruct (lookup_lt_is_Some_2 mapping o) as [b Hb]; [lia|].
    cbn [scanBackups]. rewrite (lpInput_next_at _ _ _ Hb).
    replace (o + S k)%nat with (S o + k)%nat by lia.
    assert (forall (P : Z -> Prop) (hi : nat),
              P b -> (forall j b', (S o <= j < hi)%nat -> mapping !! j = Some b' -> P b') ->
              forall j b', (o <= j < hi)%nat -> mapping !! j = Some b' -> P b') as Hext.
    { intros P hi Hhere Hrest j b' Hj Hb'. destruct (decide (j = o)) as [->|Hne].
      - rewrite Hb in Hb'. injection Hb' as <-. exact Hhere.
      - apply (Hrest j); [lia|assumption]. }
    destruct (Z.ltb_spec b least) as [Hlt|Hge].
    + destruct (IH (S o) b (Z.of_nat o)) as (r & Hr & Hcase); [lia|].
      exists r. split; [exact Hr|]. right.
      destruct Hcase as [[-> Hall]|(i & m & -> & Hi & Hm & Hmb & Hall & Hfirst)].
      * exists o, b. split; [reflexivity|]. split; [lia|]. split; [exact Hb|].
        split; [exact Hlt|]. split.
        -- apply (Hext (fun x => b <= x)); [lia|exact Hall].
        -- intros j b' Hj. lia.
      * exists i, m. split; [reflexivity|]. split; [lia|]. split; [exact Hm|].
        split; [lia|]. split.
        -- apply (Hext (fun x => m <= x)); [lia|exact Hall].
        -- apply (Hext (fun x => m < x)); [lia|exact Hfirst].
    + destruct (IH (S o) least cur) as (r & Hr & Hcase); [lia|].
      exists r. split; [exact Hr|].
      destruct Hcase as [[-> Hall]|(i & m & -> & Hi & Hm & Hmb & Hall & Hfirst)].
      * left. split; [reflexivity|].
        apply (Hext (fun x => least <= x)); [lia|exact Hall].
      * right. exists i, m. split; [reflexivity|]. split; [lia|]. split; [exact Hm|].
        split; [lia|]. split.
        -- apply (Hext (fun x => m <= x)); [lia|exact Hall].
        -- apply (Hext (fun x => m < x)); [lia|exact Hfirst].
Qed.

(** What the decision does on every input. With the callback
    [lpInput.next] over [n] partitions: when the partitioner is unpinned
    ([onPart = -1]) or its pin is not valid for [n] ([onPart >= n]),
    [PartitionByBackup] calls the callback exactly [n] times (the counter
    of the callback ends at [n]) and pins what it returns. With a buffered
    count below [math.MaxInt64] that is the index of the first minimum in
    scan order; without one the scan selects nothing and what was in
    [onPart] comes back. While pinned to a valid index the partitioner
    returns the pin and leaves itself and the callback as they were,
    whatever the callback is; [OnNewBatch] resets the pin to -1. *)
Theorem PartitionByBackup_least_backup (p : leastBackupTopicPartitioner) (n : Z)
    (mapping : list Z) :
  (onPart p = -1 \/ onPart p >= n ->
   Z.of_nat (length mapping) = n ->
   exists i,
     PartitionByBackup lpInput_next p n {| lp_on := 0; lp_mapping := mapping |} =
       Some (i, {| onPart := i |}, {| lp_on := n; lp_mapping := mapping |}) /\
     ((exists b, b ∈ mapping /\ b < MaxInt64) -> firstMinimum mapping i) /\
     ((forall b, b ∈ mapping -> MaxInt64 <= b) -> i = onPart p)) /\
  (0 <= onPart p < n ->
   forall (S : Type) (backupFn : S -> option (Z * Z * S)) (s : S),
     PartitionByBackup backupFn p n s = Some (onPart p, p, s)) /\
  onPart (OnNewBatch p) = -1.
Proof.
  split; [|split; [|reflexivity]].
  - intros Hpin Hlen.
    unfold PartitionByBackup.
    assert ((onPart p =? -1) || (onPart p >=? n) = true) as ->.
    { apply orb_true_iff. destruct Hpin as [->|Hge]; [left; reflexivity|right].
      apply Z.geb_le. lia. }
    destruct (scanBackups_lpInput mapping (Z.to_nat n) 0 MaxInt64 (onPart p))
      as (r & Hr & Hcase); [lia|].
    change (Z.of_nat 0) with 0 in Hr. rewrite Hr.
    replace (Z.of_nat (0 + Z.to_nat n)) with n by lia.
    exists r. split; [reflexivity|].
    destruct Hcase as [[-> Hall]|(i & m & -> & Hi & Hm & Hmb & Hall & Hfirst)].
    + split; [|reflexivity]. intros (b0 & Hin & Hb0).
      apply list_elem_of_lookup in Hin as [j Hj].
      pose proof (lookup_lt_Some _ _ _ Hj).
      specialize (Hall j b0 ltac:(lia) Hj). lia.
    + split.
      * intros _. exists m. rewrite Nat2Z.id.
        split; [lia|]. split; [exact Hm|]. split.
        -- intros j b Hb. pose proof (lookup_lt_Some _ _ _ Hb).
           apply (Hall j); [lia|assumption].
        -- intros j b Hj Hb. apply (Hfirst j); [lia|assumption].
      * intros Hmax. apply list_elem_of_lookup_2 in Hm. specialize (Hmax m Hm). lia.
  - intros Hpin S backupFn s. unfold PartitionByBackup.
    assert ((onPart p =? -1) || (onPart p >=? n) = false) as ->; [|reflexivity].
    apply orb_false_iff. split; [apply Z.eqb_neq; lia|].
    rewrite Z.geb_leb. apply Z.leb_gt. lia.
Qed.

Lemma PartitionByBackup_least_backup_witness :
  (exists i,
     PartitionByBackup lpInput_next newLeastBackupTopicPartitioner 4
       {| lp_on := 0; lp_mapping := exampleCounts |} =
       Some (i, {| onPart := i |}, {| lp_on := 4; lp_mapping := exampleCounts |}) /\
     ((exists b, b ∈ exampleCounts /\ b < MaxInt64) -> firstMinimum exampleCounts i) /\
     ((forall b, b ∈ exampleCounts -> MaxInt64 <= b) ->
      i = onPart newLeastBackupTopicPartitioner)) /\
  (exists b, b ∈ exampleCounts /\ b < MaxInt64) /\
  PartitionByBackup lpInput_next {| onPart := 1 |} 4
    {| lp_on := 0; lp_mapping := exampleCounts |} =
    Some (1, {| onPart := 1 |}, {| lp_on := 0; lp_mapping := exampleCounts |}).
Proof.
  split; [|split].
  - apply (PartitionByBackup_least_backup newLeastBackupTopicPartitioner 4 exampleCounts).
    + left. reflexivity.
    + reflexivity.
  - exists 5. split; [apply list_elem_of_here|reflexivity].
  - apply (PartitionByBackup_least_backup {| onPart := 1 |} 4 exampleCounts).
    simpl. lia.
Defined.

Example PartitionByBackup_example :
  PartitionByBackup lpInput_next newLeastBackupTopicPartitioner 4
    {| lp_on := 0; lp_mapping := exampleCounts |} =
  Some (1, {| onPart := 1 |}, {| lp_on := 4; lp_mapping := exampleCounts |}).
Proof. reflexivity. Qed.

Lemma PartitionByBackup_all_max_counterexample :
  PartitionByBackup lpInput_next newLeastBackupTopicPartitioner 1
    {| lp_on := 0; lp_mapping := [MaxInt64] |} =
    Some (-1, {| onPart := -1 |}, {| lp_on := 1; lp_mapping := [MaxInt64] |}) /\
  ~ firstMinimum [MaxInt64] (-1).
Proof.
  split; [reflexivity|]. intros (m & Hi & _). lia.
Qed.



Lemma int32_wrapU x : int 32 (uint32 x) = int32 x.
Proof. unfold int, uint32, wrapU, int32. apply wrapS_wrapU. lia. Qed.

Lemma SaramaHasher_int32 hashFn key n :
  0 < n <= MaxInt32 ->
  SaramaHasher 32 hashFn key n = Some (Z.abs (int32 (hashFn key)) mod n).
Proof.
  intros Hn. unfold MaxInt32 in Hn. unfold SaramaHasher.
  destruct (Z.eqb_spec n 0) as [?|_]; [lia|]. rewrite int32_wrapU. f_equal.
  set (x := int32 (hashFn key)).
  pose proof (Z.rem_bound_abs x n ltac:(lia)) as Hb.
  destruct (Z.ltb_spec (Z.rem x n) 0) as [Hneg|Hpos].
  - assert (x < 0) as Hx.
    { destruct (Z.lt_ge_cases x 0) as [?|Hx]; [assumption|].
      pose proof (Z.rem_nonneg x n ltac:(lia) Hx). lia. }
    unfold int. rewrite wrapS_id by lia.
    rewrite Z.abs_neq by lia.
    rewrite <- (Z.opp_involutive x) at 1. rewrite Z.rem_opp_l by lia.
    rewrite Z.rem_mod_nonneg by lia. lia.
  - destruct (Z.lt_ge_cases x 0) as [Hx|Hx].
    + rewrite Z.abs_neq by lia.
      assert (Z.rem x n = - ((- x) mod n)) as E.
      { rewrite <- (Z.opp_involutive x) at 1. rewrite Z.rem_opp_l by lia.
        rewrite Z.rem_mod_nonneg by lia. reflexivity. }
      pose proof (Z.mod_pos_bound (- x) n ltac:(lia)). lia.
    + rewrite Z.abs_eq by lia. apply Z.rem_mod_nonneg; lia.
Qed.

Lemma SaramaHasher_int64 hashFn key n :
  0 < n ->
  SaramaHasher 64 hashFn key n = Some (uint32 (hashFn key) mod n).
Proof.
  intros Hn. unfold SaramaHasher.
  destruct (Z.eqb_spec n 0) as [?|_]; [lia|]. f_equal.
  assert (0 <= uint32 (hashFn key) < 2 ^ 32) as Hu
    by (apply Z.mod_pos_bound; lia).
  unfold int. rewrite wrapS_id by lia.
  rewrite Z.rem_mod_nonneg by lia.
  pose proof (Z.mod_pos_bound (uint32 (hashFn key)) n Hn).
  destruct (Z.ltb_spec (uint32 (hashFn key) mod n) 0); [lia|reflexivity].
Qed.

(** Claim C10 (Sarama hasher), evaluated where the code departs from it.
    Where [int] has 64 bits, [int(hashFn(key))] is never negative, the
    sign flip is dead code and the result is the unsigned hash modulo [n]:
    for the key "foobar" hashed by [murmur2] and [n = 10] the code returns
    4, while the absolute value of the hash read as an [int32], modulo 10,
    is 2 (which is what the code returns where [int] has 32 bits). *)
Theorem SaramaHasher_no_sign_flip_on_64_bit :
  SaramaHasher 64 murmur2 (bytesOf "foobar") 10 = Some 4 /\
  int32 (murmur2 (bytesOf "foobar")) = -790332482 /\
  Z.abs (int32 (murmur2 (bytesOf "foobar"))) mod 10 = 2 /\
  SaramaHasher 32 murmur2 (bytesOf "foobar") 10 = Some 2.
Proof. vm_compute. repeat split; reflexivity. Qed.

(** ** The assignment engine *)

Section range_facts.
Context (ro : RangeOrder) `{Countable K} {V : Type}.
Implicit Types m : gmap K V.

Lemma rangeMap_NoDup m : NoDup (rangeMap ro m).*1.
Proof. rewrite (rangeMap_perm ro). apply NoDup_fst_map_to_list. Qed.

Lemma rangeMap_to_map m : list_to_map (rangeMap ro m) = m.
Proof.
  rewrite (list_to_map_proper _ (map_to_list m)).
  - apply list_to_map_to_list.
  - apply rangeMap_NoDup.
  - apply rangeMap_perm.
Qed.

Lemma rangeMap_nil m : rangeMap ro m = [] <-> m = ∅.
Proof.
  split; intros E.
  - rewrite <- (rangeMap_to_map m), E. reflexivity.
  - subst m. pose proof (rangeMap_perm ro K V ∅) as Hp.
    rewrite map_to_list_empty in Hp. apply Permutation_nil_r in Hp. exact Hp.
Qed.
End range_facts.

Section foldl_keyed.
Context `{Countable K} {E St P : Type}.
Variables (f : St -> K * E -> St) (proj : St -> P) (k : K).
Hypothesis f_same : forall st st' e,
  proj st = proj st' -> proj (f st (k, e)) = proj (f st' (k, e)).
Hypothesis f_other : forall st k' e, k' <> k -> proj (f st (k', e)) = proj st.

Lemma foldl_keyed_absent l st : k ∉ l.*1 -> proj (foldl f st l) = proj st.
Proof.
  revert st. induction l as [|[k' e] l IH]; intros st Hk; [reflexivity|].
  cbn [foldl]. rewrite fmap_cons, not_elem_of_cons in Hk. destruct Hk as [Hne Hk].
  rewrite IH by assumption. apply f_other. cbn in Hne. congruence.
Qed.

Lemma foldl_keyed l st :
  NoDup l.*1 ->
  proj (foldl f st l) =
  match (list_to_map l : gmap K E) !! k with
  | Some e => proj (f st (k, e))
  | None => proj st
  end.
Proof.
  revert st. induction l as [|[k' e] l IH]; intros st Hnd; [reflexivity|].
  rewrite fmap_cons, NoDup_cons in Hnd. destruct Hnd as [Hk' Hnd].
  cbn [foldl list_to_map foldr uncurry curry fst snd].
  destruct (decide (k' = k)) as [->|Hne].
  - rewrite lookup_insert_eq. apply foldl_keyed_absent. exact Hk'.
  - rewrite lookup_insert_ne by assumption. rewrite IH by assumption.
    destruct (list_to_map l !! k) as [e'|].
    + apply f_same, f_other. assumption.
    + apply f_other. assumption.
Qed.
End foldl_keyed.

Section engine_loops.
Context {Offset : Type}.
Variable MatchString : string -> string -> bool.
Variable ro : RangeOrder.

Lemma stagePartitions_lookup_gen parts (o : Offset) (m : gmap Z Offset) q :
  foldl (fun toUseTopic partition => <[partition := o]> toUseTopic) m parts !! q =
  if decide (q ∈ parts) then Some o else m !! q.
Proof.
  revert m. induction parts as [|x parts IH]; intros m; cbn [foldl].
  - rewrite decide_False by apply not_elem_of_nil. reflexivity.
  - rewrite IH. destruct (decide (q ∈ parts)) as [Hin|Hnin].
    + rewrite decide_True by (rewrite elem_of_cons; tauto). reflexivity.
    + destruct (decide (q = x)) as [->|Hne].
      * rewrite decide_True by apply list_elem_of_here. apply lookup_insert_eq.
      * rewrite decide_False by (rewrite elem_of_cons; tauto).
        apply lookup_insert_ne. congruence.
Qed.

Lemma stagePartitions_lookup parts (o : Offset) q :
  stagePartitions parts o !! q = if decide (q ∈ parts) then Some o else None.
Proof. unfold stagePartitions. rewrite stagePartitions_lookup_gen. reflexivity. Qed.

Lemma overlayPins_lookup_ne topic pins (toUse : gmap string (gmap Z Offset)) topic' :
  topic' <> topic -> overlayPins topic pins toUse !! topic' = toUse !! topic'.
Proof.
  intros Hne. unfold overlayPins. revert toUse.
  induction pins as [|[p o] pins IH]; intros toUse; cbn [foldl]; [reflexivity|].
  rewrite IH. apply lookup_insert_ne. congruence.
Qed.

Lemma overlayPins_lookup topic pins (toUse : gmap string (gmap Z Offset)) :
  overlayPins topic pins toUse !! topic = overlayAt pins (toUse !! topic).
Proof.
  unfold overlayPins, overlayAt. revert toUse.
  induction pins as [|[p o] pins IH]; intros toUse; cbn [foldl]; [reflexivity|].
  rewrite IH, lookup_insert_eq. reflexivity.
Qed.

Lemma overlayAt_range (pins : gmap Z Offset) (tu : option (gmap Z Offset)) :
  overlayAt (rangeMap ro pins) tu =
  if decide (pins = ∅) then tu else Some (pins ∪ default ∅ tu).
Proof.
  assert (forall (l : list (Z * Offset)) tu, NoDup l.*1 ->
            overlayAt l tu =
            if decide (l = []) then tu else Some (list_to_map l ∪ default ∅ tu)) as Hgen.
  { clear. induction l as [|[p o] l IH]; intros tu Hnd; [reflexivity|].
    rewrite fmap_cons, NoDup_cons in Hnd. destruct Hnd as [Hp Hnd].
    unfold overlayAt in *. cbn [foldl]. rewrite IH by assumption.
    rewrite (decide_False (P := (_ :: _ = []))) by discriminate.
    cbn [list_to_map foldr uncurry curry fst snd default].
    destruct (decide (l = [])) as [->|_].
    - cbn. f_equal. rewrite insert_empty. apply insert_union_singleton_l.
    - simpl. f_equal. rewrite <- insert_union_r, insert_union_l; [reflexivity|].
      apply not_elem_of_list_to_map_1. exact Hp. }
  rewrite Hgen by apply rangeMap_NoDup. rewrite rangeMap_to_map.
  destruct (decide (pins = ∅)) as [Hp|Hp].
  - rewrite decide_True by (by apply rangeMap_nil). reflexivity.
  - rewrite decide_False by (by rewrite rangeMap_nil). reflexivity.
Qed.

Lemma subtract_partitions_lookup (u : gmap Z ()) (tm : gmap Z Offset) p :
  foldl (fun toUseTopic '(partition, _) => delete partition toUseTopic) tm
        (rangeMap ro u) !! p =
  match u !! p with Some _ => None | None => tm !! p end.
Proof.
  rewrite (foldl_keyed (fun toUseTopic '(partition, _) => delete partition toUseTopic)
             (fun m => m !! p) p).
  - rewrite rangeMap_to_map. destruct (u !! p); [apply lookup_delete_eq|reflexivity].
  - intros st st' e _. rewrite !lookup_delete_eq. reflexivity.
  - intros st k' e Hne. apply lookup_delete_ne. exact Hne.
  - apply rangeMap_NoDup.
Qed.

Lemma merge_partitions_lookup (tm : gmap Z Offset) (tu : gmap Z ()) p :
  foldl (fun topicUsing '(partition, _) => <[partition := ()]> topicUsing) tu
        (rangeMap ro tm) !! p =
  match tm !! p with Some _ => Some () | None => tu !! p end.
Proof.
  rewrite (foldl_keyed (fun topicUsing '(partition, _) => <[partition := ()]> topicUsing)
             (fun m => m !! p) p).
  - rewrite rangeMap_to_map. destruct (tm !! p); [apply lookup_insert_eq|reflexivity].
  - intros st st' e _. rewrite !lookup_insert_eq. reflexivity.
  - intros st k' e Hne. apply lookup_insert_ne. exact Hne.
  - apply rangeMap_NoDup.
Qed.


Lemma subtract_lookup (us : gmap string (gmap Z ())) (toUse : gmap string (gmap Z Offset)) T :
  foldl (subtractTopic ro) toUse (rangeMap ro us) !! T =
  match us !! T, toUse !! T with
  | Some u, Some tm =>
      if (size u =? size tm)%nat then None
      else Some (foldl (fun toUseTopic '(partition, _) => delete partition toUseTopic)
                       tm (rangeMap ro u))
  | _, tu => tu
  end.
Proof.
  rewrite (foldl_keyed (subtractTopic ro) (fun m => m !! T) T).
  - rewrite rangeMap_to_map. destruct (us !! T) as [u|]; [|reflexivity].
    unfold subtractTopic. destruct (toUse !! T) as [tm|] eqn:E; [|exact E].
    destruct (size u =? size tm)%nat; [apply lookup_delete_eq|apply lookup_insert_eq].
  - intros st st' u E. unfold subtractTopic. rewrite <- E.
    destruct (st !! T) as [tm|] eqn:E'; [|congruence].
    destruct (size u =? size tm)%nat; rewrite ?lookup_delete_eq, ?lookup_insert_eq;
      reflexivity.
  - intros st T' u Hne. unfold subtractTopic.
    destruct (st !! T') as [tm|]; [|reflexivity].
    destruct (size u =? size tm)%nat;
      [apply lookup_delete_ne|apply lookup_insert_ne]; exact Hne.
  - apply rangeMap_NoDup.
Qed.

Lemma merge_lookup (us : gmap string (gmap Z ())) (toUse : gmap string (gmap Z Offset)) T :
  foldl (mergeTopic ro) us (rangeMap ro toUse) !! T =
  match toUse !! T with
  | Some tm =>
      Some (foldl (fun topicUsing '(partition, _) => <[partition := ()]> topicUsing)
                  (default ∅ (us !! T)) (rangeMap ro tm))
  | None => us !! T
  end.
Proof.
  rewrite (foldl_keyed (mergeTopic ro) (fun m => m !! T) T).
  - rewrite rangeMap_to_map. destruct (toUse !! T) as [tm|]; [|reflexivity].
    unfold mergeTopic. apply lookup_insert_eq.
  - intros st st' tm E. unfold mergeTopic. rewrite !lookup_insert_eq, E. reflexivity.
  - intros st T' tm Hne. unfold mergeTopic. apply lookup_insert_ne. exact Hne.
  - apply rangeMap_NoDup.
Qed.

Lemma matchPatterns_tested (pats : list (string * Offset)) T :
  Forall (fun x => x.2 = T) (matchPatterns MatchString pats T).2.
Proof.
  induction pats as [|[reTopic offset] pats IH]; cbn [matchPatterns]; [constructor|].
  destruct (MatchString reTopic T).
  - repeat constructor.
  - destruct (matchPatterns MatchString pats T) as [use tested]. constructor; [reflexivity|].
    exact IH.
Qed.

Lemma testsOf_all T tr : Forall (fun x => x.2 = T) tr -> testsOf T tr = tr.
Proof.
  induction 1 as [|x tr Hx _ IH]; [reflexivity|].
  unfold testsOf in *. rewrite filter_cons_True by exact Hx. by rewrite IH.
Qed.

Lemma testsOf_none T T' tr : T' <> T -> Forall (fun x => x.2 = T) tr -> testsOf T' tr = [].
Proof.
  intros Hne. induction 1 as [|x tr Hx _ IH]; [reflexivity|].
  unfold testsOf in *. rewrite filter_cons_False by congruence. exact IH.
Qed.

Lemma testsOf_app T tr tr' : testsOf T (tr ++ tr') = testsOf T tr ++ testsOf T tr'.
Proof. apply filter_app. Qed.

Lemma wantTopic_at (d : directConsumer Offset) T :
  let r := wantTopic MatchString ro d T in
  (r.1.1, reTopics r.1.2 !! T, reIgnore r.1.2 !! T, r.2) =
    wantAt MatchString ro (topics d) (regexTopics d) (reTopics d !! T) (reIgnore d !! T) T /\
  topics r.1.2 = topics d /\ partitions r.1.2 = partitions d /\
  regexTopics r.1.2 = regexTopics d /\ using_ r.1.2 = using_ d /\
  (forall T', T' <> T ->
     reTopics r.1.2 !! T' = reTopics d !! T' /\ reIgnore r.1.2 !! T' = reIgnore d !! T') /\
  Forall (fun x => x.2 = T) r.2.
Proof.
  unfold wantTopic, wantAt. destruct (regexTopics d) eqn:Hrx.
  - destruct (reTopics d !! T) as [o|] eqn:Hrt.
    { cbn. rewrite Hrt. repeat split; try reflexivity; try assumption. constructor. }
    destruct (reIgnore d !! T) as [[]|] eqn:Hri.
    { cbn. rewrite Hrt, Hri. repeat split; try reflexivity; try assumption. constructor. }
    pose proof (matchPatterns_tested (rangePatterns ro T (topics d)) T) as Htested.
    destruct (matchPatterns MatchString (rangePatterns ro T (topics d)) T)
      as [[o|] tested]; cbn in *.
    + rewrite lookup_insert_eq, Hri.
      repeat split; try reflexivity; try assumption.
      apply lookup_insert_ne. congruence.
    + rewrite lookup_insert_eq, Hrt.
      repeat split; try reflexivity; try assumption.
      apply lookup_insert_ne. congruence.
  - cbn. repeat split; try reflexivity; try assumption. constructor.
Qed.

Lemma stageTopic_same
    (st : directConsumer Offset * gmap string (gmap Z Offset) * list (string * string))
    T parts :
  projAt T (stageTopic MatchString ro st (T, parts)) =
  stageAt MatchString ro T parts (projAt T st).
Proof.
  destruct st as [[d toUse] trace]. unfold stageTopic, stageAt, projAt.
  destruct (wantTopic_at d T) as (Hat & Htp & Hps & Hrx & Hus & _ & Htested).
  destruct (wantTopic MatchString ro d T) as [[use d'] tested]. cbn in *.
  rewrite <- Hat, Htp, Hps, Hrx, Hus.
  rewrite overlayPins_lookup, testsOf_app, (testsOf_all T tested) by assumption.
  destruct use; rewrite ?lookup_insert_eq; reflexivity.
Qed.

Lemma stageTopic_other
    (st : directConsumer Offset * gmap string (gmap Z Offset) * list (string * string))
    T T' parts :
  T' <> T ->
  projAt T (stageTopic MatchString ro st (T', parts)) = projAt T st.
Proof.
  intros Hne. destruct st as [[d toUse] trace]. unfold stageTopic, projAt.
  destruct (wantTopic_at d T') as (_ & Htp & Hps & Hrx & Hus & Hother & Htested).
  destruct (Hother T) as [Hrt Hri]; [congruence|].
  destruct (wantTopic MatchString ro d T') as [[use d'] tested]. cbn in *.
  rewrite Htp, Hps, Hrx, Hus, Hrt, Hri.
  rewrite overlayPins_lookup_ne by congruence.
  rewrite testsOf_app, (testsOf_none T' T tested), app_nil_r by (congruence || assumption).
  destruct use; rewrite ?lookup_insert_ne by congruence; reflexivity.
Qed.

Lemma stage_projAt
    (st : directConsumer Offset * gmap string (gmap Z Offset) * list (string * string))
    (topo : gmap string (list Z)) T :
  projAt T (foldl (stageTopic MatchString ro) st (rangeMap ro topo)) =
  match topo !! T with
  | Some parts => stageAt MatchString ro T parts (projAt T st)
  | None => projAt T st
  end.
Proof.
  rewrite (foldl_keyed (stageTopic MatchString ro) (projAt T) T).
  - rewrite rangeMap_to_map. destruct (topo !! T); [apply stageTopic_same|reflexivity].
  - intros st1 st2 parts E. rewrite !stageTopic_same, E. reflexivity.
  - intros st1 T' parts Hne. apply stageTopic_other. exact Hne.
  - apply rangeMap_NoDup.
Qed.

End engine_loops.

Section engine_calls.
Context {Offset : Type}.
Variable MatchString : string -> string -> bool.
Implicit Types d : directConsumer Offset.

Lemma findNewAssignments_staged ro d topo :
  findNewAssignments MatchString ro d topo =
  let st := staged MatchString ro d topo in
  let toUse := foldl (subtractTopic ro) st.1.2 (rangeMap ro (using_ st.1.1)) in
  if (size toUse =? 0)%nat then (None, st.1.1, st.2)
  else (Some toUse,
        set_using (foldl (mergeTopic ro) (using_ st.1.1) (rangeMap ro toUse)) st.1.1,
        st.2).
Proof.
  unfold findNewAssignments, staged.
  destruct (foldl _ _ _) as [[d1 toUse] trace]. reflexivity.
Qed.

Lemma staged_at ro d topo T :
  let st := staged MatchString ro d topo in
  topics st.1.1 = topics d /\ partitions st.1.1 = partitions d /\
  regexTopics st.1.1 = regexTopics d /\ using_ st.1.1 = using_ d /\
  match topo !! T with
  | Some parts =>
      let w := wantAt MatchString ro (topics d) (regexTopics d)
                 (reTopics d !! T) (reIgnore d !! T) T in
      reTopics st.1.1 !! T = w.1.1.2 /\ reIgnore st.1.1 !! T = w.1.2 /\
      testsOf T st.2 = w.2 /\
      st.1.2 !! T =
        overlayAt (rangeMap ro (default ∅ (partitions d !! T)))
          (match w.1.1.1 with
           | Some useOffset => Some (stagePartitions parts useOffset)
           | None => None
           end)
  | None =>
      reTopics st.1.1 !! T = reTopics d !! T /\ reIgnore st.1.1 !! T = reIgnore d !! T /\
      testsOf T st.2 = [] /\ st.1.2 !! T = None
  end.
Proof.
  pose proof (stage_projAt MatchString ro (d, ∅, []) topo T) as Hp.
  unfold staged. destruct (foldl _ _ _) as [[d1 toUse] trace].
  cbn [projAt] in Hp. cbn [fst snd].
  destruct (topo !! T) as [parts|].
  - cbn [stageAt] in Hp.
    destruct (wantAt _ _ _ _ _ _ _) as [[[use rt'] ri'] tested].
    rewrite lookup_empty in Hp. cbn in Hp. cbn [fst snd].
    injection Hp as -> -> -> -> -> -> -> ->. repeat split; reflexivity.
  - rewrite lookup_empty in Hp. cbn in Hp.
    injection Hp as -> -> -> -> -> -> -> ->. repeat split; reflexivity.
Qed.

Lemma usingGrows_refl (us : gmap string (gmap Z ())) : usingGrows us us.
Proof. intros T s Hs. exists s. split; [exact Hs|reflexivity]. Qed.

Lemma usingGrows_trans (a b c : gmap string (gmap Z ())) :
  usingGrows a b -> usingGrows b c -> usingGrows a c.
Proof.
  intros Hab Hbc T s Hs. destruct (Hab T s Hs) as (s' & Hs' & Hsub).
  destruct (Hbc T s' Hs') as (s'' & Hs'' & Hsub'). exists s''.
  split; [exact Hs''|]. etrans; eassumption.
Qed.

Lemma usingGrows_inUsing (us us' : gmap string (gmap Z ())) T p :
  usingGrows us us' -> inUsing us T p -> inUsing us' T p.
Proof.
  intros Hg (s & Hs & [x Hp]). destruct (Hg T s Hs) as (s' & Hs' & Hsub).
  exists s'. split; [exact Hs'|]. exists x.
  eapply lookup_weaken; eassumption.
Qed.

Lemma findNewAssignments_usingGrows ro d topo :
  usingGrows (using_ d) (using_ (findNewAssignments MatchString ro d topo).1.2).
Proof.
  rewrite findNewAssignments_staged. cbv zeta.
  destruct (staged_at ro d topo "") as (_ & _ & _ & Hus & _).
  destruct (size _ =? 0)%nat; cbn [fst snd]; [rewrite Hus; apply usingGrows_refl|].
  cbn [set_using using_]. rewrite Hus.
  intros T s Hs. rewrite merge_lookup.
  destruct (foldl (subtractTopic ro) _ _ !! T) as [tm|];
    [|exists s; split; [exact Hs|reflexivity]].
  eexists. split; [reflexivity|]. rewrite Hs. cbn [default from_option id].
  apply map_subseteq_spec. intros p [] Hp. rewrite merge_partitions_lookup.
  destruct (tm !! p); [reflexivity|exact Hp].
Qed.

Lemma findNewAssignments_no_reoffer ro d topo T p :
  inUsing (using_ d) T p ->
  ~ inDelta (findNewAssignments MatchString ro d topo).1.1 T p.
Proof.
  intros (s & Hs & Hp) (m & tm & Hdelta & Hm & Htm).
  rewrite findNewAssignments_staged in Hdelta. cbv zeta in Hdelta.
  destruct (staged_at ro d topo "") as (_ & _ & _ & Hus & _).
  destruct (size _ =? 0)%nat; cbn [fst snd] in Hdelta; [discriminate|].
  injection Hdelta as <-. rewrite Hus, subtract_lookup, Hs in Hm.
  destruct ((staged MatchString ro d topo).1.2 !! T) as [tm0|]; [|discriminate].
  destruct (size s =? size tm0)%nat; [discriminate|].
  injection Hm as <-. rewrite subtract_partitions_lookup in Htm.
  destruct Hp as [x Hp]. rewrite Hp in Htm. destruct Htm as [? ?]. discriminate.
Qed.

(** What the nil test does decide: a nil delta leaves the using map as it
    was, and a delta that is returned holds at least one topic. *)
Lemma findNewAssignments_nil_using ro d topo :
  (findNewAssignments MatchString ro d topo).1.1 = None ->
  using_ (findNewAssignments MatchString ro d topo).1.2 = using_ d.
Proof.
  rewrite findNewAssignments_staged. cbv zeta.
  destruct (staged_at ro d topo "") as (_ & _ & _ & Hus & _).
  destruct (size _ =? 0)%nat; cbn [fst snd]; [intros _; exact Hus|discriminate].
Qed.

Lemma findNewAssignments_delta_topics ro d topo delta :
  (findNewAssignments MatchString ro d topo).1.1 = Some delta -> delta <> ∅.
Proof.
  rewrite findNewAssignments_staged. cbv zeta.
  destruct (size _ =? 0)%nat eqn:Hsize; cbn [fst snd]; [discriminate|].
  intros [= <-] Hempty. rewrite Hempty in Hsize. discriminate.
Qed.

Lemma reconcileAll_usingGrows d calls :
  usingGrows (using_ d) (using_ (reconcileAll MatchString d calls)).
Proof.
  revert d. induction calls as [|[ro topo] calls IH]; intros d.
  - apply usingGrows_refl.
  - cbn [reconcileAll foldl]. eapply usingGrows_trans; [|apply IH].
    apply findNewAssignments_usingGrows.
Qed.

(** Claim C6 (the Using Set only grows). From any consumer, after any
    sequence of reconciliations, each with its own topology and iteration
    orders: every topic of the using map is still there with at least the
    partitions it had; and a (topic, partition) pair that was in the using
    map is still in it and is in the delta of no later call, whatever the
    topology of that call. *)
Theorem using_set_monotone d calls :
  usingGrows (using_ d) (using_ (reconcileAll MatchString d calls)) /\
  forall T p, inUsing (using_ d) T p ->
    inUsing (using_ (reconcileAll MatchString d calls)) T p /\
    forall ro topo,
      ~ inDelta (findNewAssignments MatchString ro (reconcileAll MatchString d calls) topo).1.1
          T p.
Proof.
  split; [apply reconcileAll_usingGrows|].
  intros T p Hin.
  assert (inUsing (using_ (reconcileAll MatchString d calls)) T p) as Hin'
    by (eapply usingGrows_inUsing; [apply reconcileAll_usingGrows|exact Hin]).
  split; [exact Hin'|]. intros ro topo. by apply findNewAssignments_no_reoffer.
Qed.


Lemma findNewAssignments_partitions ro d topo :
  partitions (findNewAssignments MatchString ro d topo).1.2 = partitions d.
Proof.
  rewrite findNewAssignments_staged. cbv zeta.
  destruct (staged_at ro d topo "") as (_ & Hps & _).
  destruct (size _ =? 0)%nat; exact Hps.
Qed.

Lemma staged_pins ro d topo T tm pins p :
  (staged MatchString ro d topo).1.2 !! T = Some tm ->
  partitions d !! T = Some pins -> is_Some (pins !! p) -> is_Some (tm !! p).
Proof.
  intros Htm Hpins [o Hp].
  destruct (staged_at ro d topo T) as (_ & _ & _ & _ & Hat).
  destruct (topo !! T) as [parts|]; cbv zeta in Hat.
  - destruct Hat as (_ & _ & _ & Hst). rewrite Hst, Hpins in Htm.
    cbn [default from_option id] in Htm. rewrite overlayAt_range in Htm.
    destruct (decide (pins = ∅)) as [->|_]; [rewrite lookup_empty in Hp; discriminate|].
    injection Htm as <-. exists o. apply lookup_union_Some_l. exact Hp.
  - destruct Hat as (_ & _ & _ & Hst). congruence.
Qed.

Lemma findNewAssignments_pinsInUse ro d topo :
  pinsInUse d -> pinsInUse (findNewAssignments MatchString ro d topo).1.2.
Proof.
  intros Hinv T s pins Hs Hpins p Hp.
  rewrite findNewAssignments_partitions in Hpins.
  rewrite findNewAssignments_staged in Hs. cbv zeta in Hs.
  destruct (staged_at ro d topo "") as (_ & _ & _ & Hus & _).
  destruct (size _ =? 0)%nat; cbn [fst snd] in Hs.
  { rewrite Hus in Hs. eapply Hinv; eassumption. }
  cbn [set_using using_] in Hs. rewrite Hus, merge_lookup in Hs.
  destruct (foldl (subtractTopic ro) _ _ !! T) as [tm|] eqn:Hpost.
  - injection Hs as <-. rewrite merge_partitions_lookup.
    destruct (tm !! p) eqn:Htp; [eauto|].
    destruct (using_ d !! T) as [s0|] eqn:Hs0.
    + cbn. eapply Hinv; eassumption.
    + rewrite subtract_lookup, Hs0 in Hpost.
      destruct (staged_pins ro d topo T tm pins p Hpost Hpins Hp). congruence.
  - eapply Hinv; eassumption.
Qed.

Lemma reachable_pinsInUse d : reachable MatchString d -> pinsInUse d.
Proof.
  induction 1 as [tp ps rx|ro d topo _ IH].
  - intros T s pins Hs. cbn in Hs. rewrite lookup_empty in Hs. discriminate.
  - apply findNewAssignments_pinsInUse. exact IH.
Qed.

Lemma wanted_wantAt ro d T :
  wanted MatchString ro d T =
  (wantAt MatchString ro (topics d) (regexTopics d) (reTopics d !! T) (reIgnore d !! T) T).1.1.1.
Proof.
  unfold wanted. destruct (wantTopic_at MatchString ro d T) as [Hat _].
  rewrite <- Hat. reflexivity.
Qed.

Lemma wanted_lookup ro d T :
  regexTopics d = false -> wanted MatchString ro d T = topics d !! T.
Proof. intros Hrx. unfold wanted, wantTopic. rewrite Hrx. reflexivity. Qed.

(** Claim C8 (pin precedence). For a consumer that [AssignPartitions] and
    reconciliations can produce, a topic [T] of the topology and a
    partition [p] pinned at [o_p] that is not yet in the Using Set: the
    call returns a delta, the delta stages [(T, p)] at [o_p], every pinned
    partition of [T] at its pin, every visible partition of [T] that is not
    pinned at the topic-level offset when the topic/regex lookup wants [T];
    when the lookup does not want [T] the delta stages exactly the pins. *)
Theorem pin_precedence ro d topo T parts pins p o_p :
  reachable MatchString d ->
  topo !! T = Some parts ->
  partitions d !! T = Some pins ->
  pins !! p = Some o_p ->
  ~ inUsing (using_ d) T p ->
  exists delta tm,
    (findNewAssignments MatchString ro d topo).1.1 = Some delta /\
    delta !! T = Some tm /\
    tm !! p = Some o_p /\
    (forall q o_q, pins !! q = Some o_q -> tm !! q = Some o_q) /\
    (forall o_t, wanted MatchString ro d T = Some o_t ->
       forall q, q ∈ parts -> pins !! q = None -> tm !! q = Some o_t) /\
    (wanted MatchString ro d T = None -> tm = pins).
Proof.
  intros Hreach Htopo Hpins Hp Hnot.
  assert (using_ d !! T = None) as Hus0.
  { destruct (using_ d !! T) as [s|] eqn:Hs; [|reflexivity]. exfalso. apply Hnot.
    exists s. split; [exact Hs|].
    eapply (reachable_pinsInUse d Hreach); eauto. }
  rewrite findNewAssignments_staged. cbv zeta.
  destruct (staged_at ro d topo T) as (_ & _ & _ & Hus & Hat).
  rewrite Htopo in Hat. cbv zeta in Hat. destruct Hat as (_ & _ & _ & Hst).
  rewrite <- wanted_wantAt, Hpins in Hst. cbn [default from_option id] in Hst.
  rewrite overlayAt_range in Hst.
  rewrite decide_False in Hst by (intros ->; rewrite lookup_empty in Hp; discriminate).
  set (toUse := foldl (subtractTopic ro) _ _).
  assert (toUse !! T = (staged MatchString ro d topo).1.2 !! T) as Hpost.
  { subst toUse. rewrite Hus, subtract_lookup, Hus0. reflexivity. }
  rewrite Hst in Hpost.
  destruct (size toUse =? 0)%nat eqn:Hsize.
  { apply Nat.eqb_eq, map_size_empty_iff in Hsize. rewrite Hsize, lookup_empty in Hpost.
    discriminate. }
  cbn [fst snd]. eexists _, _. split; [reflexivity|]. split; [exact Hpost|].
  split; [by apply lookup_union_Some_l|].
  split; [intros q o_q Hq; by apply lookup_union_Some_l|].
  split.
  - intros o_t Hw q Hq Hunpinned. rewrite Hw. cbn.
    rewrite lookup_union_r by exact Hunpinned.
    rewrite stagePartitions_lookup, decide_True by exact Hq. reflexivity.
  - intros ->. cbn. apply (right_id ∅ (∪)).
Qed.


Lemma matchPatterns_inOrder (pats : list (string * Offset)) T :
  testedInOrder MatchString pats T
    (matchPatterns MatchString pats T).2 (matchPatterns MatchString pats T).1.
Proof.
  induction pats as [|[reTopic offset] pats IH]; cbn [matchPatterns].
  - right. split; [|split; reflexivity]. intros j r o Hj. discriminate.
  - destruct (MatchString reTopic T) eqn:Hm.
    + left. exists 0%nat, reTopic, offset. split; [reflexivity|]. split; [exact Hm|].
      split; [intros j r o Hj; lia|]. split; reflexivity.
    + destruct (matchPatterns MatchString pats T) as [use tested]. cbn [fst snd] in *.
      destruct IH as [(i & r & o & Hi & Hr & Hbefore & -> & ->)|(Hnone & -> & ->)].
      * left. exists (S i), r, o. split; [exact Hi|]. split; [exact Hr|].
        split; [|split; reflexivity].
        intros [|j] r' o' Hj Hl; [injection Hl as <- <-; exact Hm|].
        apply (Hbefore j r' o'); [lia|exact Hl].
      * right. split; [|split; reflexivity].
        intros [|j] r' o' Hl; [injection Hl as <- <-; exact Hm|].
        apply (Hnone j r' o'). exact Hl.
Qed.

Lemma findNewAssignments_caches ro d topo T :
  let r := findNewAssignments MatchString ro d topo in
  match topo !! T with
  | Some parts =>
      let w := wantAt MatchString ro (topics d) (regexTopics d)
                 (reTopics d !! T) (reIgnore d !! T) T in
      reTopics r.1.2 !! T = w.1.1.2 /\ reIgnore r.1.2 !! T = w.1.2 /\
      testsOf T r.2 = w.2
  | None =>
      reTopics r.1.2 !! T = reTopics d !! T /\ reIgnore r.1.2 !! T = reIgnore d !! T /\
      testsOf T r.2 = []
  end.
Proof.
  rewrite findNewAssignments_staged. cbv zeta.
  destruct (staged_at ro d topo T) as (_ & _ & _ & _ & Hat).
  destruct (topo !! T) as [parts|]; cbv zeta in Hat;
    destruct Hat as (Hrt & Hri & Htr & _);
    destruct (size _ =? 0)%nat; cbn [fst snd set_using reTopics reIgnore];
    repeat split; assumption.
Qed.

Lemma memoized_persists ro d topo T :
  memoized d T ->
  memoized (findNewAssignments MatchString ro d topo).1.2 T /\
  testsOf T (findNewAssignments MatchString ro d topo).2 = [].
Proof.
  intros Hmemo. pose proof (findNewAssignments_caches ro d topo T) as Hc.
  cbv zeta in Hc. unfold memoized in *.
  destruct (topo !! T) as [parts|]; destruct Hc as (Hrt & Hri & Htr);
    rewrite Hrt, Hri, Htr; [|split; [exact Hmemo|reflexivity]].
  unfold wantAt. destruct (regexTopics d); [|split; [exact Hmemo|reflexivity]].
  destruct (reTopics d !! T) as [o|]; [split; [left; eauto|reflexivity]|].
  destruct (reIgnore d !! T) as [[]|]; [split; [right; eauto|reflexivity]|].
  destruct Hmemo as [[? ?]|[? ?]]; discriminate.
Qed.

Lemma memoized_reconcileAll d calls T :
  memoized d T -> memoized (reconcileAll MatchString d calls) T.
Proof.
  revert d. induction calls as [|[ro topo] calls IH]; intros d Hmemo; [exact Hmemo|].
  cbn [reconcileAll foldl]. apply IH. by apply memoized_persists.
Qed.

(** Claim C4, as amended (regex memoization). In regex mode, for a topic
    [T] of the topology that is in neither memo cache, the tests run on [T]
    are those of the configured patterns in the order in which this call
    iterates over the [topics] map, up to and including the first match;
    the topic is wanted at that first match's offset; the outcome is
    memoized (match into [reTopics], no match into [reIgnore]); and in no
    later reconciliation, after any number of calls, is [T] tested again. *)
Theorem regex_memoization ro d topo T parts :
  regexTopics d = true ->
  topo !! T = Some parts ->
  reTopics d !! T = None ->
  reIgnore d !! T = None ->
  let r := findNewAssignments MatchString ro d topo in
  exists use,
    testedInOrder MatchString (rangePatterns ro T (topics d)) T (testsOf T r.2) use /\
    wanted MatchString ro d T = use /\
    match use with
    | Some offset => reTopics r.1.2 !! T = Some offset
    | None => reIgnore r.1.2 !! T = Some ()
    end /\
    forall calls ro' topo',
      testsOf T (findNewAssignments MatchString ro'
                   (reconcileAll MatchString r.1.2 calls) topo').2 = [].
Proof.
  intros Hrx Htopo Hrt Hri r.
  pose proof (findNewAssignments_caches ro d topo T) as Hc. cbv zeta in Hc.
  fold r in Hc. rewrite Htopo, Hrx, Hrt, Hri in Hc.
  pose proof (wanted_wantAt ro d T) as Hw. rewrite Hrx, Hrt, Hri in Hw.
  pose proof (matchPatterns_inOrder (rangePatterns ro T (topics d)) T) as Hord.
  unfold wantAt in Hc, Hw.
  destruct (matchPatterns MatchString (rangePatterns ro T (topics d)) T)
    as [[o|] tested]; cbn [fst snd] in *; destruct Hc as (Hrt' & Hri' & Htr).
  - exists (Some o). rewrite Htr. split; [exact Hord|]. split; [exact Hw|].
    split; [exact Hrt'|]. intros calls ro' topo'.
    apply memoized_persists, memoized_reconcileAll. left. rewrite Hrt'. eauto.
  - exists None. rewrite Htr. split; [exact Hord|]. split; [exact Hw|].
    split; [exact Hri'|]. intros calls ro' topo'.
    apply memoized_persists, memoized_reconcileAll. right. rewrite Hri'. eauto.
Qed.

End engine_calls.

(** *** The iteration order of the loops does not matter *)

Section order_irrelevance.
Context {Offset : Type}.
Variable MatchString : string -> string -> bool.
Implicit Types d : directConsumer Offset.

Lemma wantAt_order ro ro' d T :
  samePatternOrder ro ro' d ->
  wantAt MatchString ro (topics d) (regexTopics d) (reTopics d !! T) (reIgnore d !! T) T =
  wantAt MatchString ro' (topics d) (regexTopics d) (reTopics d !! T) (reIgnore d !! T) T.
Proof.
  intros Hsame. unfold wantAt. destruct (regexTopics d) eqn:Hrx; [|reflexivity].
  rewrite (Hsame Hrx T). reflexivity.
Qed.

Lemma subtract_partitions_order ro ro' (u : gmap Z ()) (tm : gmap Z Offset) :
  foldl (fun toUseTopic '(partition, _) => delete partition toUseTopic) tm (rangeMap ro u) =
  foldl (fun toUseTopic '(partition, _) => delete partition toUseTopic) tm (rangeMap ro' u).
Proof. apply map_eq. intros p. rewrite !subtract_partitions_lookup. reflexivity. Qed.

Lemma merge_partitions_order ro ro' (tm : gmap Z Offset) (tu : gmap Z ()) :
  foldl (fun topicUsing '(partition, _) => <[partition := ()]> topicUsing) tu (rangeMap ro tm) =
  foldl (fun topicUsing '(partition, _) => <[partition := ()]> topicUsing) tu (rangeMap ro' tm).
Proof. apply map_eq. intros p. rewrite !merge_partitions_lookup. reflexivity. Qed.

Lemma staged_order ro ro' d topo :
  samePatternOrder ro ro' d ->
  (staged MatchString ro d topo).1.2 = (staged MatchString ro' d topo).1.2 /\
  reTopics (staged MatchString ro d topo).1.1 = reTopics (staged MatchString ro' d topo).1.1 /\
  reIgnore (staged MatchString ro d topo).1.1 = reIgnore (staged MatchString ro' d topo).1.1.
Proof.
  intros Hsame.
  assert (forall T,
    (staged MatchString ro d topo).1.2 !! T = (staged MatchString ro' d topo).1.2 !! T /\
    reTopics (staged MatchString ro d topo).1.1 !! T =
      reTopics (staged MatchString ro' d topo).1.1 !! T /\
    reIgnore (staged MatchString ro d topo).1.1 !! T =
      reIgnore (staged MatchString ro' d topo).1.1 !! T) as Hall.
  { intros T.
    destruct (staged_at MatchString ro d topo T) as (_ & _ & _ & _ & H1).
    destruct (staged_at MatchString ro' d topo T) as (_ & _ & _ & _ & H2).
    rewrite <- (wantAt_order ro ro' d T Hsame) in H2.
    destruct (topo !! T) as [parts|]; cbv zeta in H1, H2;
      destruct H1 as (-> & -> & _ & ->); destruct H2 as (-> & -> & _ & ->);
      [|repeat split; reflexivity].
    rewrite !overlayAt_range. repeat split; reflexivity. }
  repeat split; apply map_eq; intros T; apply Hall.
Qed.

(** The delta and the consumer that a reconciliation returns do not depend
    on the order in which its loops iterate over the maps, the order of the
    patterns in regex mode apart. *)
Lemma findNewAssignments_order ro ro' d topo :
  samePatternOrder ro ro' d ->
  (findNewAssignments MatchString ro d topo).1 =
  (findNewAssignments MatchString ro' d topo).1.
Proof.
  intros Hsame. rewrite !findNewAssignments_staged. cbv zeta.
  destruct (staged_order ro ro' d topo Hsame) as (Htu & Hrt & Hri).
  destruct (staged_at MatchString ro d topo "") as (Htp & Hps & Hrx & Hus & _).
  destruct (staged_at MatchString ro' d topo "") as (Htp' & Hps' & Hrx' & Hus' & _).
  assert ((staged MatchString ro d topo).1.1 = (staged MatchString ro' d topo).1.1) as Hd.
  { destruct (staged MatchString ro d topo).1.1, (staged MatchString ro' d topo).1.1.
    cbn in *. congruence. }
  rewrite Hus, Hus', <- Htu, <- Hd.
  set (tu := (staged MatchString ro d topo).1.2).
  assert (foldl (subtractTopic ro) tu (rangeMap ro (using_ d)) =
          foldl (subtractTopic ro') tu (rangeMap ro' (using_ d))) as Hsub.
  { apply map_eq. intros T. rewrite !subtract_lookup.
    destruct (using_ d !! T) as [u|]; [|reflexivity].
    destruct (tu !! T) as [tm|]; [|reflexivity].
    rewrite (subtract_partitions_order ro ro'). reflexivity. }
  rewrite <- Hsub.
  destruct (size _ =? 0)%nat; [reflexivity|]. cbn [fst snd]. f_equal.
  unfold set_using. f_equal.
  apply map_eq. intros T. rewrite !merge_lookup.
  destruct (foldl (subtractTopic ro) tu _ !! T) as [tm|]; [|reflexivity].
  rewrite (merge_partitions_order ro ro'). reflexivity.
Qed.

Lemma findNewAssignments_order_direct ro ro' d topo :
  regexTopics d = false ->
  (findNewAssignments MatchString ro d topo).1 =
  (findNewAssignments MatchString ro' d topo).1.
Proof.
  intros Hrx. apply findNewAssignments_order. intros Hrx'. congruence.
Qed.

End order_irrelevance.

(** *** A call repeated with the same topology *)

Section second_call.
Context {Offset : Type}.
Variable MatchString : string -> string -> bool.
Implicit Types d : directConsumer Offset.

Lemma findNewAssignments_fields ro d topo :
  let d' := (findNewAssignments MatchString ro d topo).1.2 in
  topics d' = topics d /\ partitions d' = partitions d /\ regexTopics d' = regexTopics d.
Proof.
  rewrite findNewAssignments_staged. cbv zeta.
  destruct (staged_at MatchString ro d topo "") as (Htp & Hps & Hrx & _).
  destruct (size _ =? 0)%nat; cbn [fst snd]; repeat split; assumption.
Qed.

(** Once a call has seen a topic, the lookup of any later call finds what
    that call found. *)
Lemma wantAt_after ro ro' d topo T parts :
  topo !! T = Some parts ->
  let d' := (findNewAssignments MatchString ro d topo).1.2 in
  (wantAt MatchString ro' (topics d') (regexTopics d') (reTopics d' !! T)
     (reIgnore d' !! T) T).1.1.1 =
  (wantAt MatchString ro (topics d) (regexTopics d) (reTopics d !! T)
     (reIgnore d !! T) T).1.1.1.
Proof.
  intros Htopo d'.
  destruct (findNewAssignments_fields ro d topo) as (Htp & _ & Hrx). fold d' in Htp, Hrx.
  pose proof (findNewAssignments_caches MatchString ro d topo T) as Hc.
  cbv zeta in Hc. fold d' in Hc. rewrite Htopo in Hc. destruct Hc as (Hrt & Hri & _).
  rewrite Htp, Hrx, Hrt, Hri. unfold wantAt.
  destruct (regexTopics d); [|reflexivity].
  destruct (reTopics d !! T) as [o|]; [reflexivity|].
  destruct (reIgnore d !! T) as [[]|]; [reflexivity|].
  destruct (matchPatterns MatchString (rangePatterns ro T (topics d)) T) as [[o|] tested];
    reflexivity.
Qed.

Lemma staged_after ro ro' d topo :
  (staged MatchString ro' (findNewAssignments MatchString ro d topo).1.2 topo).1.2 =
  (staged MatchString ro d topo).1.2.
Proof.
  apply map_eq. intros T.
  destruct (staged_at MatchString ro d topo T) as (_ & _ & _ & _ & H1).
  destruct (staged_at MatchString ro' (findNewAssignments MatchString ro d topo).1.2 topo T)
    as (_ & _ & _ & _ & H2).
  destruct (findNewAssignments_fields ro d topo) as (_ & Hps & _).
  destruct (topo !! T) as [parts|] eqn:Htopo; cbv zeta in H1, H2.
  - destruct H1 as (_ & _ & _ & ->). destruct H2 as (_ & _ & _ & ->).
    rewrite (wantAt_after ro ro' d topo T parts Htopo), Hps, !overlayAt_range.
    reflexivity.
  - destruct H1 as (_ & _ & _ & ->). destruct H2 as (_ & _ & _ & ->). reflexivity.
Qed.

(** The call that follows a call with the same topology offers no (topic,
    partition) pair, whatever the state and the iteration orders. *)
Lemma second_call_offers_nothing ro ro' d topo T p :
  ~ inDelta (findNewAssignments MatchString ro'
               (findNewAssignments MatchString ro d topo).1.2 topo).1.1 T p.
Proof.
  set (d1 := (findNewAssignments MatchString ro d topo).1.2).
  intros Hin.
  destruct Hin as (m & tm & Hdelta & Hm & Htm).
  rewrite findNewAssignments_staged in Hdelta. cbv zeta in Hdelta.
  destruct (staged_at MatchString ro' d1 topo "") as (_ & _ & _ & Hus' & _).
  destruct (size _ =? 0)%nat; cbn [fst snd] in Hdelta; [discriminate|].
  injection Hdelta as <-. rewrite Hus' in Hm. subst d1.
  rewrite staged_after, subtract_lookup in Hm.
  set (d1 := (findNewAssignments MatchString ro d topo).1.2) in *.
  set (tu := (staged MatchString ro d topo).1.2) in *.
  assert (using_ d1 !! T =
          match foldl (subtractTopic ro) tu (rangeMap ro (using_ d)) !! T with
          | Some tm1 =>
              Some (foldl (fun topicUsing '(partition, _) => <[partition := ()]> topicUsing)
                          (default ∅ (using_ d !! T)) (rangeMap ro tm1))
          | None => using_ d !! T
          end) as Hd1.
  { subst d1. rewrite findNewAssignments_staged. cbv zeta.
    destruct (staged_at MatchString ro d topo "") as (_ & _ & _ & Hus & _).
    fold tu. rewrite Hus.
    destruct (size _ =? 0)%nat eqn:Hsize; cbn [fst snd].
    - apply Nat.eqb_eq, map_size_empty_iff in Hsize. rewrite Hsize, Hus, lookup_empty.
      reflexivity.
    - cbn [set_using using_]. rewrite merge_lookup. reflexivity. }
  rewrite subtract_lookup in Hd1.
  destruct (tu !! T) as [tm0|] eqn:Htu.
  2:{ destruct (using_ d1 !! T); discriminate. }
  destruct (using_ d !! T) as [u|] eqn:Hu.
  - destruct (size u =? size tm0)%nat eqn:Hsz.
    + rewrite Hd1, Hsz in Hm. discriminate.
    + cbn [default from_option id] in Hd1. rewrite Hd1 in Hm.
      destruct (size _ =? size tm0)%nat; [discriminate|]. injection Hm as <-.
      rewrite subtract_partitions_lookup, merge_partitions_lookup,
        subtract_partitions_lookup in Htm.
      destruct (u !! p) as [[]|]; [destruct Htm; discriminate|].
      destruct (tm0 !! p); destruct Htm; discriminate.
  - cbn [default from_option id] in Hd1. rewrite Hd1 in Hm.
    destruct (size _ =? size tm0)%nat; [discriminate|]. injection Hm as <-.
    rewrite subtract_partitions_lookup, merge_partitions_lookup in Htm.
    destruct (tm0 !! p); destruct Htm; discriminate.
Qed.

End second_call.

(** *** The claims at concrete consumers *)

Lemma using_set_monotone_witness :
  inUsing (using_ consumerT_seen0) "T" 0 /\
  inUsing (using_ (reconcileAll matchNothing consumerT_seen0
                     [(reverseOrder, topologyT []); (canonicalOrder, topologyT [1; 2])]))
    "T" 0 /\
  forall ro topo,
    ~ inDelta (findNewAssignments matchNothing ro
                 (reconcileAll matchNothing consumerT_seen0
                    [(reverseOrder, topologyT []); (canonicalOrder, topologyT [1; 2])])
                 topo).1.1 "T" 0.
Proof.
  assert (inUsing (using_ consumerT_seen0) "T" 0) as Hin.
  { exists {[ 0 := () ]}. split; [vm_compute; reflexivity|].
    exists (). vm_compute. reflexivity. }
  split; [exact Hin|].
  exact (proj2 (using_set_monotone matchNothing consumerT_seen0
                  [(reverseOrder, topologyT []); (canonicalOrder, topologyT [1; 2])])
               "T" 0 Hin).
Defined.

Lemma pin_precedence_witness :
  exists delta tm,
    (findNewAssignments matchNothing canonicalOrder consumerPinned
       (topologyT [0; 1; 2])).1.1 = Some delta /\
    delta !! "T" = Some tm /\
    tm !! 1 = Some latest /\
    (forall q o_q, ({[ 1 := latest ]} : gmap Z Z) !! q = Some o_q -> tm !! q = Some o_q) /\
    (forall o_t, wanted matchNothing canonicalOrder consumerPinned "T" = Some o_t ->
       forall q, q ∈ [0; 1; 2] -> ({[ 1 := latest ]} : gmap Z Z) !! q = None ->
         tm !! q = Some o_t) /\
    (wanted matchNothing canonicalOrder consumerPinned "T" = None ->
       tm = {[ 1 := latest ]}).
Proof.
  apply (pin_precedence matchNothing canonicalOrder consumerPinned (topologyT [0; 1; 2])
           "T" [0; 1; 2] {[ 1 := latest ]} 1 latest).
  - apply reachable_fresh.
  - reflexivity.
  - reflexivity.
  - reflexivity.
  - intros (s & Hs & _). vm_compute in Hs. discriminate.
Defined.

Example pin_precedence_example :
  (findNewAssignments matchNothing canonicalOrder consumerPinned (topologyT [0; 1; 2])).1.1 =
  Some {[ "T" := {[ 0 := earliest; 1 := latest; 2 := earliest ]} ]}.
Proof. vm_compute. reflexivity. Qed.

Lemma regex_memoization_witness :
  exists use,
    testedInOrder literalMatch (rangePatterns reverseOrder "ab" (topics consumerRegex)) "ab"
      (testsOf "ab" (findNewAssignments literalMatch reverseOrder consumerRegex topologyAB).2)
      use /\
    wanted literalMatch reverseOrder consumerRegex "ab" = use /\
    match use with
    | Some offset =>
        reTopics (findNewAssignments literalMatch reverseOrder consumerRegex topologyAB).1.2
          !! "ab" = Some offset
    | None =>
        reIgnore (findNewAssignments literalMatch reverseOrder consumerRegex topologyAB).1.2
          !! "ab" = Some ()
    end /\
    forall calls ro' topo',
      testsOf "ab"
        (findNewAssignments literalMatch ro'
           (reconcileAll literalMatch
              (findNewAssignments literalMatch reverseOrder consumerRegex topologyAB).1.2
              calls) topo').2 = [].
Proof.
  apply (regex_memoization literalMatch reverseOrder consumerRegex topologyAB "ab" [0; 1]);
    reflexivity.
Defined.

(** Claim C4 as it is stated fails: the patterns are declared in the order
    "a", "b", both match the topic "ab", and a call whose iteration over
    the [topics] map meets "b" first tests "b" alone, which is not what
    testing in declaration order up to the first match runs. *)
Lemma regex_declaration_order_counterexample :
  AssignPartitions [ConsumeTopics earliest ["a"; "b"]; ConsumeTopicsRegex] =
    Some consumerRegex /\
  testsOf "ab" (findNewAssignments literalMatch reverseOrder consumerRegex topologyAB).2 =
    [("b", "ab")] /\
  forall use,
    ~ testedInOrder literalMatch [("a", earliest); ("b", earliest)] "ab"
        (testsOf "ab" (findNewAssignments literalMatch reverseOrder consumerRegex topologyAB).2)
        use.
Proof.
  assert (testsOf "ab"
            (findNewAssignments literalMatch reverseOrder consumerRegex topologyAB).2 =
          [("b", "ab")]) as Htr by (vm_compute; reflexivity).
  split; [vm_compute; reflexivity|]. split; [exact Htr|].
  intros use. rewrite Htr.
  intros [(i & r & o & _ & _ & _ & Ht & _)|(_ & Ht & _)].
  - destruct i; cbn in Ht; discriminate.
  - cbn in Ht. discriminate.
Qed.

(** Claim C5, evaluated where the code departs from it. A consumer of
    topic "T" has partition 0 in use; the topology now shows partitions 1
    and 2. Whatever the iteration orders, the first call returns the delta
    {T: {1, 2}}, and the call that follows with the same topology returns
    a delta that is not nil: it holds topic "T" with no partition. *)
Theorem second_call_returns_non_nil_delta (ro ro' : RangeOrder) :
  using_ consumerT_seen0 = {[ "T" := {[ 0 := () ]} ]} /\
  (findNewAssignments matchNothing ro consumerT_seen0 (topologyT [1; 2])).1.1 =
    Some {[ "T" := {[ 1 := earliest; 2 := earliest ]} ]} /\
  (findNewAssignments matchNothing ro'
     (findNewAssignments matchNothing ro consumerT_seen0 (topologyT [1; 2])).1.2
     (topologyT [1; 2])).1.1 =
    Some {[ "T" := ∅ ]}.
Proof.
  rewrite (findNewAssignments_order_direct matchNothing ro canonicalOrder) by reflexivity.
  rewrite (findNewAssignments_order_direct matchNothing ro' canonicalOrder) by reflexivity.
  vm_compute. repeat split; reflexivity.
Qed.

(** Claim C7, evaluated where the code departs from it. First, a consumer
    of topic "T" with partitions 0, 1 and 2 in use, and a topology that
    shows partitions 1 and 2 only: after the Using Set is subtracted no
    partition remains staged, yet the call returns a delta that is not nil
    and holds no (topic, partition, offset) triple. Second, a fresh consumer
    of "T" and a topology in which "T" has no partition yet: nothing is
    staged, the delta is again not nil and without a triple, and the using
    map gains the topic. Both whatever the iteration orders. *)
Theorem empty_staging_returns_non_nil_delta (ro : RangeOrder) :
  (findNewAssignments matchNothing ro consumerT_seen12 (topologyT [1; 2])).1 =
    (Some {[ "T" := ∅ ]}, consumerT_seen12) /\
  (findNewAssignments matchNothing ro consumerT (topologyT [])).1 =
    (Some {[ "T" := ∅ ]}, set_using {[ "T" := ∅ ]} consumerT) /\
  using_ consumerT = ∅ /\
  (forall p, ~ inDelta (Some ({[ "T" := ∅ ]} : gmap string (gmap Z Z))) "T" p).
Proof.
  rewrite !(findNewAssignments_order_direct matchNothing ro canonicalOrder) by reflexivity.
  split; [vm_compute; reflexivity|]. split; [vm_compute; reflexivity|].
  split; [reflexivity|].
  intros p (m & tm & Hm & Htm & [o Hp]). injection Hm as <-.
  rewrite lookup_singleton_eq in Htm. injection Htm as <-.
  rewrite lookup_empty in Hp. discriminate.
Qed.

(** ** The encoder's output, field by field *)

Lemma beValue_app acc bs :
  foldl (fun acc b => acc * 256 + b) acc bs =
  acc * 256 ^ Z.of_nat (length bs) + kbin.beValue bs.
Proof.
  unfold kbin.beValue. revert acc.
  induction bs as [|b bs IH]; intros acc; cbn [foldl length].
  - change (Z.of_nat 0) with 0. rewrite Z.pow_0_r. lia.
  - rewrite IH, (IH (0 * 256 + b)). rewrite Nat2Z.inj_succ, Z.pow_succ_r by lia. lia.
Qed.

Lemma beValue_beBytes k v : kbin.beValue (kbin.beBytes k v) = v mod 2 ^ (8 * Z.of_nat k).
Proof.
  induction k as [|k IH].
  - cbn. rewrite Z.mod_1_r. reflexivity.
  - cbn [kbin.beBytes]. unfold kbin.beValue. cbn [foldl].
    rewrite beValue_app, length_beBytes, IH.
    rewrite byte_land, Z.shiftr_div_pow2 by lia.
    replace (8 * Z.of_nat (S k)) with (8 * Z.of_nat k + 8) by lia.
    rewrite Z.pow_add_r by lia.
    replace (256 ^ Z.of_nat k) with (2 ^ (8 * Z.of_nat k))
      by (rewrite Z.pow_mul_r by lia; reflexivity).
    change (2 ^ 8) with 256.
    assert (0 < 2 ^ (8 * Z.of_nat k)) by (apply Z.pow_pos_nonneg; lia).
    rewrite (Z.rem_mul_r v (2 ^ (8 * Z.of_nat k)) 256) by lia. lia.
Qed.

Lemma readSigned_at (k : nat) out pre v post n :
  (0 < k)%nat ->
  out = pre ++ kbin.beBytes k v ++ post -> n = length pre ->
  readSigned k out n = wrapS (8 * Z.of_nat k) v.
Proof.
  intros Hk -> ->. unfold readSigned.
  rewrite drop_app_length.
  rewrite (take_app_length' (kbin.beBytes k v)) by (symmetry; apply length_beBytes).
  rewrite beValue_beBytes. apply wrapS_wrapU. lia.
Qed.

Lemma batchLayout_prefix dst L B tail :
  batchLayout dst L B tail = dst ++ batchLayout [] L B tail.
Proof. reflexivity. Qed.

Lemma encodedBatch_prefix ve dst r c lastRecord :
  encodedBatch ve dst r c lastRecord = dst ++ encodedBatch ve [] r c lastRecord.
Proof.
  unfold encodedBatch. cbv zeta.
  destruct (keptCompression ve r c) as [[c' z]|]; apply batchLayout_prefix.
Qed.

Lemma appendTo_None ve dst r c :
  appendTo ve dst r c = None <-> records r = [].
Proof.
  split.
  - intros Hnone. destruct (records r) as [|x rs] eqn:E; [reflexivity|].
    assert (records r <> []) as Hne by (rewrite E; discriminate).
    destruct (last_nonempty _ Hne) as [lastRecord Hlast].
    rewrite (appendTo_encodedBatch ve dst r c lastRecord Hlast) in Hnone. discriminate.
  - intros Hnil. unfold appendTo. rewrite Hnil. reflexivity.
Qed.

Lemma appendTo_from_empty ve dst r c :
  appendTo ve dst r c = (fun entry => dst ++ entry) <$> appendTo ve [] r c.
Proof.
  destruct (last (records r)) as [lastRecord|] eqn:Hlast.
  - rewrite !(appendTo_encodedBatch ve _ r c lastRecord Hlast). cbn.
    f_equal. apply encodedBatch_prefix.
  - apply last_None in Hlast. unfold appendTo. rewrite Hlast. reflexivity.
Qed.

(** Extra X2 (the caller's bytes). What [appendTo] returns is the caller's
    buffer, untouched, followed by the entry it would write into an empty
    buffer: no patch of a length, of the attributes or of the checksum reaches
    below [len(dst)], and the entry does not depend on [dst]. *)
Theorem appendTo_appends ve dst r c :
  appendTo ve dst r c = (fun entry => dst ++ entry) <$> appendTo ve [] r c.
Proof. apply appendTo_from_empty. Qed.

Lemma batchLayout_recordRegion dst L B r A maxTs payload :
  recordRegion dst (batchLayout dst L B (batchTail r A maxTs payload)) = payload.
Proof.
  unfold recordRegion, batchLayout, batchTail.
  set (tail := kbin.beBytes 2 A ++ _).
  apply (drop_at _ (dst ++ kbin.beBytes 4 L ++ kbin.beBytes 8 0 ++ kbin.beBytes 4 B ++
                    kbin.beBytes 4 (-1) ++ kbin.beBytes 1 2 ++
                    kbin.beBytes 4 (int32 (crc32.Checksum tail crc32c)) ++
                    kbin.beBytes 2 A ++
                    kbin.beBytes 4 (int32 (Z.of_nat (length (records r)) - 1)) ++
                    kbin.beBytes 8 (firstTimestamp r) ++ kbin.beBytes 8 maxTs ++
                    kbin.beBytes 8 (-1) ++ kbin.beBytes 2 (-1) ++ kbin.beBytes 4 (-1) ++
                    kbin.beBytes 4 (int32 (Z.of_nat (length (records r))))));
    [subst tail; reassoc|list_len].
Qed.

(** Extra X3 (the wire length). Without a compressor a sealed batch is written
    in exactly [wireLength] bytes, and the bytes after the 65 bytes of fixed
    fields are the records as [promisedNumberedRecord.appendTo] wrote them. *)
Theorem appendTo_plain_wire_length ve dst r :
  sealed ve r ->
  exists out,
    appendTo ve dst r None = Some out /\
    Z.of_nat (length out) = Z.of_nat (length dst) + wireLength r /\
    recordRegion dst out = recordsBytes ve r.
Proof.
  intros (Hne & Hwire & _).
  destruct (last_nonempty _ Hne) as [lastRecord Hlast].
  eexists. split; [apply appendTo_encodedBatch; exact Hlast|].
  unfold encodedBatch, keptCompression. cbv zeta.
  rewrite length_batchLayout, batchLayout_recordRegion. split; [lia|reflexivity].
Qed.

Lemma appendTo_plain_wire_length_witness :
  exists out,
    appendTo exampleEncoding [0; 0; 0; 1] exampleBatch None = Some out /\
    Z.of_nat (length out) = 4 + wireLength exampleBatch /\
    recordRegion [0; 0; 0; 1] out = recordsBytes exampleEncoding exampleBatch.
Proof.
  apply (appendTo_plain_wire_length exampleEncoding [0; 0; 0; 1] exampleBatch).
  split; [discriminate|]. split; [reflexivity|]. vm_compute. discriminate.
Defined.

(** Extra X4 (compression kept). When the compressor returns something
    strictly shorter than the records, the entry ends with exactly the
    compressed bytes after the 65 bytes of fixed fields, and its attributes
    are the batch's with the codec's bits set. *)
Theorem appendTo_compressed_region ve dst r c z :
  records r <> [] ->
  compress c (recordsBytes ve r) = Some z ->
  (length z < length (recordsBytes ve r))%nat ->
  exists out,
    appendTo ve dst r (Some c) = Some out /\
    recordRegion dst out = z /\
    length out = (length dst + 65 + length z)%nat /\
    kbin.ReadInt16 out (length dst + 25) = int16 (Z.lor (attrs r) (int16 (cattrs c))).
Proof.
  intros Hne Hz Hlt. destruct (last_nonempty _ Hne) as [lastRecord Hlast].
  eexists. split; [apply appendTo_encodedBatch; exact Hlast|].
  unfold encodedBatch, keptCompression. cbv zeta. rewrite Hz.
  apply Nat.ltb_lt in Hlt. rewrite Hlt.
  rewrite batchLayout_recordRegion, length_batchLayout, batchLayout_attrs.
  repeat split; reflexivity.
Qed.

Lemma appendTo_compressed_region_witness :
  exists out,
    appendTo exampleEncoding [] exampleBatch (Some exampleShrinker) = Some out /\
    recordRegion [] out = take 6 (recordsBytes exampleEncoding exampleBatch) /\
    length out = (0 + 65 + 6)%nat /\
    kbin.ReadInt16 out 25 = int16 (Z.lor 0 (int16 1)).
Proof.
  apply (appendTo_compressed_region exampleEncoding [] exampleBatch exampleShrinker
           (take 6 (recordsBytes exampleEncoding exampleBatch)));
    [discriminate|reflexivity|vm_compute; lia].
Defined.

Lemma batchLayout_fixed_fields dst L B r A maxTs payload :
  let out := batchLayout dst L B (batchTail r A maxTs payload) in
  readSigned 8 out (length dst + 4) = 0 /\
  readSigned 4 out (length dst + 16) = -1 /\
  readSigned 1 out (length dst + 20) = 2 /\
  readSigned 8 out (length dst + 31) = int64 (firstTimestamp r) /\
  readSigned 8 out (length dst + 39) = int64 maxTs /\
  readSigned 8 out (length dst + 47) = -1 /\
  readSigned 2 out (length dst + 55) = -1 /\
  readSigned 4 out (length dst + 57) = -1.
Proof.
  cbv zeta. unfold batchLayout, batchTail.
  set (crc := kbin.beBytes 4 (int32 _)).
  set (f1 := kbin.beBytes 4 L). set (f3 := kbin.beBytes 4 B).
  set (f8 := kbin.beBytes 2 A). set (f9 := kbin.beBytes 4 (int32 (_ - 1))).
  set (f15 := kbin.beBytes 4 (int32 (Z.of_nat _))).
  assert (length crc = 4%nat /\ length f1 = 4%nat /\ length f3 = 4%nat /\
          length f8 = 2%nat /\ length f9 = 4%nat /\ length f15 = 4%nat) as (? & ? & ? & ? & ? & ?)
    by (repeat split; apply length_beBytes).
  repeat split.
  - apply (readSigned_at 8 _ (dst ++ f1) 0 (f3 ++ kbin.beBytes 4 (-1) ++ kbin.beBytes 1 2 ++
      crc ++ f8 ++ f9 ++ kbin.beBytes 8 (firstTimestamp r) ++ kbin.beBytes 8 maxTs ++
      kbin.beBytes 8 (-1) ++ kbin.beBytes 2 (-1) ++ kbin.beBytes 4 (-1) ++ f15 ++ payload));
      [lia|reassoc|rewrite length_app; lia].
  - apply (readSigned_at 4 _ (dst ++ f1 ++ kbin.beBytes 8 0 ++ f3) (-1) (kbin.beBytes 1 2 ++
      crc ++ f8 ++ f9 ++ kbin.beBytes 8 (firstTimestamp r) ++ kbin.beBytes 8 maxTs ++
      kbin.beBytes 8 (-1) ++ kbin.beBytes 2 (-1) ++ kbin.beBytes 4 (-1) ++ f15 ++ payload));
      [lia|reassoc|rewrite !length_app, !length_beBytes; lia].
  - apply (readSigned_at 1 _ (dst ++ f1 ++ kbin.beBytes 8 0 ++ f3 ++ kbin.beBytes 4 (-1)) 2
      (crc ++ f8 ++ f9 ++ kbin.beBytes 8 (firstTimestamp r) ++ kbin.beBytes 8 maxTs ++
      kbin.beBytes 8 (-1) ++ kbin.beBytes 2 (-1) ++ kbin.beBytes 4 (-1) ++ f15 ++ payload));
      [lia|reassoc|rewrite !length_app, !length_beBytes; lia].
  - apply (readSigned_at 8 _ (dst ++ f1 ++ kbin.beBytes 8 0 ++ f3 ++ kbin.beBytes 4 (-1) ++
      kbin.beBytes 1 2 ++ crc ++ f8 ++ f9) (firstTimestamp r) (kbin.beBytes 8 maxTs ++
      kbin.beBytes 8 (-1) ++ kbin.beBytes 2 (-1) ++ kbin.beBytes 4 (-1) ++ f15 ++ payload));
      [lia|reassoc|rewrite !length_app, !length_beBytes; lia].
  - apply (readSigned_at 8 _ (dst ++ f1 ++ kbin.beBytes 8 0 ++ f3 ++ kbin.beBytes 4 (-1) ++
      kbin.beBytes 1 2 ++ crc ++ f8 ++ f9 ++ kbin.beBytes 8 (firstTimestamp r)) maxTs
      (kbin.beBytes 8 (-1) ++ kbin.beBytes 2 (-1) ++ kbin.beBytes 4 (-1) ++ f15 ++ payload));
      [lia|reassoc|rewrite !length_app, !length_beBytes; lia].
  - apply (readSigned_at 8 _ (dst ++ f1 ++ kbin.beBytes 8 0 ++ f3 ++ kbin.beBytes 4 (-1) ++
      kbin.beBytes 1 2 ++ crc ++ f8 ++ f9 ++ kbin.beBytes 8 (firstTimestamp r) ++
      kbin.beBytes 8 maxTs) (-1)
      (kbin.beBytes 2 (-1) ++ kbin.beBytes 4 (-1) ++ f15 ++ payload));
      [lia|reassoc|rewrite !length_app, !length_beBytes; lia].
  - apply (readSigned_at 2 _ (dst ++ f1 ++ kbin.beBytes 8 0 ++ f3 ++ kbin.beBytes 4 (-1) ++
      kbin.beBytes 1 2 ++ crc ++ f8 ++ f9 ++ kbin.beBytes 8 (firstTimestamp r) ++
      kbin.beBytes 8 maxTs ++ kbin.beBytes 8 (-1)) (-1)
      (kbin.beBytes 4 (-1) ++ f15 ++ payload));
      [lia|reassoc|rewrite !length_app, !length_beBytes; lia].
  - apply (readSigned_at 4 _ (dst ++ f1 ++ kbin.beBytes 8 0 ++ f3 ++ kbin.beBytes 4 (-1) ++
      kbin.beBytes 1 2 ++ crc ++ f8 ++ f9 ++ kbin.beBytes 8 (firstTimestamp r) ++
      kbin.beBytes 8 maxTs ++ kbin.beBytes 8 (-1) ++ kbin.beBytes 2 (-1)) (-1)
      (f15 ++ payload));
      [lia|reassoc|rewrite !length_app, !length_beBytes; lia].
Qed.

Lemma wrapS_wrapS w x : 0 < w -> wrapS w (wrapS w x) = wrapS w x.
Proof. intros Hw. apply wrapS_id; [exact Hw|]. apply wrapS_range. exact Hw. Qed.

(** Extra X5 (the constant fields). Whatever the batch and the compressor, the
    entry's base offset is 0, its partition leader epoch -1, its magic 2, its
    producer id, producer epoch and base sequence -1. *)
Theorem appendTo_constant_fields ve dst r c :
  records r <> [] ->
  exists out,
    appendTo ve dst r c = Some out /\
    readSigned 8 out (length dst + 4) = 0 /\
    readSigned 4 out (length dst + 16) = -1 /\
    readSigned 1 out (length dst + 20) = 2 /\
    readSigned 8 out (length dst + 47) = -1 /\
    readSigned 2 out (length dst + 55) = -1 /\
    readSigned 4 out (length dst + 57) = -1.
Proof.
  intros Hne. destruct (last_nonempty _ Hne) as [lastRecord Hlast].
  eexists. split; [apply appendTo_encodedBatch; exact Hlast|].
  unfold encodedBatch. cbv zeta.
  destruct (keptCompression ve r c) as [[c' z]|];
    match goal with |- context [batchLayout dst ?L ?B (batchTail r ?A ?m ?p)] =>
      destruct (batchLayout_fixed_fields dst L B r A m p)
        as (H1 & H2 & H3 & _ & _ & H6 & H7 & H8) end;
    repeat split; assumption.
Qed.

Lemma appendTo_constant_fields_witness :
  exists out,
    appendTo exampleEncoding [] exampleBatch (Some exampleShrinker) = Some out /\
    readSigned 8 out 4 = 0 /\
    readSigned 4 out 16 = -1 /\
    readSigned 1 out 20 = 2 /\
    readSigned 8 out 47 = -1 /\
    readSigned 2 out 55 = -1 /\
    readSigned 4 out 57 = -1.
Proof.
  apply (appendTo_constant_fields exampleEncoding [] exampleBatch (Some exampleShrinker)).
  discriminate.
Defined.

(** Extra X6 (the timestamps). The first-timestamp field is the batch's
    [firstTimestamp]; the max-timestamp field is [firstTimestamp] plus the
    timestamp delta of the last record, in wrapping [int64] arithmetic,
    whether or not an earlier record has a larger delta. *)
Theorem appendTo_timestamps ve dst r c lastRecord :
  last (records r) = Some lastRecord ->
  exists out,
    appendTo ve dst r c = Some out /\
    readSigned 8 out (length dst + 31) = int64 (firstTimestamp r) /\
    readSigned 8 out (length dst + 39) =
      int64 (firstTimestamp r + timestampDelta (pnr_n lastRecord)).
Proof.
  intros Hlast.
  eexists. split; [apply appendTo_encodedBatch; exact Hlast|].
  unfold encodedBatch. cbv zeta.
  destruct (keptCompression ve r c) as [[c' z]|];
    match goal with |- context [batchLayout dst ?L ?B (batchTail r ?A ?m ?p)] =>
      destruct (batchLayout_fixed_fields dst L B r A m p)
        as (_ & _ & _ & H4 & H5 & _) end;
    (split; [exact H4|]); rewrite H5; unfold int64; apply wrapS_wrapS; lia.
Qed.

Lemma appendTo_timestamps_witness :
  exists out,
    appendTo exampleEncoding [] exampleBatch None = Some out /\
    readSigned 8 out 31 = int64 1000 /\
    readSigned 8 out 39 = int64 (1000 + 1).
Proof.
  apply (appendTo_timestamps exampleEncoding [] exampleBatch None
           (exampleRecord [7; 7; 7; 7] 1)).
  reflexivity.
Defined.

Lemma foldl_headers_layout ve hs :
  foldl (fun dst h =>
           let dst := kbin.AppendVarintString ve dst (hdrKey h) in
           kbin.AppendVarintBytes ve dst (hdrValue h)) [] hs =
  mjoin (headerLayout ve <$> hs).
Proof.
  induction hs as [|h hs IH]; [reflexivity|]. cbn [foldl].
  change (mjoin (headerLayout ve <$> h :: hs))
    with (headerLayout ve h ++ mjoin (headerLayout ve <$> hs)).
  rewrite <- IH, <- foldl_headers_app. f_equal.
  unfold headerLayout, kbin.AppendVarintString, kbin.AppendVarintBytes.
  rewrite app_nil_r. reflexivity.
Qed.

Lemma pnr_appendTo_layout ve dst pnr :
  pnr_appendTo ve dst pnr = dst ++ recordLayout ve pnr.
Proof.
  rewrite pnr_appendTo_app. f_equal. unfold pnr_appendTo, recordLayout. cbv zeta.
  unfold kbin.AppendVarint, kbin.AppendVarintBytes at 1 2, kbin.AppendInt8.
  rewrite app_nil_l.
  match goal with |- foldl ?f ?a ?hs = _ =>
    rewrite <- (app_nil_r a);
    change (foldl f (a ++ []) hs) with
      (foldl (fun dst h =>
           let dst := kbin.AppendVarintString ve dst (hdrKey h) in
           kbin.AppendVarintBytes ve dst (hdrValue h)) (a ++ []) hs) end.
  rewrite foldl_headers_app, foldl_headers_layout.
  unfold kbin.AppendVarintBytes. rewrite <- !app_assoc. reflexivity.
Qed.

Lemma foldl_pnr_appendTo_layout ve dst rs :
  foldl (pnr_appendTo ve) dst rs = dst ++ mjoin (recordLayout ve <$> rs).
Proof.
  revert dst. induction rs as [|x rs IH]; intros dst; cbn [foldl].
  - cbn. rewrite app_nil_r. reflexivity.
  - change (mjoin (recordLayout ve <$> x :: rs))
      with (recordLayout ve x ++ mjoin (recordLayout ve <$> rs)).
    rewrite IH, pnr_appendTo_layout, <- app_assoc. reflexivity.
Qed.

(** Extra X7 (the records). Without a compressor the bytes after the fixed
    fields are the records in the batch's order, each one its length, a zero
    attributes byte, its two deltas, key, value, header count and headers,
    every header its key and then its value. *)
Theorem appendTo_records_in_order ve dst r :
  records r <> [] ->
  exists out,
    appendTo ve dst r None = Some out /\
    recordRegion dst out = mjoin (recordLayout ve <$> records r).
Proof.
  intros Hne. destruct (last_nonempty _ Hne) as [lastRecord Hlast].
  eexists. split; [apply appendTo_encodedBatch; exact Hlast|].
  unfold encodedBatch, keptCompression. cbv zeta.
  rewrite batchLayout_recordRegion. unfold recordsBytes.
  apply (foldl_pnr_appendTo_layout ve []).
Qed.

Lemma appendTo_records_in_order_witness :
  exists out,
    appendTo exampleEncoding [9] exampleBatch None = Some out /\
    recordRegion [9] out = mjoin (recordLayout exampleEncoding <$> records exampleBatch).
Proof.
  apply (appendTo_records_in_order exampleEncoding [9] exampleBatch). discriminate.
Defined.

(** ** The buffered produce request *)



Section joinEntries_facts.
Context {A : Type}.
Implicit Types f g : A -> option (list Z).

Lemma foldl_None (step : option (list Z) -> A -> option (list Z)) l :
  (forall x, step None x = None) -> foldl step None l = None.
Proof. intros H. induction l as [|x l IH]; cbn [foldl]; [reflexivity|]. by rewrite H. Qed.

Lemma foldl_joinEntries f (step : option (list Z) -> A -> option (list Z)) dst l :
  (forall d x, step (Some d) x = (fun e => d ++ e) <$> f x) ->
  (forall x, step None x = None) ->
  foldl step (Some dst) l = (fun e => dst ++ e) <$> joinEntries f l.
Proof.
  intros Hsome Hnone. revert dst.
  induction l as [|x l IH]; intros dst; cbn [foldl joinEntries].
  - cbn. rewrite app_nil_r. reflexivity.
  - rewrite Hsome. destruct (f x) as [y|]; cbn.
    + rewrite IH. destruct (joinEntries f l) as [k|]; cbn; [|reflexivity].
      rewrite app_assoc. reflexivity.
    + apply foldl_None, Hnone.
Qed.

Lemma joinEntries_None f l :
  joinEntries f l = None <-> exists x, x ∈ l /\ f x = None.
Proof.
  induction l as [|x l IH]; cbn [joinEntries].
  - split; [discriminate|]. intros (x & Hx & _). by apply not_elem_of_nil in Hx.
  - destruct (f x) as [y|] eqn:Hfx.
    + destruct (joinEntries f l) as [k|].
      * split; [discriminate|]. intros (x' & Hx' & Hf).
        apply elem_of_cons in Hx' as [->|Hx']; [congruence|].
        destruct IH as [_ IH]. discriminate IH. eauto.
      * split; [intros _|reflexivity]. destruct IH as [IH _].
        destruct (IH eq_refl) as (x' & Hx' & Hf). exists x'.
        split; [by apply list_elem_of_further|exact Hf].
    + split; [intros _|reflexivity]. exists x. split; [apply list_elem_of_here|exact Hfx].
Qed.

Lemma joinEntries_length_ext f g l :
  (forall x, x ∈ l -> length <$> f x = length <$> g x) ->
  length <$> joinEntries f l = length <$> joinEntries g l.
Proof.
  induction l as [|x l IH]; intros H; cbn [joinEntries]; [reflexivity|].
  pose proof (H x (list_elem_of_here _ _)) as Hx.
  assert (length <$> joinEntries f l = length <$> joinEntries g l) as Hl
    by (apply IH; intros y Hy; apply H; by apply list_elem_of_further).
  destruct (f x) as [y|], (g x) as [y'|]; try discriminate; cbn in *; [|reflexivity].
  destruct (joinEntries f l) as [k|], (joinEntries g l) as [k'|]; try discriminate;
    cbn in *; [|reflexivity].
  injection Hx as Hx. injection Hl as Hl. rewrite !length_app. congruence.
Qed.

Lemma joinEntries_length_perm f l l' :
  l ≡ₚ l' -> length <$> joinEntries f l = length <$> joinEntries f l'.
Proof.
  induction 1 as [|x l l' _ IH|x y l|l l' l'' _ IH1 _ IH2]; cbn [joinEntries].
  - reflexivity.
  - destruct (f x) as [a|]; [|reflexivity].
    destruct (joinEntries f l) as [k|], (joinEntries f l') as [k'|]; try discriminate;
      cbn in *; [|reflexivity].
    injection IH as IH. rewrite !length_app. congruence.
  - destruct (f x) as [a|], (f y) as [b|]; try reflexivity.
    destruct (joinEntries f l) as [k|]; [|reflexivity]. cbn.
    rewrite !length_app. f_equal. lia.
  - congruence.
Qed.
End joinEntries_facts.

Section produce_request_facts.
Context {Codec : Type}.
Variable deps : ProduceDeps Codec.
Variable ve : kbin.VarEncoding.

Lemma rangeMap_elem (ro : RangeOrder) `{Countable K} {V : Type} (m : gmap K V) k v :
  (k, v) ∈ rangeMap ro m <-> m !! k = Some v.
Proof. rewrite (rangeMap_perm ro). apply elem_of_map_to_list. Qed.

Lemma appendPartitions_entries c dst l :
  appendPartitions ve c dst l = (fun e => dst ++ e) <$> joinEntries (partitionEntry ve c) l.
Proof.
  unfold appendPartitions. apply foldl_joinEntries.
  - intros d [partition batch]. unfold partitionEntry, kbin.AppendInt32. cbn [fst snd].
    rewrite appendTo_from_empty. destruct (appendTo ve [] batch c) as [e|]; cbn; [|reflexivity].
    rewrite <- app_assoc. reflexivity.
  - intros [partition batch]. reflexivity.
Qed.

Lemma appendTopics_entries ro c dst l :
  appendTopics deps ve ro c dst l =
  (fun e => dst ++ e) <$> joinEntries (topicEntry deps ve ro c) l.
Proof.
  unfold appendTopics. apply foldl_joinEntries.
  - intros d [topic partitions]. unfold topicEntry. cbn [fst snd].
    rewrite appendPartitions_entries. unfold kbin.AppendArrayLen, kbin.AppendInt32.
    destruct (joinEntries _ _) as [e|]; cbn; [|reflexivity].
    rewrite <- !app_assoc. reflexivity.
  - intros [topic partitions]. reflexivity.
Qed.

Lemma AppendTo_entries ro m dst :
  AppendTo deps ve ro m dst =
  (fun e => dst ++ requestHeader deps m ++ e)
    <$> joinEntries
          (topicEntry deps ve ro (loadProduceCompressor deps (compression m) (version m)))
          (rangeMap ro (data m)).
Proof.
  unfold AppendTo. cbn zeta. rewrite appendTopics_entries.
  destruct (joinEntries _ _) as [e|]; cbn; [|reflexivity].
  unfold requestHeader, kbin.AppendArrayLen, kbin.AppendInt32, kbin.AppendInt16.
  destruct (3 <=? version m); rewrite <- ?app_assoc; cbn [app]; rewrite <- ?app_assoc;
    reflexivity.
Qed.

Lemma partitionEntry_None c x :
  partitionEntry ve c x = None <-> records x.2 = [].
Proof.
  unfold partitionEntry. rewrite fmap_None. apply appendTo_None.
Qed.

Lemma topicEntry_None ro c topic partitions :
  topicEntry deps ve ro c (topic, partitions) = None <->
  exists partition batch, partitions !! partition = Some batch /\ records batch = [].
Proof.
  unfold topicEntry. rewrite fmap_None, joinEntries_None. cbn [fst snd]. split.
  - intros ([partition batch] & Hin & Hnone). apply rangeMap_elem in Hin.
    apply partitionEntry_None in Hnone. eauto.
  - intros (partition & batch & Hin & Hnone). exists (partition, batch).
    split; [by apply rangeMap_elem|by apply partitionEntry_None].
Qed.

(** Extra X8 (the request and the empty batch). [AppendTo] panics exactly when
    the request holds a batch without records, whatever the order in which the
    two map loops run and whatever was written before. *)
Theorem AppendTo_panics_iff_empty_batch ro m dst :
  AppendTo deps ve ro m dst = None <-> hasEmptyBatch m.
Proof.
  rewrite AppendTo_entries, fmap_None, joinEntries_None. unfold hasEmptyBatch. split.
  - intros ([topic partitions] & Hin & Hnone). apply rangeMap_elem in Hin.
    apply topicEntry_None in Hnone as (partition & batch & Hb & Hr).
    exists topic, partitions, partition, batch. auto.
  - intros (topic & partitions & partition & batch & Ht & Hb & Hr).
    exists (topic, partitions). split; [by apply rangeMap_elem|].
    apply topicEntry_None. eauto.
Qed.

Lemma topicEntry_length ro ro' c x :
  length <$> topicEntry deps ve ro c x = length <$> topicEntry deps ve ro' c x.
Proof.
  unfold topicEntry.
  assert (length <$> joinEntries (partitionEntry ve c) (rangeMap ro x.2) =
          length <$> joinEntries (partitionEntry ve c) (rangeMap ro' x.2)) as Hperm.
  { apply joinEntries_length_perm. rewrite (rangeMap_perm ro), (rangeMap_perm ro').
    reflexivity. }
  destruct (joinEntries _ (rangeMap ro x.2)) as [e|],
           (joinEntries _ (rangeMap ro' x.2)) as [e'|]; try discriminate; cbn in *;
    [|reflexivity].
  injection Hperm as Hperm. f_equal. rewrite !length_app. cbn [length]. lia.
Qed.

(** Extra X9 (map order and size). The orders of the two map loops decide
    neither whether [AppendTo] returns nor how many bytes it returns. *)
Theorem AppendTo_length_order_independent ro ro' m dst :
  length <$> AppendTo deps ve ro m dst = length <$> AppendTo deps ve ro' m dst.
Proof.
  rewrite !AppendTo_entries.
  set (c := loadProduceCompressor deps (compression m) (version m)).
  assert (length <$> joinEntries (topicEntry deps ve ro c) (rangeMap ro (data m)) =
          length <$> joinEntries (topicEntry deps ve ro' c) (rangeMap ro' (data m))) as H.
  { transitivity (length <$> joinEntries (topicEntry deps ve ro c) (rangeMap ro' (data m))).
    - apply joinEntries_length_perm. rewrite (rangeMap_perm ro), (rangeMap_perm ro').
      reflexivity.
    - apply joinEntries_length_ext. intros x _. apply topicEntry_length. }
  destruct (joinEntries _ (rangeMap ro (data m))) as [e|],
           (joinEntries _ (rangeMap ro' (data m))) as [e'|]; try discriminate; cbn in *;
    [|reflexivity].
  injection H as H. f_equal. rewrite !length_app. lia.
Qed.

(** Extra X10 (the request header). What [AppendTo] returns starts with the
    bytes it was given, followed by the transactional id (from version 3 on),
    the acks, the timeout and the number of topics; a request without topics
    is that and nothing more. *)
Theorem AppendTo_header ro m dst out :
  AppendTo deps ve ro m dst = Some out ->
  exists body, out = dst ++ requestHeader deps m ++ body /\ (data m = ∅ -> body = []).
Proof.
  rewrite AppendTo_entries. intros H. apply fmap_Some in H as (body & Hbody & ->).
  exists body. split; [reflexivity|]. intros Hempty. rewrite Hempty in Hbody.
  assert (rangeMap ro (∅ : gmap string (gmap Z recordBatch)) = []) as Hnil
    by (by apply rangeMap_nil).
  rewrite Hnil in Hbody. cbn in Hbody. congruence.
Qed.
End produce_request_facts.

Lemma AppendTo_header_witness :
  exists out,
    AppendTo exampleDeps exampleEncoding canonicalOrder exampleRequest [1; 2] = Some out /\
    exists body, out = [1; 2] ++ requestHeader exampleDeps exampleRequest ++ body /\
                 (data exampleRequest = ∅ -> body = []).
Proof.
  eexists. split; [vm_compute; reflexivity|].
  apply (AppendTo_header exampleDeps exampleEncoding canonicalOrder exampleRequest [1; 2]).
  vm_compute. reflexivity.
Defined.

(** ** The hashers *)

Lemma land_mask31 x : Z.land x 0x7fffffff = x mod 2 ^ 31.
Proof. change 0x7fffffff with (Z.ones 31). apply Z.land_ones. lia. Qed.

Lemma uint32_range x : 0 <= uint32 x < 2 ^ 32.
Proof. unfold uint32, wrapU. apply Z.mod_pos_bound. lia. Qed.

Lemma int_id intSize x :
  intSize = 32 \/ intSize = 64 -> - 2 ^ 31 <= x < 2 ^ 31 -> int intSize x = x.
Proof.
  intros [->| ->] Hx; unfold int; apply wrapS_id; lia.
Qed.

Lemma KafkaHasher_value intSize hashFn key n :
  intSize = 32 \/ intSize = 64 -> 0 < n ->
  KafkaHasher intSize hashFn key n = Some ((uint32 (hashFn key) mod 2 ^ 31) mod n).
Proof.
  intros Hsize Hn. unfold KafkaHasher.
  destruct (Z.eqb_spec n 0) as [?|_]; [lia|]. f_equal.
  rewrite land_mask31.
  pose proof (Z.mod_pos_bound (uint32 (hashFn key)) (2 ^ 31) ltac:(lia)) as Hb.
  rewrite int_id by (auto; lia).
  apply Z.rem_mod_nonneg; lia.
Qed.

(** Extra X11 (Kafka's hasher). For a positive number of partitions
    [KafkaHasher] returns, on both widths of [int], the hash without its top
    bit modulo [n], which is an index below [n]. *)
Theorem KafkaHasher_valid_index intSize hashFn key n :
  intSize = 32 \/ intSize = 64 -> 0 < n ->
  exists i,
    KafkaHasher intSize hashFn key n = Some i /\
    i = (uint32 (hashFn key) mod 2 ^ 31) mod n /\ 0 <= i < n.
Proof.
  intros Hsize Hn. eexists. split; [by apply KafkaHasher_value|].
  split; [reflexivity|]. apply Z.mod_pos_bound. lia.
Qed.

Lemma KafkaHasher_valid_index_witness :
  exists i,
    KafkaHasher 32 murmur2 (bytesOf "foobar") 10 = Some i /\
    i = (uint32 (murmur2 (bytesOf "foobar")) mod 2 ^ 31) mod 10 /\ 0 <= i < 10.
Proof. apply (KafkaHasher_valid_index 32 murmur2 (bytesOf "foobar") 10); [by left|lia]. Defined.

(** Extra X12 (Sarama's hasher). For a positive number of partitions that fits
    an [int] [SaramaHasher] returns an index below [n], on both widths. *)
Theorem SaramaHasher_valid_index intSize hashFn key n :
  (intSize = 32 /\ n <= MaxInt32) \/ intSize = 64 -> 0 < n ->
  exists i, SaramaHasher intSize hashFn key n = Some i /\ 0 <= i < n.
Proof.
  intros [[-> Hmax]| ->] Hn.
  - rewrite SaramaHasher_int32 by lia. eexists. split; [reflexivity|].
    apply Z.mod_pos_bound. lia.
  - rewrite SaramaHasher_int64 by lia. eexists. split; [reflexivity|].
    apply Z.mod_pos_bound. lia.
Qed.

Lemma SaramaHasher_valid_index_witness :
  exists i, SaramaHasher 32 murmur2 (bytesOf "foobar") 10 = Some i /\ 0 <= i < 10.
Proof.
  apply (SaramaHasher_valid_index 32 murmur2 (bytesOf "foobar") 10);
    [left; split; [reflexivity|unfold MaxInt32; lia]|lia].
Defined.

(** Extra X13 (the hashers compared). The two hashers agree on every key whose
    hash has its top bit clear. *)
Theorem hashers_agree_below_sign_bit intSize hashFn key n :
  intSize = 32 \/ intSize = 64 ->
  uint32 (hashFn key) < 2 ^ 31 ->
  SaramaHasher intSize hashFn key n = KafkaHasher intSize hashFn key n.
Proof.
  intros Hsize Hh. pose proof (uint32_range (hashFn key)) as Hu.
  unfold SaramaHasher, KafkaHasher. destruct (Z.eqb_spec n 0) as [?|Hn]; [reflexivity|].
  f_equal. rewrite land_mask31, (Z.mod_small _ (2 ^ 31)) by lia.
  rewrite int_id by (auto; lia).
  pose proof (Z.rem_nonneg (uint32 (hashFn key)) n Hn ltac:(lia)).
  destruct (Z.ltb_spec (Z.rem (uint32 (hashFn key)) n) 0); [lia|reflexivity].
Qed.

Lemma hashers_agree_below_sign_bit_witness :
  SaramaHasher 64 murmur2 (bytesOf "abc") 7 = KafkaHasher 64 murmur2 (bytesOf "abc") 7.
Proof.
  apply (hashers_agree_below_sign_bit 64 murmur2 (bytesOf "abc") 7); [by right|].
  vm_compute. reflexivity.
Defined.

(** ** The least-backup partitioner on short and on repeated input *)

Lemma scanBackups_short mapping k : forall (o : nat) least cur,
  (o <= length mapping < o + k)%nat ->
  scanBackups lpInput_next k least cur {| lp_on := Z.of_nat o; lp_mapping := mapping |} = None.
Proof.
  induction k as [|k IH]; intros o least cur Hlen; cbn [scanBackups]; [lia|].
  destruct (mapping !! o) as [b|] eqn:Hb.
  - rewrite (lpInput_next_at _ _ _ Hb).
    apply lookup_lt_Some in Hb.
    destruct (b <? least); apply IH; lia.
  - unfold lpInput_next. cbn [lp_on lp_mapping].
    destruct (Z.ltb_spec (Z.of_nat o) 0) as [?|_]; [reflexivity|].
    rewrite Nat2Z.id, Hb. reflexivity.
Qed.

(** Extra X14 (too few counters). A decision over fewer counters than
    partitions panics: the callback runs out of range. *)
Theorem PartitionByBackup_panics_on_short_mapping (p : leastBackupTopicPartitioner)
    (n : Z) (mapping : list Z) :
  onPart p = -1 \/ onPart p >= n ->
  Z.of_nat (length mapping) < n ->
  PartitionByBackup lpInput_next p n {| lp_on := 0; lp_mapping := mapping |} = None.
Proof.
  intros Hfree Hlen. unfold PartitionByBackup.
  assert ((onPart p =? -1) || (onPart p >=? n) = true) as ->.
  { apply orb_true_iff. destruct Hfree; [left|right]; lia. }
  change 0 with (Z.of_nat 0). rewrite scanBackups_short by lia. reflexivity.
Qed.

Lemma PartitionByBackup_panics_on_short_mapping_witness :
  PartitionByBackup lpInput_next newLeastBackupTopicPartitioner 5
    {| lp_on := 0; lp_mapping := exampleCounts |} = None.
Proof.
  apply (PartitionByBackup_panics_on_short_mapping newLeastBackupTopicPartitioner 5
           exampleCounts); [by left|cbn; lia].
Defined.

(** Extra X15 (the pick is pinned). Once a decision has found a counter below
    the sentinel, the index it returns is a partition, and every further call
    for at least as many partitions returns it again without asking the
    callback, until [OnNewBatch]. *)
Theorem PartitionByBackup_pins_its_pick (p : leastBackupTopicPartitioner) (n : Z)
    (mapping : list Z) :
  onPart p = -1 \/ onPart p >= n ->
  Z.of_nat (length mapping) = n ->
  (exists b, b ∈ mapping /\ b < MaxInt64) ->
  exists i p' s',
    PartitionByBackup lpInput_next p n {| lp_on := 0; lp_mapping := mapping |} =
      Some (i, p', s') /\
    0 <= i < n /\
    forall (S : Type) (backupFn : S -> option (Z * Z * S)) (s : S) (n' : Z),
      i < n' -> PartitionByBackup backupFn p' n' s = Some (i, p', s).
Proof.
  intros Hfree Hlen (b & Hb & Hlt).
  destruct (scanBackups_lpInput mapping (length mapping) 0 MaxInt64 (onPart p)
              ltac:(lia)) as (r & Hscan & Hr).
  assert (exists i : nat, r = Z.of_nat i /\ (i < length mapping)%nat) as (i & -> & Hi).
  { destruct Hr as [[_ Hall]|(i & m & -> & Hi & _)].
    - apply list_elem_of_lookup in Hb as [j Hj].
      pose proof (lookup_lt_Some _ _ _ Hj). specialize (Hall j b ltac:(lia) Hj). lia.
    - exists i. split; [reflexivity|lia]. }
  exists (Z.of_nat i), {| onPart := Z.of_nat i |},
         {| lp_on := Z.of_nat (0 + length mapping); lp_mapping := mapping |}.
  split; [|split; [lia|]].
  - unfold PartitionByBackup.
    assert ((onPart p =? -1) || (onPart p >=? n) = true) as ->.
    { apply orb_true_iff. destruct Hfree; [left|right]; lia. }
    rewrite <- Hlen, Nat2Z.id. change 0 with (Z.of_nat 0) at 1. rewrite Hscan. reflexivity.
  - intros S backupFn s n' Hn'. unfold PartitionByBackup. cbn [onPart].
    destruct (Z.eqb_spec (Z.of_nat i) (-1)) as [?|_]; [lia|].
    destruct (Z.geb_spec (Z.of_nat i) n') as [?|_]; [lia|]. reflexivity.
Qed.

Lemma PartitionByBackup_pins_its_pick_witness :
  exists i p' s',
    PartitionByBackup lpInput_next newLeastBackupTopicPartitioner 4
      {| lp_on := 0; lp_mapping := exampleCounts |} = Some (i, p', s') /\
    0 <= i < 4 /\
    forall (S : Type) (backupFn : S -> option (Z * Z * S)) (s : S) (n' : Z),
      i < n' -> PartitionByBackup backupFn p' n' s = Some (i, p', s).
Proof.
  apply (PartitionByBackup_pins_its_pick newLeastBackupTopicPartitioner 4 exampleCounts);
    [by left|reflexivity|].
  exists 5. split; [apply list_elem_of_here|unfold MaxInt64; lia].
Defined.

(** ** The sticky partitioners *)

Lemma exampleIntn_range r n :
  0 < n -> exists v r', exampleIntn r n = Some (v, r') /\ 0 <= v < n.
Proof.
  intros Hn. unfold exampleIntn. destruct (Z.leb_spec n 0) as [?|_]; [lia|].
  eexists _, _. split; [reflexivity|]. apply Z.mod_pos_bound. lia.
Qed.

Section sticky_facts.
Context {R : Type}.
Variable Intn : R -> Z -> option (Z * R).
Variable intSize : Z.
Hypothesis Intn_range :
  forall r n, 0 < n -> exists v r', Intn r n = Some (v, r') /\ 0 <= v < n.
Hypothesis intSize_pos : 0 < intSize.

Lemma sticky_pick (p : sticky.stickyTopicPartitioner R) n :
  0 < n < 2 ^ (intSize - 1) ->
  sticky.onPart p = -1 \/ sticky.onPart p >= n ->
  exists i r',
    sticky.Partition Intn intSize p n =
      Some (i, {| sticky.lastPart := sticky.lastPart p; sticky.onPart := i;
                  sticky.rng := r' |}) /\
    0 <= i < n /\ (2 <= n -> i <> sticky.lastPart p).
Proof.
  intros Hn Hfree. unfold sticky.Partition.
  assert ((sticky.onPart p =? -1) || (sticky.onPart p >=? n) = true) as ->.
  { apply orb_true_iff. destruct Hfree; [left|right]; lia. }
  destruct (Intn_range (sticky.rng p) n ltac:(lia)) as (v & r' & -> & Hv).
  destruct (Z.eqb_spec v (sticky.lastPart p)) as [Heq|Hne].
  - destruct (Z.eqb_spec n 0) as [?|_]; [lia|]. cbn zeta.
    unfold int. rewrite wrapS_id by lia.
    rewrite Z.rem_mod_nonneg by lia.
    exists ((v + 1) mod n), r'. split; [reflexivity|].
    split; [apply Z.mod_pos_bound; lia|]. intros H2. rewrite <- Heq.
    destruct (Z.eq_dec (v + 1) n) as [E|E].
    + rewrite E, Z.mod_same by lia. lia.
    + rewrite Z.mod_small by lia. lia.
  - exists v, r'. split; [reflexivity|]. split; [lia|]. intros _. exact Hne.
Qed.

Lemma sticky_pinned (p : sticky.stickyTopicPartitioner R) n :
  0 <= sticky.onPart p < n ->
  sticky.Partition Intn intSize p n = Some (sticky.onPart p, p).
Proof.
  intros Hpin. unfold sticky.Partition.
  destruct (Z.eqb_spec (sticky.onPart p) (-1)) as [?|_]; [lia|].
  destruct (Z.geb_spec (sticky.onPart p) n) as [?|_]; [lia|]. reflexivity.
Qed.

(** Extra X16 (the sticky pick). The sticky partitioner returns an index below
    [n], keeps [lastPart], and returns that index again, without drawing, for
    as long as it is a partition and no batch starts. *)
Theorem sticky_Partition_valid_and_pinned (p : sticky.stickyTopicPartitioner R) n :
  -1 <= sticky.onPart p ->
  0 < n < 2 ^ (intSize - 1) ->
  exists i p',
    sticky.Partition Intn intSize p n = Some (i, p') /\
    0 <= i < n /\ sticky.onPart p' = i /\ sticky.lastPart p' = sticky.lastPart p /\
    forall n', i < n' -> sticky.Partition Intn intSize p' n' = Some (i, p').
Proof.
  intros Hon Hn.
  destruct (Z.eq_dec (sticky.onPart p) (-1)) as [Hfree|Hset];
    [|destruct (Z_lt_ge_dec (sticky.onPart p) n) as [Hlt|Hge]].
  - destruct (sticky_pick p n Hn (or_introl Hfree)) as (i & r' & -> & Hi & _).
    eexists _, _. split; [reflexivity|]. cbn [sticky.onPart sticky.lastPart].
    repeat split; try lia. intros n' Hn'.
    exact (sticky_pinned {| sticky.lastPart := sticky.lastPart p; sticky.onPart := i;
                            sticky.rng := r' |} n' ltac:(cbn; lia)).
  - exists (sticky.onPart p), p. split; [apply sticky_pinned; lia|].
    repeat split; try lia. intros n' Hn'. apply sticky_pinned. lia.
  - destruct (sticky_pick p n Hn (or_intror Hge)) as (i & r' & -> & Hi & _).
    eexists _, _. split; [reflexivity|]. cbn [sticky.onPart sticky.lastPart].
    repeat split; try lia. intros n' Hn'.
    exact (sticky_pinned {| sticky.lastPart := sticky.lastPart p; sticky.onPart := i;
                            sticky.rng := r' |} n' ltac:(cbn; lia)).
Qed.

(** Extra X17 (a new batch moves on). With two partitions or more, the first
    record of a new batch goes to a partition other than the one of the batch
    before. *)
Theorem sticky_switches_on_new_batch (p : sticky.stickyTopicPartitioner R) n :
  2 <= n < 2 ^ (intSize - 1) ->
  exists i p',
    sticky.Partition Intn intSize (sticky.OnNewBatch p) n = Some (i, p') /\
    0 <= i < n /\ i <> sticky.onPart p /\ sticky.lastPart p' = sticky.onPart p.
Proof.
  intros Hn.
  destruct (sticky_pick (sticky.OnNewBatch p) n ltac:(lia) (or_introl eq_refl))
    as (i & r' & -> & Hi & Hne).
  eexists _, _. split; [reflexivity|]. cbn [sticky.onPart sticky.lastPart sticky.OnNewBatch] in *.
  repeat split; lia.
Qed.
End sticky_facts.

Lemma sticky_Partition_valid_and_pinned_witness :
  exists i p',
    sticky.Partition exampleIntn 64 (sticky.newStickyTopicPartitioner 7) 3 = Some (i, p') /\
    0 <= i < 3 /\ sticky.onPart p' = i /\
    sticky.lastPart p' = sticky.lastPart (sticky.newStickyTopicPartitioner 7) /\
    forall n', i < n' -> sticky.Partition exampleIntn 64 p' n' = Some (i, p').
Proof.
  apply (sticky_Partition_valid_and_pinned exampleIntn 64 exampleIntn_range ltac:(lia)
           (sticky.newStickyTopicPartitioner 7) 3); cbn; lia.
Defined.

Lemma sticky_switches_on_new_batch_witness :
  exists i p',
    sticky.Partition exampleIntn 64
      (sticky.OnNewBatch {| sticky.lastPart := -1; sticky.onPart := 1; sticky.rng := 7 |}) 3 =
      Some (i, p') /\
    0 <= i < 3 /\ i <> 1 /\ sticky.lastPart p' = 1.
Proof.
  apply (sticky_switches_on_new_batch exampleIntn 64 exampleIntn_range ltac:(lia)
           {| sticky.lastPart := -1; sticky.onPart := 1; sticky.rng := 7 |} 3). lia.
Defined.

(** [murmur2] returns a [uint32]. *)
Lemma lxor_range k a b :
  0 <= k -> 0 <= a < 2 ^ k -> 0 <= b < 2 ^ k -> 0 <= Z.lxor a b < 2 ^ k.
Proof.
  intros Hk Ha Hb.
  assert (0 <= Z.lxor a b) as Hnn by (apply Z.lxor_nonneg; lia).
  split; [assumption|].
  destruct (Z.eq_dec (Z.lxor a b) 0) as [->|Hz]; [lia|].
  apply Z.log2_lt_pow2; [lia|].
  pose proof (Z.log2_lxor a b ltac:(lia) ltac:(lia)) as Hl.
  assert (forall x, 0 <= x < 2 ^ k -> Z.log2 x < k) as Hlog.
  { intros x Hx. destruct (Z.eq_dec x 0) as [->|?].
    - cbn. destruct (Z.eq_dec k 0) as [->|?]; [|lia].
      exfalso. apply Hz. assert (a = 0) as -> by (cbn in Ha; lia).
      assert (b = 0) as -> by (cbn in Hb; lia). reflexivity.
    - apply Z.log2_lt_pow2; lia. }
  specialize (Hlog a Ha) as Hla. specialize (Hlog b Hb) as Hlb. lia.
Qed.

Lemma murmur2_range b : 0 <= murmur2 b < 2 ^ 32.
Proof.
  unfold murmur2. destruct (murmur2_body _ _) as [h rest]. cbn zeta.
  set (h' := uint32 _). pose proof (uint32_range (Z.lxor (murmur2_tail rest h)
    (Z.shiftr (murmur2_tail rest h) 13) * murmur2_m)) as Hh. fold h' in Hh.
  apply lxor_range; [lia|lia|].
  rewrite Z.shiftr_div_pow2 by lia. split; [apply Z.div_pos; lia|].
  apply Z.div_lt_upper_bound; lia.
Qed.

Section stickyKey_facts.
Context {R : Type}.
Variable Intn : R -> Z -> option (Z * R).
Variable intSize : Z.

(** Extra X18 (keyed records). Under [StickyKeyPartitioner(nil)] a record with
    a key goes to the partition Kafka's default partitioner gives it, whatever
    the state of the topic partitioner, leaves that state as it is and
    requires consistency. *)
Theorem stickyKey_keyed_record (p : stickyKey.stickyKeyTopicPartitioner R)
    (r : Record_) (key : list Z) (n : Z) :
  intSize = 32 \/ intSize = 64 ->
  stickyKey.hasher p = stickyKey.kp_hasher (stickyKey.StickyKeyPartitioner intSize None) ->
  Key r = Some key -> 0 < n ->
  stickyKey.Partition Intn intSize p r n = Some ((murmur2 key mod 2 ^ 31) mod n, p) /\
  stickyKey.RequiresConsistency r = true.
Proof.
  intros Hsize Hh Hkey Hn. unfold stickyKey.Partition, stickyKey.RequiresConsistency.
  rewrite Hkey, Hh. cbn [stickyKey.StickyKeyPartitioner stickyKey.kp_hasher].
  rewrite KafkaHasher_value by assumption. cbn.
  unfold uint32, wrapU. rewrite (Z.mod_small (murmur2 key)) by apply murmur2_range.
  split; reflexivity.
Qed.

End stickyKey_facts.

Lemma stickyKey_keyed_record_witness :
  stickyKey.Partition exampleIntn 64
    (stickyKey.ForTopic (stickyKey.StickyKeyPartitioner 64 None) 7)
    {| Key := Some (bytesOf "foobar"); Value := None; Headers := [] |} 10 =
    Some ((murmur2 (bytesOf "foobar") mod 2 ^ 31) mod 10,
          stickyKey.ForTopic (stickyKey.StickyKeyPartitioner 64 None) 7) /\
  stickyKey.RequiresConsistency
    {| Key := Some (bytesOf "foobar"); Value := None; Headers := [] |} = true.
Proof.
  apply (stickyKey_keyed_record exampleIntn 64
           (stickyKey.ForTopic (stickyKey.StickyKeyPartitioner 64 None) 7)
           {| Key := Some (bytesOf "foobar"); Value := None; Headers := [] |}
           (bytesOf "foobar") 10); [by right|reflexivity|reflexivity|lia].
Defined.

(** ** What a reconciliation offers *)

Section engine_extras.
Context {Offset : Type}.
Variable MatchString : string -> string -> bool.
Implicit Types d : directConsumer Offset.

Lemma inDelta_deltaAt (delta : option (gmap string (gmap Z Offset))) T p :
  inDelta delta T p <-> is_Some (deltaAt delta T p).
Proof.
  unfold inDelta, deltaAt. split.
  - intros (m & tm & -> & -> & H). exact H.
  - destruct delta as [m|]; [|intros [? ?]; discriminate].
    destruct (m !! T) as [tm|] eqn:E; [|intros [? ?]; discriminate].
    intros H. eauto.
Qed.

Lemma staged_lookup ro d topo T q :
  match (staged MatchString ro d topo).1.2 !! T with
  | Some tm => tm !! q
  | None => None
  end =
  match topo !! T with
  | Some parts =>
      stagedOffset (default ∅ (partitions d !! T)) parts (wanted MatchString ro d T) q
  | None => None
  end.
Proof.
  destruct (staged_at MatchString ro d topo T) as (_ & _ & _ & _ & Hat).
  destruct (topo !! T) as [parts|]; cbv zeta in Hat; destruct Hat as (_ & _ & _ & ->);
    [|reflexivity].
  rewrite <- wanted_wantAt, overlayAt_range. unfold stagedOffset.
  set (pins := default ∅ (partitions d !! T)).
  destruct (decide (pins = ∅)) as [Hp|Hp].
  - rewrite Hp, lookup_empty.
    destruct (wanted MatchString ro d T) as [o|].
    + apply stagePartitions_lookup.
    + destruct (decide (q ∈ parts)); reflexivity.
  - destruct (pins !! q) as [o|] eqn:Hq.
    + by apply lookup_union_Some_l.
    + rewrite lookup_union_r by exact Hq.
      destruct (wanted MatchString ro d T) as [o|]; cbn.
      * apply stagePartitions_lookup.
      * rewrite lookup_empty. destruct (decide (q ∈ parts)); reflexivity.
Qed.

Lemma delta_lookup ro d topo T q :
  deltaAt (findNewAssignments MatchString ro d topo).1.1 T q =
  match (foldl (subtractTopic ro) (staged MatchString ro d topo).1.2
           (rangeMap ro (using_ d))) !! T with
  | Some tm => tm !! q
  | None => None
  end.
Proof.
  rewrite findNewAssignments_staged. cbv zeta.
  destruct (staged_at MatchString ro d topo "") as (_ & _ & _ & Hus & _). rewrite Hus.
  destruct (size _ =? 0)%nat eqn:Hsize; cbn [fst snd deltaAt]; [|reflexivity].
  apply Nat.eqb_eq, map_size_empty_iff in Hsize. rewrite Hsize, lookup_empty. reflexivity.
Qed.

(** Extra X19 (a topic not yet in use). For a topic of the metadata that has
    no entry in [using], the call offers exactly the staged offsets: the
    pinned offset for a pinned partition, the topic's offset for every other
    partition of the metadata, and nothing else. *)
Theorem delta_of_unused_topic ro d topo T parts q :
  topo !! T = Some parts ->
  using_ d !! T = None ->
  deltaAt (findNewAssignments MatchString ro d topo).1.1 T q =
  stagedOffset (default ∅ (partitions d !! T)) parts (wanted MatchString ro d T) q.
Proof.
  intros Htopo Hus. rewrite delta_lookup, subtract_lookup, Hus.
  rewrite staged_lookup, Htopo. reflexivity.
Qed.

(** Extra X20 (what is offered). Whatever a call offers is a partition that
    was not in use, of a topic of the metadata, at its staged offset: the pin
    if there is one, the topic's offset otherwise. *)
Theorem delta_sound ro d topo T q o :
  deltaAt (findNewAssignments MatchString ro d topo).1.1 T q = Some o ->
  ~ inUsing (using_ d) T q /\
  exists parts, topo !! T = Some parts /\
    stagedOffset (default ∅ (partitions d !! T)) parts (wanted MatchString ro d T) q =
      Some o.
Proof.
  intros Hd. split.
  - intros Hin. apply (findNewAssignments_no_reoffer MatchString ro d topo T q Hin).
    apply inDelta_deltaAt. rewrite Hd. eauto.
  - rewrite delta_lookup, subtract_lookup in Hd.
    pose proof (staged_lookup ro d topo T q) as Hst.
    destruct ((staged MatchString ro d topo).1.2 !! T) as [tm|].
    2:{ destruct (using_ d !! T); discriminate. }
    assert (tm !! q = Some o) as Htm.
    { destruct (using_ d !! T) as [u|]; [|exact Hd].
      destruct (size u =? size tm)%nat; [discriminate|].
      rewrite subtract_partitions_lookup in Hd. destruct (u !! q); [discriminate|exact Hd]. }
    rewrite Htm in Hst. destruct (topo !! T) as [parts|]; [|discriminate].
    exists parts. split; [reflexivity|]. symmetry. exact Hst.
Qed.

(** Extra X21 (the books after a call). After a call a partition is in use
    exactly if it was in use before or the call offered it. *)
Theorem using_after_call ro d topo T p :
  inUsing (using_ (findNewAssignments MatchString ro d topo).1.2) T p <->
  inUsing (using_ d) T p \/ inDelta (findNewAssignments MatchString ro d topo).1.1 T p.
Proof.
  rewrite findNewAssignments_staged. cbv zeta.
  destruct (staged_at MatchString ro d topo "") as (_ & _ & _ & Hus & _). rewrite Hus.
  destruct (size _ =? 0)%nat eqn:Hsize; cbn [fst snd].
  { rewrite Hus. split; [tauto|]. intros [H|(m & tm & Hm & _)]; [exact H|discriminate]. }
  cbn [set_using using_]. unfold inUsing, inDelta.
  set (toUse := foldl (subtractTopic ro) _ _).
  split.
  - intros (s & Hs & Hp). rewrite merge_lookup in Hs.
    destruct (toUse !! T) as [tm|] eqn:Htu; [|left; eauto].
    injection Hs as <-. rewrite merge_partitions_lookup in Hp.
    destruct (tm !! p) as [o|] eqn:Htp.
    + right. exists toUse, tm. rewrite Htp. eauto.
    + left. destruct (using_ d !! T) as [u|]; [eauto|].
      cbn in Hp. rewrite lookup_empty in Hp. destruct Hp; discriminate.
  - intros [(s & Hs & Hp)|(m & tm & Hm & Htm & Hp)].
    + rewrite merge_lookup, Hs. destruct (toUse !! T) as [tm|]; [|eauto].
      eexists. split; [reflexivity|]. rewrite merge_partitions_lookup.
      destruct (tm !! p); [eauto|exact Hp].
    + injection Hm as <-. rewrite merge_lookup, Htm.
      eexists. split; [reflexivity|]. rewrite merge_partitions_lookup.
      destruct Hp as [o ->]. eauto.
Qed.


Lemma trace_nil (tr : list (string * string)) :
  (forall T, testsOf T tr = []) -> tr = [].
Proof.
  destruct tr as [|x tr]; [reflexivity|]. intros H. specialize (H x.2).
  unfold testsOf in H. rewrite filter_cons_True in H by reflexivity. discriminate.
Qed.

(** Extra X22 (no regex mode, no test). Without [ConsumeTopicsRegex] a call
    runs no regular expression and leaves both memo caches as they are. *)
Theorem direct_mode_runs_no_test ro d topo :
  regexTopics d = false ->
  (findNewAssignments MatchString ro d topo).2 = [] /\
  reTopics (findNewAssignments MatchString ro d topo).1.2 = reTopics d /\
  reIgnore (findNewAssignments MatchString ro d topo).1.2 = reIgnore d.
Proof.
  intros Hrx.
  assert (forall T,
    reTopics (findNewAssignments MatchString ro d topo).1.2 !! T = reTopics d !! T /\
    reIgnore (findNewAssignments MatchString ro d topo).1.2 !! T = reIgnore d !! T /\
    testsOf T (findNewAssignments MatchString ro d topo).2 = []) as Hall.
  { intros T. pose proof (findNewAssignments_caches MatchString ro d topo T) as Hc.
    cbv zeta in Hc. destruct (topo !! T); [|exact Hc].
    unfold wantAt in Hc. rewrite Hrx in Hc. exact Hc. }
  split; [apply trace_nil; intros T; apply Hall|].
  split; apply map_eq; intros T; apply Hall.
Qed.

(** The desired spec is never changed, and memo entries stay. *)
Lemma findNewAssignments_keeps ro d topo :
  let d' := (findNewAssignments MatchString ro d topo).1.2 in
  topics d' = topics d /\ partitions d' = partitions d /\
  regexTopics d' = regexTopics d /\
  reTopics d ⊆ reTopics d' /\ reIgnore d ⊆ reIgnore d'.
Proof.
  intros d'. destruct (findNewAssignments_fields MatchString ro d topo) as (Htp & Hps & Hrx).
  split; [exact Htp|]. split; [exact Hps|]. split; [exact Hrx|].
  assert (forall T,
    (forall o, reTopics d !! T = Some o -> reTopics d' !! T = Some o) /\
    (forall u, reIgnore d !! T = Some u -> reIgnore d' !! T = Some u)) as Hall.
  { intros T. pose proof (findNewAssignments_caches MatchString ro d topo T) as Hc.
    cbv zeta in Hc. fold d' in Hc.
    destruct (topo !! T); destruct Hc as (Hrt & Hri & _); rewrite Hrt, Hri;
      [|split; auto].
    unfold wantAt. destruct (regexTopics d); [|split; auto].
    destruct (reTopics d !! T) as [o|]; [split; auto|].
    destruct (reIgnore d !! T) as [[]|]; [split; auto|].
    split; intros ? [=]. }
  split; apply map_subseteq_spec; intros T x Hx; by apply Hall.
Qed.

(** Extra X23 (what calls keep). No sequence of calls changes the topics, the
    pins or the regex mode of the consumer, and the memo caches only grow: no
    entry is dropped or changed. *)
Theorem reconcileAll_keeps_spec_and_memo d calls :
  topics (reconcileAll MatchString d calls) = topics d /\
  partitions (reconcileAll MatchString d calls) = partitions d /\
  regexTopics (reconcileAll MatchString d calls) = regexTopics d /\
  reTopics d ⊆ reTopics (reconcileAll MatchString d calls) /\
  reIgnore d ⊆ reIgnore (reconcileAll MatchString d calls).
Proof.
  revert d. induction calls as [|[ro topo] calls IH]; intros d.
  - repeat split; reflexivity.
  - cbn [reconcileAll foldl fst snd].
    destruct (IH (findNewAssignments MatchString ro d topo).1.2) as (H1 & H2 & H3 & H4 & H5).
    destruct (findNewAssignments_keeps ro d topo) as (K1 & K2 & K3 & K4 & K5).
    unfold reconcileAll in *. rewrite H1, H2, H3.
    repeat split; try assumption; etrans; eassumption.
Qed.

Lemma rangePatterns_elem ro T (m : gmap string Offset) pat o :
  (pat, o) ∈ rangePatterns ro T m <-> m !! pat = Some o.
Proof. rewrite (rangePatterns_perm ro). apply elem_of_map_to_list. Qed.

Lemma findNewAssignments_memoSound ro d topo :
  memoSound MatchString d ->
  memoSound MatchString (findNewAssignments MatchString ro d topo).1.2.
Proof.
  intros Hinv T. destruct (Hinv T) as (Hm & Hi & Hdis).
  destruct (findNewAssignments_fields MatchString ro d topo) as (Htp & _ & _).
  pose proof (findNewAssignments_caches MatchString ro d topo T) as Hc. cbv zeta in Hc.
  rewrite Htp.
  destruct (topo !! T); destruct Hc as (Hrt & Hri & _); rewrite Hrt, Hri;
    [|repeat split; assumption].
  unfold wantAt. destruct (regexTopics d); [|repeat split; assumption].
  destruct (reTopics d !! T) as [o|] eqn:E1; [repeat split; assumption|].
  destruct (reIgnore d !! T) as [[]|] eqn:E2; [repeat split; assumption|].
  pose proof (matchPatterns_inOrder MatchString (rangePatterns ro T (topics d)) T) as Hord.
  destruct (matchPatterns MatchString (rangePatterns ro T (topics d)) T)
    as [[o|] tested]; cbn [fst snd] in *.
  - destruct Hord as [(i & pat & o' & Hi' & Hmatch & _ & _ & [= <-])|(_ & _ & [=])].
    split; [|split].
    + intros o'' [= <-]. exists pat. split; [|exact Hmatch].
      apply (rangePatterns_elem ro T). eapply list_elem_of_lookup_2. exact Hi'.
    + intros [? [=]].
    + intros [_ [? [=]]].
  - destruct Hord as [(i & pat & o' & _ & _ & _ & _ & [=])|(Hnone & _ & _)].
    split; [|split].
    + intros o'' [=].
    + intros _ pat o Hpat. apply (rangePatterns_elem ro T) in Hpat.
      apply list_elem_of_lookup_1 in Hpat as [j Hj]. exact (Hnone j pat o Hj).
    + intros [[? [=]] _].
Qed.

(** Extra X24 (the memo is sound). In every reachable consumer a topic
    memoized as matching carries the offset of a pattern that matches it, a
    topic memoized as ignored is matched by no pattern, and no topic is in
    both caches. *)
Theorem reachable_memo_sound d T :
  reachable MatchString d ->
  (forall o, reTopics d !! T = Some o ->
     exists pat, topics d !! pat = Some o /\ MatchString pat T = true) /\
  (is_Some (reIgnore d !! T) ->
     forall pat o, topics d !! pat = Some o -> MatchString pat T = false) /\
  ~ (is_Some (reTopics d !! T) /\ is_Some (reIgnore d !! T)).
Proof.
  intros Hreach. revert T. change (memoSound MatchString d).
  induction Hreach as [tp ps rx|ro d topo _ IH].
  - intros T. cbn. rewrite !lookup_empty. split; [intros o [=]|].
    split; [intros [? [=]]|intros [[? [=]] _]].
  - apply findNewAssignments_memoSound. exact IH.
Qed.


Lemma apply_opts_caches (opts : list (ConsumeOpt Offset)) d :
  let d' := foldl (fun d opt => ConsumeOpt_apply opt d) d opts in
  reTopics d' = reTopics d /\ reIgnore d' = reIgnore d /\ using_ d' = using_ d.
Proof.
  revert d. induction opts as [|opt opts IH]; intros d; [repeat split|].
  cbn [foldl]. destruct (IH (ConsumeOpt_apply opt d)) as (H1 & H2 & H3).
  cbv zeta. rewrite H1, H2, H3. destruct opt; repeat split.
Qed.

(** Extra X25 (a fresh consumer). When [AssignPartitions] installs a direct
    consumer, its memo caches and its [using] are empty, whatever the options,
    and it names a topic or pins a partition; such a consumer is where the
    reachable ones start. *)
Theorem AssignPartitions_fresh (opts : list (ConsumeOpt Offset)) d :
  AssignPartitions opts = Some d ->
  reTopics d = ∅ /\ reIgnore d = ∅ /\ using_ d = ∅ /\
  reachable MatchString d /\
  (topics d <> ∅ \/ partitions d <> ∅).
Proof.
  unfold AssignPartitions. cbv zeta.
  destruct (apply_opts_caches opts (mkDirectConsumer ∅ ∅ false ∅ ∅ ∅)) as (H1 & H2 & H3).
  cbv zeta in H1, H2, H3. cbn [reTopics reIgnore using_] in H1, H2, H3.
  set (d0 := foldl _ _ opts) in *.
  destruct ((size (topics d0) =? 0)%nat && (size (partitions d0) =? 0)%nat) eqn:E;
    [discriminate|].
  intros [= <-]. split; [exact H1|]. split; [exact H2|]. split; [exact H3|]. split.
  - destruct d0 as [tp ps rx rt ri us]. cbn in H1, H2, H3. subst. apply reachable_fresh.
  - apply andb_false_iff in E as [E|E]; [left|right]; intros Hempty;
      rewrite Hempty, map_size_empty in E; discriminate.
Qed.

Lemma ConsumeTopics_lookup (offset : Offset) (ts : list string) (m : gmap string Offset) T :
  foldl (fun m topic => <[topic := offset]> m) m ts !! T =
  if decide (T ∈ ts) then Some offset else m !! T.
Proof.
  revert m. induction ts as [|t ts IH]; intros m; cbn [foldl].
  - rewrite decide_False by apply not_elem_of_nil. reflexivity.
  - rewrite IH. destruct (decide (T ∈ ts)) as [Hin|Hnin].
    + rewrite decide_True by (rewrite elem_of_cons; tauto). reflexivity.
    + destruct (decide (T = t)) as [->|Hne].
      * rewrite decide_True by apply list_elem_of_here. apply lookup_insert_eq.
      * rewrite decide_False by (rewrite elem_of_cons; tauto).
        apply lookup_insert_ne. congruence.
Qed.

(** Extra X26 (the last [ConsumeTopics] wins). A [ConsumeTopics] option
    replaces the topics of every earlier one: after it the consumer's topics
    are exactly its arguments, all at its offset. *)
Theorem ConsumeTopics_last_wins (opts : list (ConsumeOpt Offset)) offset ts d :
  AssignPartitions (opts ++ [ConsumeTopics offset ts]) = Some d ->
  forall T, topics d !! T = if decide (T ∈ ts) then Some offset else None.
Proof.
  unfold AssignPartitions. cbv zeta. rewrite foldl_app. cbn [foldl ConsumeOpt_apply].
  destruct (_ && _); [discriminate|]. intros [= <-] T.
  cbn [set_topics topics]. rewrite ConsumeTopics_lookup, lookup_empty. reflexivity.
Qed.

End engine_extras.

Lemma delta_of_unused_topic_witness :
  deltaAt (findNewAssignments matchNothing canonicalOrder consumerPinned
             (topologyT [0; 1])).1.1 "T" 1 =
  stagedOffset (default ∅ (partitions consumerPinned !! "T")) [0; 1]
    (wanted matchNothing canonicalOrder consumerPinned "T") 1.
Proof.
  apply (delta_of_unused_topic matchNothing canonicalOrder consumerPinned
           (topologyT [0; 1]) "T" [0; 1] 1); reflexivity.
Defined.

Lemma delta_sound_witness :
  ~ inUsing (using_ consumerT) "T" 0 /\
  exists parts, topologyT [0] !! "T" = Some parts /\
    stagedOffset (default ∅ (partitions consumerT !! "T")) parts
      (wanted matchNothing canonicalOrder consumerT "T") 0 = Some earliest.
Proof.
  apply (delta_sound matchNothing canonicalOrder consumerT (topologyT [0]) "T" 0 earliest).
  vm_compute. reflexivity.
Defined.

Lemma direct_mode_runs_no_test_witness :
  (findNewAssignments literalMatch canonicalOrder consumerT (topologyT [0])).2 = [] /\
  reTopics (findNewAssignments literalMatch canonicalOrder consumerT (topologyT [0])).1.2 =
    reTopics consumerT /\
  reIgnore (findNewAssignments literalMatch canonicalOrder consumerT (topologyT [0])).1.2 =
    reIgnore consumerT.
Proof.
  apply (direct_mode_runs_no_test literalMatch canonicalOrder consumerT (topologyT [0])).
  reflexivity.
Defined.

Lemma reachable_memo_sound_witness :
  (forall o,
     reTopics (findNewAssignments literalMatch canonicalOrder consumerRegex topologyAB).1.2
       !! "ab" = Some o ->
     exists pat, topics (findNewAssignments literalMatch canonicalOrder consumerRegex
                           topologyAB).1.2 !! pat = Some o /\
                 literalMatch pat "ab" = true) /\
  (is_Some (reIgnore (findNewAssignments literalMatch canonicalOrder consumerRegex
                        topologyAB).1.2 !! "ab") ->
     forall pat o,
       topics (findNewAssignments literalMatch canonicalOrder consumerRegex
                 topologyAB).1.2 !! pat = Some o ->
       literalMatch pat "ab" = false) /\
  ~ (is_Some (reTopics (findNewAssignments literalMatch canonicalOrder consumerRegex
                          topologyAB).1.2 !! "ab") /\
     is_Some (reIgnore (findNewAssignments literalMatch canonicalOrder consumerRegex
                          topologyAB).1.2 !! "ab")).
Proof.
  apply (reachable_memo_sound literalMatch
           (findNewAssignments literalMatch canonicalOrder consumerRegex topologyAB).1.2 "ab").
  apply reachable_call, reachable_fresh.
Defined.

Lemma AssignPartitions_fresh_witness :
  reTopics consumerPinned = ∅ /\ reIgnore consumerPinned = ∅ /\ using_ consumerPinned = ∅ /\
  reachable matchNothing consumerPinned /\
  (topics consumerPinned <> ∅ \/ partitions consumerPinned <> ∅).
Proof.
  apply (AssignPartitions_fresh matchNothing
           [ConsumeTopics earliest ["T"%string];
            ConsumePartitions {[ "T"%string := {[ 1 := latest ]} ]}] consumerPinned).
  vm_compute. reflexivity.
Defined.

Lemma ConsumeTopics_last_wins_witness :
  topics consumerT !! "T"%string =
  if decide ("T"%string ∈ ["T"%string]) then Some earliest else None.
Proof.
  apply (ConsumeTopics_last_wins matchNothing [ConsumeTopics latest ["a"; "b"]%string]
           earliest ["T"%string] consumerT).
  vm_compute. reflexivity.
Defined.

(** ** Client configuration *)

Lemma IndexByte_bound s c : -1 <= config.IndexByte s c < config.len s.
Proof.
  unfold config.len. induction s as [|a s IH]; cbn [config.IndexByte String.length]; [lia|].
  destruct (Ascii.eqb a c); [lia|].
  destruct (Z.ltb_spec (config.IndexByte s c) 0); lia.
Qed.

Lemma length_substring_le s : forall n m, (String.length (String.substring n m s) <= m)%nat.
Proof.
  induction s as [|a s IH]; intros [|n] [|m]; cbn; try lia.
  - specialize (IH 0%nat m). lia.
  - apply (IH n 0%nat).
  - apply (IH n (S m)).
Qed.

Section config_facts.
Context {Codec CodecErr Part Dial Tls : Type}.
Variable deps : config.ClientDeps Codec CodecErr Part Dial.

Lemma seedAddr_port seedBroker :
  0 < config.IndexByte seedBroker config.colonByte ->
  config.seedAddr deps seedBroker = config.panicked.
Proof.
  intros Hcolon. unfold config.seedAddr. cbn zeta.
  set (colon := config.IndexByte seedBroker config.colonByte) in *.
  pose proof (IndexByte_bound seedBroker config.colonByte) as Hb. fold colon in Hb.
  destruct (Z.gtb_spec colon 0) as [_|?]; [|lia].
  unfold config.sliceTo.
  destruct (Z.leb_spec 0 colon) as [_|?]; [|lia].
  destruct (Z.leb_spec colon (config.len seedBroker)) as [_|?]; [|lia]. cbn [andb].
  unfold config.sliceFrom.
  pose proof (length_substring_le seedBroker 0 (Z.to_nat colon)) as Hlen.
  destruct (Z.leb_spec 0 (colon + 1)) as [_|?]; [|lia].
  destruct (Z.leb_spec (colon + 1)
              (config.len (String.substring 0 (Z.to_nat colon) seedBroker))) as [Hle|_].
  - unfold config.len in Hle. lia.
  - reflexivity.
Qed.

Lemma seedAddr_portless seedBroker :
  config.IndexByte seedBroker config.colonByte <= 0 ->
  config.seedAddr deps seedBroker =
    if negb (config.isAddr deps seedBroker) && negb (config.isDomain deps seedBroker)
    then config.failed (config.neitherIPNorDomain seedBroker)
    else config.returned (config.JoinHostPort deps seedBroker (config.Itoa deps 9092)).
Proof.
  intros Hcolon. unfold config.seedAddr. cbn zeta.
  destruct (Z.gtb_spec (config.IndexByte seedBroker config.colonByte) 0) as [?|_]; [lia|].
  reflexivity.
Qed.

Lemma validateCodecs_None codecs :
  config.validateCodecs deps codecs = None <->
  Forall (fun codec => config.codec_validate deps codec = None) codecs.
Proof.
  induction codecs as [|codec rest IH]; cbn [config.validateCodecs].
  - split; [constructor|reflexivity].
  - rewrite Forall_cons. destruct (config.codec_validate deps codec) as [e|].
    + split; [discriminate|]. intros [? _]. discriminate.
    + rewrite IH. tauto.
Qed.

Lemma producerCfg_validate_None (cfg : config.producerCfg Codec Part) :
  config.producerCfg_validate deps cfg = None <->
  Forall (fun codec => config.codec_validate deps codec = None) (config.pc_compression cfg) /\
  1024 <= config.maxRecordBatchBytes cfg <= config.maxBrokerWriteBytes cfg /\
  config.maxBrokerWriteBytes cfg <= 2 ^ 30.
Proof.
  rewrite <- validateCodecs_None. unfold config.producerCfg_validate.
  change (Z.shiftl 1 10) with 1024. change (Z.shiftl 1 30) with (2 ^ 30).
  destruct (config.validateCodecs deps (config.pc_compression cfg)) as [e|].
  { split; [discriminate|]. intros [? _]. discriminate. }
  destruct (Z.ltb_spec (config.maxRecordBatchBytes cfg) 1024).
  { split; [discriminate|]. lia. }
  destruct (Z.ltb_spec (config.maxBrokerWriteBytes cfg) 1024).
  { split; [discriminate|]. lia. }
  destruct (Z.ltb_spec (config.maxBrokerWriteBytes cfg) (config.maxRecordBatchBytes cfg)).
  { split; [discriminate|]. lia. }
  destruct (Z.gtb_spec (config.maxBrokerWriteBytes cfg) (2 ^ 30)).
  { split; [discriminate|]. lia. }
  split; [intros _|reflexivity]. split; [reflexivity|lia].
Qed.

(** Extra X27 (validation). The producer configuration is accepted exactly
    when every codec is and 1024 <= maxRecordBatchBytes <= maxBrokerWriteBytes
    <= 2^30. *)
Theorem producerCfg_validate_accepts_iff (cfg : config.producerCfg Codec Part) :
  config.producerCfg_validate deps cfg = None <->
  Forall (fun codec => config.codec_validate deps codec = None) (config.pc_compression cfg) /\
  1024 <= config.maxRecordBatchBytes cfg <= config.maxBrokerWriteBytes cfg /\
  config.maxBrokerWriteBytes cfg <= 2 ^ 30.
Proof. apply producerCfg_validate_None. Qed.

(** Extra X28 (the size limits). With the defaults for everything else,
    [NewClient] accepts the batch limit [b] and the write limit [w] exactly
    when 1024 <= b <= w <= 2^30, in whichever order the two options come; and
    the defaults themselves are accepted. *)
Theorem NewClient_size_limits (b w : Z) :
  config.codec_validate deps (config.NoCompression deps) = None ->
  ((exists c, config.NewClient (Tls := Tls) deps []
                [config.WithMaxRecordBatchBytes b; config.WithBrokerMaxWriteBytes w] =
              config.returned c) <->
   1024 <= b <= w /\ w <= 2 ^ 30) /\
  config.NewClient deps []
    [config.WithMaxRecordBatchBytes b; config.WithBrokerMaxWriteBytes w] =
  config.NewClient (Tls := Tls) deps []
    [config.WithBrokerMaxWriteBytes w; config.WithMaxRecordBatchBytes b] /\
  config.NewClient (Tls := Tls) deps [] [] = config.returned (config.defaultCfg deps, []).
Proof.
  intros Hcodec. split; [|split].
  - unfold config.NewClient. cbn [config.applyOpts config.WithMaxRecordBatchBytes
      config.WithBrokerMaxWriteBytes config.defaultCfg config.client config.producer].
    unfold config.validate. cbn [config.clientCfg_validate config.producer config.seedAddrs].
    match goal with |- context [config.producerCfg_validate deps ?c] =>
      pose proof (producerCfg_validate_None c) as Hv;
      destruct (config.producerCfg_validate deps c) as [e|] end.
    + cbn in Hv. split; [intros [c Hc]; discriminate|].
      intros Hb. destruct Hv as [_ Hv]. discriminate Hv.
      split; [apply Forall_singleton; exact Hcodec|lia].
    + cbn in Hv. destruct Hv as [Hv _]. specialize (Hv eq_refl).
      split; [intros _; lia|]. intros _. eexists. reflexivity.
  - reflexivity.
  - unfold config.NewClient. cbn [config.applyOpts]. unfold config.validate.
    cbn [config.clientCfg_validate].
    assert (config.producerCfg_validate deps (config.producer (config.defaultCfg (Tls := Tls) deps))
            = None) as ->; [|reflexivity].
    apply producerCfg_validate_None.
    cbn [config.defaultCfg config.producer config.pc_compression
         config.maxRecordBatchBytes config.maxBrokerWriteBytes].
    change (Z.shiftl 100 20) with 104857600.
    split; [apply Forall_singleton; exact Hcodec|lia].
Qed.

Lemma seedAddrs_port seedBrokers :
  (exists seedBroker, seedBroker ∈ seedBrokers /\
     0 < config.IndexByte seedBroker config.colonByte) ->
  forall addrs, config.seedAddrs deps seedBrokers <> config.returned addrs.
Proof.
  intros (seed & Hin & Hcolon).
  induction seedBrokers as [|s rest IH]; [by apply not_elem_of_nil in Hin|].
  intros addrs. cbn [config.seedAddrs].
  apply elem_of_cons in Hin as [<-|Hin].
  - rewrite seedAddr_port by assumption. discriminate.
  - destruct (config.seedAddr deps s); try discriminate.
    specialize (IH Hin). destruct (config.seedAddrs deps rest) as [l| |]; try discriminate.
    exfalso. by apply (IH l).
Qed.

(** Extra X29 (a seed with a port). [NewClient] returns no client when a seed
    broker carries a port (a colon after its first byte); if the options are
    accepted and the first seed is such a seed, it panics: the port is sliced
    out of the host that was cut at the colon. *)
Theorem NewClient_seed_with_port (seedBrokers : list string)
    (opts : list (config.Opt Codec Part Dial Tls)) :
  (exists seedBroker, seedBroker ∈ seedBrokers /\
     0 < config.IndexByte seedBroker config.colonByte) ->
  (forall r, config.NewClient deps seedBrokers opts <> config.returned r) /\
  (forall c seedBroker rest,
     config.applyOpts (config.defaultCfg deps) opts = Some c ->
     config.validate deps c = None ->
     seedBrokers = seedBroker :: rest ->
     0 < config.IndexByte seedBroker config.colonByte ->
     config.NewClient deps seedBrokers opts = config.panicked).
Proof.
  intros Hport. split.
  - intros r. unfold config.NewClient.
    destruct (config.applyOpts _ opts) as [c|]; [|discriminate].
    destruct (config.validate deps c); [discriminate|].
    pose proof (seedAddrs_port seedBrokers Hport) as Hs.
    destruct (config.seedAddrs deps seedBrokers) as [l| |]; try discriminate.
    exfalso. by apply (Hs l).
  - intros c seed rest Hopts Hvalid -> Hcolon. unfold config.NewClient.
    rewrite Hopts, Hvalid. cbn [config.seedAddrs]. rewrite seedAddr_port by assumption.
    reflexivity.
Qed.

(** Extra X30 (seeds without a port). Seed brokers without a port, each an IP
    address or a domain, are all kept, in order, each joined with the default
    port 9092. *)
Theorem NewClient_portless_seeds (seedBrokers : list string)
    (opts : list (config.Opt Codec Part Dial Tls)) c :
  config.applyOpts (config.defaultCfg deps) opts = Some c ->
  config.validate deps c = None ->
  Forall (fun seedBroker =>
            config.IndexByte seedBroker config.colonByte <= 0 /\
            config.isAddr deps seedBroker || config.isDomain deps seedBroker = true)
         seedBrokers ->
  config.NewClient deps seedBrokers opts =
    config.returned
      (c, (fun seedBroker => config.JoinHostPort deps seedBroker (config.Itoa deps 9092))
            <$> seedBrokers).
Proof.
  intros Hopts Hvalid Hseeds. unfold config.NewClient. rewrite Hopts, Hvalid.
  assert (config.seedAddrs deps seedBrokers =
          config.returned
            ((fun seedBroker => config.JoinHostPort deps seedBroker (config.Itoa deps 9092))
               <$> seedBrokers)) as ->; [|reflexivity].
  induction Hseeds as [|s rest [Hcolon Hok] _ IH]; [reflexivity|].
  cbn [config.seedAddrs fmap list_fmap]. rewrite seedAddr_portless by assumption.
  apply orb_true_iff in Hok.
  assert (negb (config.isAddr deps s) && negb (config.isDomain deps s) = false) as ->.
  { destruct Hok as [-> | ->]; [reflexivity|apply andb_false_r]. }
  change (list_fmap _ _ ?f rest) with (f <$> rest). rewrite IH. reflexivity.
Qed.
End config_facts.

Lemma NewClient_size_limits_witness :
  ((exists c, config.NewClient (Tls := unit) exampleClientDeps []
                [config.WithMaxRecordBatchBytes 2048; config.WithBrokerMaxWriteBytes 4096] =
              config.returned c) <->
   1024 <= 2048 <= 4096 /\ 4096 <= 2 ^ 30) /\
  config.NewClient exampleClientDeps []
    [config.WithMaxRecordBatchBytes 2048; config.WithBrokerMaxWriteBytes 4096] =
  config.NewClient (Tls := unit) exampleClientDeps []
    [config.WithBrokerMaxWriteBytes 4096; config.WithMaxRecordBatchBytes 2048] /\
  config.NewClient (Tls := unit) exampleClientDeps [] [] =
    config.returned (config.defaultCfg exampleClientDeps, []).
Proof. apply (NewClient_size_limits exampleClientDeps 2048 4096). reflexivity. Defined.

Lemma NewClient_seed_with_port_witness :
  (forall r, config.NewClient (Tls := unit) exampleClientDeps ["localhost:9093"%string] [] <>
             config.returned r) /\
  (forall c seedBroker rest,
     config.applyOpts (Tls := unit) (config.defaultCfg exampleClientDeps) [] = Some c ->
     config.validate exampleClientDeps c = None ->
     ["localhost:9093"%string] = seedBroker :: rest ->
     0 < config.IndexByte seedBroker config.colonByte ->
     config.NewClient (Tls := unit) exampleClientDeps ["localhost:9093"%string] [] =
       config.panicked).
Proof.
  apply (NewClient_seed_with_port exampleClientDeps ["localhost:9093"%string] []).
  exists "localhost:9093"%string. split; [apply list_elem_of_here|reflexivity].
Defined.

Lemma NewClient_portless_seeds_witness :
  exists c,
    config.applyOpts (Tls := unit) (config.defaultCfg exampleClientDeps)
      [config.WithClientID None] = Some c /\
    config.NewClient exampleClientDeps ["127.0.0.1"; "kafka.example.com"]%string
      [config.WithClientID None] =
    config.returned (c, ["127.0.0.1:9092"; "kafka.example.com:9092"]%string).
Proof.
  eexists. split; [reflexivity|].
  apply (NewClient_portless_seeds exampleClientDeps
           ["127.0.0.1"; "kafka.example.com"]%string [config.WithClientID None]);
    [reflexivity|reflexivity|].
  repeat (constructor; [split; [vm_compute; discriminate|reflexivity]|]). constructor.
Defined.
